(** * Cognition kernel: inference engine, state-space planner, episodic memory

    Shallow embedding of [src/core/reasoning.py], [src/core/planner.py] and
    [src/core/memory.py], and the properties of the specification proved (or
    refuted) about them.

    Conventions.
    - A Python call that can raise returns a [result]; [Raise e] stands for the
      uncaught exception [e] leaving the method.
    - Confidences, priorities and similarity scores are Python floats; they are
      idealised as exact rationals ([Q]).  Planner costs and heuristic values
      are modelled as Python integers ([Z]), on which the arithmetic of the
      code is exact.
    - [dict]s with string keys are [gmap string _]; Python sets are [gset]. *)

From Stdlib Require Import ZArith QArith Qcanon Lia Lqa.
From stdpp Require Import base option list gmap strings sorting pretty.

Open Scope Z_scope.

(** ** Exceptions *)

Inductive exn : Type :=
| TypeError
| ValueError
| IndexError
| AttributeError
| ZeroDivisionError.

Inductive result (A : Type) : Type :=
| Ok (a : A)
| Raise (e : exn).

Arguments Ok {A} a.
Arguments Raise {A} e.

Definition is_ok {A : Type} (m : result A) : Prop :=
  match m with Ok _ => True | Raise _ => False end.

(** Strict comparison of two rationals, Python's [x < y] on numbers. *)
Definition Qltb (x y : Q) : bool := negb (Qle_bool y x).

Lemma Qltb_lt (x y : Q) : Qltb x y = true <-> (x < y)%Q.
Proof.
  unfold Qltb. rewrite negb_true_iff.
  destruct (Qle_bool y x) eqn:E.
  - apply Qle_bool_iff in E. split; [discriminate | intros H; exfalso; lra].
  - split; [intros _ | reflexivity].
    apply Qnot_le_lt. intros H. apply Qle_bool_iff in H. congruence.
Qed.

Lemma Qltb_ge (x y : Q) : Qltb x y = false <-> (y <= x)%Q.
Proof.
  unfold Qltb. rewrite negb_false_iff. apply Qle_bool_iff.
Qed.

(** Python's [min(xs)] on a list of numbers: the first smallest element;
    [None] stands for the [ValueError] raised on an empty list. *)
Fixpoint py_min_from (cur : Q) (xs : list Q) : Q :=
  match xs with
  | [] => cur
  | x :: xs' => py_min_from (if Qltb x cur then x else cur) xs'
  end.

Definition py_min (xs : list Q) : option Q :=
  match xs with
  | [] => None
  | x :: xs' => Some (py_min_from x xs')
  end.

(** ** Inference engine ([src/core/reasoning.py]) *)

Module Reasoning.

(** A fact is the tuple [(subject, predicate)]. *)
Definition fact : Type := string * string.

(** One entry of [inference_chain]. *)
Record step : Type := Step {
  step_depth : Z;
  step_premises : list fact;
  step_conclusion : fact;
  step_confidence : Q
}.

(** The mutable knowledge of a [ReasoningEngine]: [self.facts],
    [self.confidences], [self.inference_chain], [self.derived_facts]. *)
Record kb : Type := Kb {
  facts : gset fact;
  confidences : gmap fact Q;
  inference_chain : list step;
  derived_facts : gset fact
}.

(** A rule as stored in [self.rules]: either the dictionary built by
    [add_rule], or the one built by [add_custom_rule], whose condition and
    action are caller code run on the engine (here: on its knowledge). *)
Inductive rule : Type :=
| Rule (premises : list fact) (conclusion : fact) (confidence : Q)
| Custom (name : string) (condition : kb -> bool) (action : kb -> kb).

Record engine : Type := Engine {
  method : string;
  max_depth : Z;
  rules : list rule;
  know : kb
}.

Definition is_standard (r : rule) : Prop :=
  match r with Rule _ _ _ => True | Custom _ _ _ => False end.

(** [ReasoningEngine.__init__] *)
Definition init (method : string) (max_depth : Z) : engine :=
  Engine method max_depth [] (Kb ∅ ∅ [] ∅).

(** [add_fact] *)
Definition add_fact (subject predicate : string) (confidence : Q) (e : engine) : engine :=
  let k := know e in
  let f := (subject, predicate) in
  Engine (method e) (max_depth e) (rules e)
    (Kb ({[f]} ∪ facts k) (<[f := confidence]> (confidences k))
        (inference_chain k) (derived_facts k)).

(** [add_rule] *)
Definition add_rule (premises : list fact) (conclusion : fact) (confidence : Q)
    (e : engine) : engine :=
  Engine (method e) (max_depth e) (rules e ++ [Rule premises conclusion confidence]) (know e).

(** [add_custom_rule] *)
Definition add_custom_rule (name : string) (condition : kb -> bool) (action : kb -> kb)
    (e : engine) : engine :=
  Engine (method e) (max_depth e) (rules e ++ [Custom name condition action]) (know e).

(** [self.confidences.get(p, 1.0)] *)
Definition conf_of (k : kb) (p : fact) : Q := default 1%Q (confidences k !! p).

(** [all(premise in self.facts for premise in premises)] *)
Definition all_satisfied (k : kb) (premises : list fact) : bool :=
  forallb (fun p => bool_decide (p ∈ facts k)) premises.

(** Body of [for rule in self.rules] in [_forward_chaining], for one rule.
    The pair carries the knowledge and the local flag [changed]. *)
Definition fire (depth : Z) (st : kb * bool) (r : rule) : result (kb * bool) :=
  let '(k, changed) := st in
  match r with
  | Custom _ condition action =>
      if condition k then Ok (action k, true) else Ok (k, changed)
  | Rule premises conclusion rule_confidence =>
      if all_satisfied k premises then
        if bool_decide (conclusion ∈ facts k) then Ok (k, changed)
        else
          match py_min (map (conf_of k) premises) with
          | None => Raise ValueError
          | Some m =>
              let conclusion_confidence := (m * rule_confidence)%Q in
              Ok (Kb ({[conclusion]} ∪ facts k)
                     (<[conclusion := conclusion_confidence]> (confidences k))
                     (inference_chain k ++
                        [Step depth premises conclusion conclusion_confidence])
                     ({[conclusion]} ∪ derived_facts k),
                  true)
          end
      else Ok (k, changed)
  end.

(** One execution of the [for] loop. *)
Fixpoint pass (depth : Z) (rs : list rule) (st : kb * bool) : result (kb * bool) :=
  match rs with
  | [] => Ok st
  | r :: rs' =>
      match fire depth st r with
      | Ok st' => pass depth rs' st'
      | Raise e => Raise e
      end
  end.

(** [while changed and depth < self.max_depth].  [depth] grows by one per
    iteration, so [todo] — the number of iterations still allowed,
    [max_depth - depth] — is the structural argument. *)
Fixpoint fc_loop (todo : nat) (depth : Z) (rs : list rule) (k : kb) : result kb :=
  match todo with
  | O => Ok k
  | S todo' =>
      match pass (depth + 1) rs (k, false) with
      | Ok (k', changed) =>
          if changed then fc_loop todo' (depth + 1) rs k' else Ok k'
      | Raise e => Raise e
      end
  end.

(** [_forward_chaining]: returns the engine after the run and
    [list(self.derived_facts)]. *)
Definition forward_chaining (e : engine) : result (engine * list fact) :=
  match fc_loop (Z.to_nat (max_depth e)) 0 (rules e) (know e) with
  | Ok k' =>
      Ok (Engine (method e) (max_depth e) (rules e) k', elements (derived_facts k'))
  | Raise e => Raise e
  end.

(** [infer] *)
Definition infer (e : engine) : result (engine * list fact) :=
  let k := know e in
  let e0 := Engine (method e) (max_depth e) (rules e)
              (Kb (facts k) (confidences k) [] ∅) in
  if String.eqb (method e) "forward_chaining" then forward_chaining e0
  else if String.eqb (method e) "backward_chaining" then Ok (e0, [])
  else if String.eqb (method e) "probabilistic" then Ok (e0, [])
  else Ok (e0, []).

(** [query(subject)].  The loop runs over a Python set, whose order of
    iteration is not modelled: the list is given in the order of
    [elements]. *)
Definition query (subject : string) (e : engine) : list (string * Q) :=
  (fun f : fact => (f.2, conf_of (know e) f)) <$>
    filter (fun f : fact => f.1 = subject) (elements (facts (know e))).

(** [check_consistency] *)
Definition check_consistency (e : engine) : bool := true.

(** [clear] *)
Definition clear (e : engine) : engine :=
  Engine (method e) (max_depth e) [] (Kb ∅ ∅ [] ∅).

(** The dictionary returned by [get_stats]. *)
Record stats : Type := Stats {
  stats_method : string;
  stats_max_depth : Z;
  num_facts : nat;
  num_rules : nat;
  num_derived_facts : nat;
  inference_steps : nat
}.

(** [get_stats] *)
Definition get_stats (e : engine) : stats :=
  Stats (method e) (max_depth e) (size (facts (know e))) (length (rules e))
    (size (derived_facts (know e))) (length (inference_chain (know e))).

End Reasoning.

(** ** Python values *)

(** The values held in state and item dictionaries: [None], booleans,
    integers, floats (exact rationals), strings and [datetime] objects (as
    microseconds since the epoch).  Equality is structural; Python's [==]
    also equates [True], [1] and [1.0], so one variable is taken to hold
    values of one type. *)
Inductive value : Type :=
| VNone
| VBool (b : bool)
| VInt (z : Z)
| VFloat (q : Qc)
| VStr (s : string)
| VTime (us : Z).

Global Instance value_eq_dec : EqDecision value.
Proof. solve_decision. Defined.

Global Instance value_countable : Countable value.
Proof.
  refine (inj_countable'
    (fun v => match v with
              | VNone => inl ()
              | VBool b => inr (inl b)
              | VInt z => inr (inr (inl z))
              | VFloat q => inr (inr (inr (inl q)))
              | VStr s => inr (inr (inr (inr (inl s))))
              | VTime t => inr (inr (inr (inr (inr t))))
              end)
    (fun x => match x with
              | inl () => VNone
              | inr (inl b) => VBool b
              | inr (inr (inl z)) => VInt z
              | inr (inr (inr (inl q))) => VFloat q
              | inr (inr (inr (inr (inl s)))) => VStr s
              | inr (inr (inr (inr (inr t)))) => VTime t
              end) _).
  by intros [].
Defined.

(** A dictionary with string keys; [d.get(k)] is [None] on a missing key. *)
Abbreviation dict := (gmap string value).

Definition dict_get (d : dict) (k : string) : value := default VNone (d !! k).

(** ** [heapq] on the planner's frontier

    [heapq] is CPython's standard library, not code of the repository; push
    and pop are transcribed from its implementation ([_heapqmodule.c], which
    moves items by swapping; [heapq.py] makes the same comparisons in the
    same order).  The heap is generic in the item type and in the
    comparison [lt], which may raise. *)

Module Heapq.
Section Heapq.
Context {A : Type} (lt : A -> A -> result bool).

(** Exchange the items at [i] and [j]. *)
Definition swap (heap : list A) (i j : nat) : list A :=
  match heap !! i, heap !! j with
  | Some a, Some b => <[i := b]> (<[j := a]> heap)
  | _, _ => heap
  end.

(** [siftdown(heap, startpos, pos)]: move the item at [pos] up while it is
    smaller than its parent.  [pos] at least halves at every turn, so [fuel],
    started at [pos], is never the reason for stopping
    (see [HeapqSpec.siftdown_fuel]). *)
Fixpoint siftdown (fuel : nat) (heap : list A) (startpos pos : nat) : result (list A) :=
  match fuel with
  | O => Ok heap
  | S fuel' =>
      if (pos <=? startpos)%nat then Ok heap
      else
        let parentpos := ((pos - 1) / 2)%nat in
        match heap !! pos, heap !! parentpos with
        | Some newitem, Some parent =>
            match lt newitem parent with
            | Raise e => Raise e
            | Ok false => Ok heap
            | Ok true => siftdown fuel' (swap heap pos parentpos) startpos parentpos
            end
        | _, _ => Ok heap
        end
  end.

(** First loop of [siftup(heap, pos)]: move the smaller child up until a
    leaf is reached; returns the heap and the position of that leaf.  [pos]
    grows at every turn, so [fuel], started at the length of the heap, is
    never the reason for stopping (see [HeapqSpec.siftup_loop_spec]). *)
Fixpoint siftup_loop (fuel : nat) (heap : list A) (pos : nat) : result (list A * nat) :=
  let endpos := length heap in
  let limit := (endpos / 2)%nat in
  match fuel with
  | O => Ok (heap, pos)
  | S fuel' =>
      if (limit <=? pos)%nat then Ok (heap, pos)
      else
        let childpos := (2 * pos + 1)%nat in
        let smaller :=
          if (childpos + 1 <? endpos)%nat then
            match heap !! childpos, heap !! (childpos + 1)%nat with
            | Some a, Some b =>
                match lt a b with
                | Raise e => Raise e
                | Ok true => Ok childpos
                | Ok false => Ok (childpos + 1)%nat
                end
            | _, _ => Ok childpos
            end
          else Ok childpos in
        match smaller with
        | Raise e => Raise e
        | Ok childpos' => siftup_loop fuel' (swap heap pos childpos') childpos'
        end
  end.

(** [siftup(heap, pos)] *)
Definition siftup (heap : list A) (pos : nat) : result (list A) :=
  match siftup_loop (length heap) heap pos with
  | Raise e => Raise e
  | Ok (heap', pos') => siftdown pos' heap' pos pos'
  end.

(** [heapq.heappush(heap, item)] *)
Definition heappush (heap : list A) (item : A) : result (list A) :=
  siftdown (length heap) (heap ++ [item]) 0 (length heap).

(** [heapq.heappop(heap)]: the popped item and the heap left. *)
Definition heappop (heap : list A) : result (A * list A) :=
  match last heap with
  | None => Raise IndexError
  | Some lastelt =>
      match removelast heap with
      | [] => Ok (lastelt, [])
      | returnitem :: rest =>
          match siftup (lastelt :: rest) 0 with
          | Raise e => Raise e
          | Ok heap' => Ok (returnitem, heap')
          end
      end
  end.

End Heapq.
End Heapq.

(** ** State-space planner ([src/core/planner.py]) *)

Module Planner.

(** A state and a goal are dictionaries. *)
Abbreviation state := (gmap string value).

(** An action as built by [register_action]; the closures are total
    functions of the state they are given. *)
Record action : Type := Action {
  name : string;
  preconditions : state -> bool;
  effects : state -> state;
  cost : Z
}.

Record planner : Type := Planner {
  algorithm : string;
  max_depth : Z;
  actions : list action;
  heuristic : option (state -> state -> Z);
  nodes_explored : Z;
  plan_length : Z;
  plan_cost : Z
}.

(** [Planner.__init__] *)
Definition init (algorithm : string) (max_depth : Z) : planner :=
  Planner algorithm max_depth [] None 0 0 0.

(** [register_action] *)
Definition register_action (name : string) (preconditions : state -> bool)
    (effects : state -> state) (cost : Z) (p : planner) : planner :=
  Planner (algorithm p) (max_depth p)
    (actions p ++ [Action name preconditions effects cost])
    (heuristic p) (nodes_explored p) (plan_length p) (plan_cost p).

(** [set_heuristic] *)
Definition set_heuristic (h : state -> state -> Z) (p : planner) : planner :=
  Planner (algorithm p) (max_depth p) (actions p) (Some h)
    (nodes_explored p) (plan_length p) (plan_cost p).

(** [_is_goal] *)
Definition is_goal (s goal : state) : bool :=
  forallb (fun kv => bool_decide (dict_get s kv.1 = kv.2)) (map_to_list goal).

(** Order of [sorted] on the items of a dictionary: tuples are compared by
    their first component, the key, and the keys of one dictionary differ. *)
Definition item_le (x y : string * value) : Prop := String.leb x.1 y.1 = true.

Global Instance item_le_dec : RelDecision item_le.
Proof. intros x y. unfold item_le. apply _. Defined.

(** [_state_to_key]: [str(sorted(state.items()))].  The key is kept as the
    sorted list of items, of which the string is an injective rendering. *)
Definition state_to_key (s : state) : list (string * value) :=
  merge_sort item_le (map_to_list s).

(** *** Frontier entries of the informed search *)

(** The tuple [(f_score, state, path, cost)]. *)
Definition entry : Type := Z * state * list string * Z.

(** [a < b] on lists of strings. *)
Fixpoint list_lt (a b : list string) : bool :=
  match a, b with
  | [], [] => false
  | [], _ :: _ => true
  | _ :: _, [] => false
  | x :: a', y :: b' => if String.eqb x y then list_lt a' b' else String.ltb x y
  end.

(** [a < b] on frontier tuples: the first components that differ decide;
    when these are the two states, [dict < dict] raises [TypeError]. *)
Definition entry_lt (a b : entry) : result bool :=
  let '(f1, s1, p1, g1) := a in
  let '(f2, s2, p2, g2) := b in
  if negb (f1 =? f2) then Ok (f1 <? f2)
  else if negb (bool_decide (s1 = s2)) then Raise TypeError
  else if negb (bool_decide (p1 = p2)) then Ok (list_lt p1 p2)
  else Ok (g1 <? g2).

(** *** Search runs *)

(** How a search ends: a plan with its cost ([return path] after
    [self.plan_cost = cost]), no plan ([return []] after the loop), or an
    exception. *)
Inductive outcome : Type :=
| Found (path : list string) (cost : Z)
| NoPlan
| Raised (e : exn).

(** The result of a search: its outcome, [self.nodes_explored] at that
    point, and — kept for the statement of the no-revisit invariant only,
    the code has no such variable — the states that passed the test
    [state_key in visited], in order. *)
Record search : Type := Search {
  result_of : outcome;
  explored : Z;
  expanded : list state
}.

Section Searches.
Context (acts : list action) (h : option (state -> state -> Z)) (goal : state).

(** [h_cost] of [_a_star_search]. *)
Definition h_cost (s : state) : Z :=
  match h with
  | Some heuristic => heuristic s goal
  | None => 0
  end.

(** [for action in self.actions] of [_a_star_search].  [effects] is given
    [current_state.copy()], so the current state itself stays as it is. *)
Fixpoint a_star_expand (todo : list action) (frontier : list entry)
    (current_state : state) (path : list string) (g_cost : Z) : result (list entry) :=
  match todo with
  | [] => Ok frontier
  | a :: todo' =>
      if preconditions a current_state then
        let next_state := effects a current_state in
        let new_g_cost := g_cost + cost a in
        let f_cost := new_g_cost + h_cost next_state in
        let new_path := path ++ [name a] in
        match Heapq.heappush entry_lt frontier (f_cost, next_state, new_path, new_g_cost) with
        | Raise e => Raise e
        | Ok frontier' => a_star_expand todo' frontier' current_state path g_cost
        end
      else a_star_expand todo' frontier current_state path g_cost
  end.

(** [while frontier and self.nodes_explored < self.max_depth] of
    [_a_star_search].  Every turn adds one to [nodes_explored], so [budget],
    the number [max_depth - nodes_explored] of turns left, is the
    structural argument. *)
Fixpoint a_star_loop (budget : nat) (frontier : list entry)
    (visited : gset (list (string * value))) (nodes : Z) (trace : list state) : search :=
  match budget, frontier with
  | O, _ => Search NoPlan nodes trace
  | _, [] => Search NoPlan nodes trace
  | S budget', _ =>
      match Heapq.heappop entry_lt frontier with
      | Raise e => Search (Raised e) nodes trace
      | Ok ((f_score, current_state, path, g_cost), frontier') =>
          let nodes' := nodes + 1 in
          let state_key := state_to_key current_state in
          if bool_decide (state_key ∈ visited) then
            a_star_loop budget' frontier' visited nodes' trace
          else
            let visited' := {[state_key]} ∪ visited in
            let trace' := trace ++ [current_state] in
            if is_goal current_state goal then Search (Found path g_cost) nodes' trace'
            else
              match a_star_expand acts frontier' current_state path g_cost with
              | Raise e => Search (Raised e) nodes' trace'
              | Ok frontier'' => a_star_loop budget' frontier'' visited' nodes' trace'
              end
      end
  end.

(** [for action in self.actions] of [_breadth_first_search]; the same
    loop, with a further component, serves [_depth_first_search]. *)
Fixpoint bfs_expand (todo : list action) (queue : list (state * list string * Z))
    (current_state : state) (path : list string) (cost_so_far : Z)
    : list (state * list string * Z) :=
  match todo with
  | [] => queue
  | a :: todo' =>
      if preconditions a current_state then
        bfs_expand todo'
          (queue ++ [(effects a current_state, path ++ [name a], cost_so_far + cost a)])
          current_state path cost_so_far
      else bfs_expand todo' queue current_state path cost_so_far
  end.

(** [while queue and self.nodes_explored < self.max_depth] of
    [_breadth_first_search]; [queue.popleft()] takes the head. *)
Fixpoint bfs_loop (budget : nat) (queue : list (state * list string * Z))
    (visited : gset (list (string * value))) (nodes : Z) (trace : list state) : search :=
  match budget, queue with
  | O, _ => Search NoPlan nodes trace
  | _, [] => Search NoPlan nodes trace
  | S budget', (current_state, path, cost_so_far) :: queue' =>
      let nodes' := nodes + 1 in
      let state_key := state_to_key current_state in
      if bool_decide (state_key ∈ visited) then
        bfs_loop budget' queue' visited nodes' trace
      else
        let visited' := {[state_key]} ∪ visited in
        let trace' := trace ++ [current_state] in
        if is_goal current_state goal then Search (Found path cost_so_far) nodes' trace'
        else
          bfs_loop budget' (bfs_expand acts queue' current_state path cost_so_far)
            visited' nodes' trace'
  end.

Fixpoint dfs_expand (todo : list action) (stack : list (state * list string * Z * Z))
    (current_state : state) (path : list string) (cost_so_far depth : Z)
    : list (state * list string * Z * Z) :=
  match todo with
  | [] => stack
  | a :: todo' =>
      if preconditions a current_state then
        dfs_expand todo'
          (stack ++ [(effects a current_state, path ++ [name a],
                      cost_so_far + cost a, depth + 1)])
          current_state path cost_so_far depth
      else dfs_expand todo' stack current_state path cost_so_far depth
  end.

(** [while stack and self.nodes_explored < self.max_depth] of
    [_depth_first_search]; [stack.pop()] takes the last item. *)
Fixpoint dfs_loop (max_depth : Z) (budget : nat) (stack : list (state * list string * Z * Z))
    (visited : gset (list (string * value))) (nodes : Z) (trace : list state) : search :=
  match budget, last stack with
  | O, _ => Search NoPlan nodes trace
  | _, None => Search NoPlan nodes trace
  | S budget', Some (current_state, path, cost_so_far, depth) =>
      let stack' := removelast stack in
      let nodes' := nodes + 1 in
      if max_depth <? depth then dfs_loop max_depth budget' stack' visited nodes' trace
      else
        let state_key := state_to_key current_state in
        if bool_decide (state_key ∈ visited) then
          dfs_loop max_depth budget' stack' visited nodes' trace
        else
          let visited' := {[state_key]} ∪ visited in
          let trace' := trace ++ [current_state] in
          if is_goal current_state goal then Search (Found path cost_so_far) nodes' trace'
          else
            dfs_loop max_depth budget'
              (dfs_expand acts stack' current_state path cost_so_far depth)
              visited' nodes' trace'
  end.

End Searches.

(** [_a_star_search], [_breadth_first_search], [_depth_first_search] and
    [_strips_planning], run on a planner [p]. *)
Definition a_star_search (p : planner) (initial_state goal : state) : search :=
  a_star_loop (actions p) (heuristic p) goal
    (Z.to_nat (max_depth p - nodes_explored p))
    [(0, initial_state, [], 0)] ∅ (nodes_explored p) [].

Definition breadth_first_search (p : planner) (initial_state goal : state) : search :=
  bfs_loop (actions p) goal
    (Z.to_nat (max_depth p - nodes_explored p))
    [(initial_state, [], 0)] ∅ (nodes_explored p) [].

Definition depth_first_search (p : planner) (initial_state goal : state) : search :=
  dfs_loop (actions p) goal (max_depth p)
    (Z.to_nat (max_depth p - nodes_explored p))
    [(initial_state, [], 0, 0)] ∅ (nodes_explored p) [].

Definition strips_planning (p : planner) (initial_state goal : state) : search :=
  a_star_search p initial_state goal.

(** The search selected by [self.algorithm]; [None] for an unknown name. *)
Definition run_search (p : planner) (initial_state goal : state) : option search :=
  if String.eqb (algorithm p) "a_star" then Some (a_star_search p initial_state goal)
  else if String.eqb (algorithm p) "bfs" then Some (breadth_first_search p initial_state goal)
  else if String.eqb (algorithm p) "dfs" then Some (depth_first_search p initial_state goal)
  else if String.eqb (algorithm p) "strips" then Some (strips_planning p initial_state goal)
  else None.

(** [create_plan]: the planner after the call and the plan returned. *)
Definition create_plan (p : planner) (initial_state goal : state)
    (new_actions : option (list action)) : result (planner * list string) :=
  let acts := match new_actions with Some l => l | None => actions p end in
  let p0 := Planner (algorithm p) (max_depth p) acts (heuristic p) 0 0 0 in
  match run_search p0 initial_state goal with
  | None => Ok (p0, [])
  | Some r =>
      match result_of r with
      | Raised e => Raise e
      | NoPlan =>
          Ok (Planner (algorithm p) (max_depth p) acts (heuristic p) (explored r) 0 0, [])
      | Found plan c =>
          Ok (Planner (algorithm p) (max_depth p) acts (heuristic p) (explored r)
                (match plan with [] => 0 | _ => Z.of_nat (length plan) end) c,
              plan)
      end
  end.

(** [replan]; [failed_action] is only logged. *)
Definition replan (p : planner) (current_state goal : state)
    (failed_action : option string) : result (planner * list string) :=
  create_plan p current_state goal None.

(** [decompose_goal] *)
Definition decompose_goal (goal : state) : list state := [goal].

(** [estimate_plan_cost]: the heuristic when one is set, else the number of
    goal variables on which the state differs. *)
Definition estimate_plan_cost (p : planner) (s goal : state) : Z :=
  match heuristic p with
  | Some h => h s goal
  | None =>
      Z.of_nat (length (filter (fun kv : string * value => dict_get s kv.1 <> kv.2)
                          (map_to_list goal)))
  end.

(** The dictionary returned by [get_stats]. *)
Record stats : Type := Stats {
  stats_algorithm : string;
  stats_max_depth : Z;
  stats_nodes_explored : Z;
  stats_plan_length : Z;
  stats_plan_cost : Z;
  num_actions : nat
}.

(** [get_stats] *)
Definition get_stats (p : planner) : stats :=
  Stats (algorithm p) (max_depth p) (nodes_explored p) (plan_length p)
    (plan_cost p) (length (actions p)).

End Planner.

(** ** Memory ([src/core/memory.py])

    Memory items are dictionaries owned by the caller and held by
    reference: the [objects] map sends the identity of a dictionary to its
    current contents, and the stores hold identities.  [datetime.now()] is
    an input of each call: [clock n] is the value of its [n]-th reading
    during the call, in microseconds. *)

Module Memory.

(** The Python objects passed as [query]: a dictionary or another value. *)
Inductive query : Type :=
| QDict (d : dict)
| QValue (v : value).

(** Truth value of a Python object, as tested by [if item_id:]. *)
Definition truthy (v : value) : bool :=
  match v with
  | VNone => false
  | VBool b => b
  | VInt z => negb (z =? 0)
  | VFloat q => negb (Qeq_bool q 0)
  | VStr s => negb (String.eqb s "")
  | VTime _ => true
  end.

(** Contents of the dictionary of identity [l]. *)
Definition deref (objects : gmap nat dict) (l : nat) : dict :=
  default ∅ (objects !! l).

Record memory : Type := Memory {
  capacity : nat;
  memory_type : string;
  working_memory : list nat;
  episodic_memory : list nat;
  semantic_memory : list (value * nat);
  access_counts : gmap value Z;
  last_access : gmap value Z;
  priorities : gmap value Q
}.

(** [Memory.__init__]; [deque(maxlen=capacity)] requires a capacity that
    is not negative. *)
Definition init (capacity : nat) (memory_type : string) : memory :=
  Memory capacity memory_type [] [] [] ∅ ∅ ∅.

(** [deque.append(x)] on a deque of bound [maxlen]: the items that do not
    fit are dropped from the left. *)
Definition deque_append (maxlen : nat) (dq : list nat) (x : nat) : list nat :=
  drop (length (dq ++ [x]) - maxlen) (dq ++ [x]).

(** [d[key] = x] on a dictionary kept in insertion order. *)
Fixpoint dict_set (d : list (value * nat)) (key : value) (x : nat) : list (value * nat) :=
  match d with
  | [] => [(key, x)]
  | (k, y) :: d' => if decide (k = key) then (k, x) :: d' else (k, y) :: dict_set d' key x
  end.

(** The text of a generated identifier, [f"mem_{t}_{h}"]; the time is
    printed in microseconds. *)
Definition mem_id (t hash : Z) : string :=
  "mem_" +:+ pretty t +:+ "_" +:+ pretty hash.

(** Stable sort of scored items by ascending score, and by descending
    score ([list.sort(key=..., reverse=True)]): items of equal score keep
    their order. *)
Fixpoint insert_asc {A : Type} (x : Q * A) (l : list (Q * A)) : list (Q * A) :=
  match l with
  | [] => [x]
  | y :: l' => if Qltb y.1 x.1 then y :: insert_asc x l' else x :: y :: l'
  end.

Definition sort_asc {A : Type} (l : list (Q * A)) : list (Q * A) :=
  foldr insert_asc [] l.

Fixpoint insert_desc {A : Type} (x : Q * A) (l : list (Q * A)) : list (Q * A) :=
  match l with
  | [] => [x]
  | y :: l' => if Qltb x.1 y.1 then y :: insert_desc x l' else x :: y :: l'
  end.

Definition sort_desc {A : Type} (l : list (Q * A)) : list (Q * A) :=
  foldr insert_desc [] l.

(** The slice [l[:k]]: a negative [k] counts from the end. *)
Definition slice_to {A : Type} (l : list A) (k : Z) : list A :=
  if 0 <=? k then take (Z.to_nat k) l
  else take (Z.to_nat (Z.of_nat (length l) + k)) l.

(** [Memory._calculate_similarity] as the class defines it. *)
Definition calculate_similarity (q : query) (item : dict) : Q :=
  match q, item !! "state" with
  | QDict _, Some _ => 7 # 10
  | _, _ => 1 # 2
  end.

Section Memory.
(** [hash(str(item))], which Python salts per process, and the method
    [_calculate_similarity], which a subclass may redefine. *)
Context (hash_str : dict -> Z) (similarity : query -> dict -> Q).

(** [_generate_id(item)]; the default argument of [get] reads the clock. *)
Definition generate_id (now : Z) (item : dict) : result value :=
  match default (VTime now) (item !! "_timestamp") with
  | VTime t => Ok (VStr (mem_id t (hash_str item `mod` 10000)))
  | _ => Raise AttributeError
  end.

(** Importance of one stored item in [_forget_least_important]. *)
Definition importance (m : memory) (current_time : Z) (item : dict) : result Q :=
  let item_id := dict_get item "_id" in
  let priority := default 1%Q (priorities m !! item_id) in
  let access_count := default 0 (access_counts m !! item_id) in
  match default (VTime current_time) (item !! "_timestamp") with
  | VTime timestamp =>
      let age := ((current_time - timestamp) # 1000000)%Q in
      let hours := (1 + age / 3600)%Q in
      if Qeq_bool hours 0 then Raise ZeroDivisionError
      else
        let recency := (1 / hours)%Q in
        Ok (priority * inject_Z (1 + access_count) * recency)%Q
  | _ => Raise TypeError
  end.

(** The loop that fills [importance_scores]. *)
Fixpoint importance_scores (objects : gmap nat dict) (m : memory) (current_time : Z)
    (items : list nat) : result (list (Q * nat)) :=
  match items with
  | [] => Ok []
  | l :: items' =>
      match importance m current_time (deref objects l) with
      | Raise e => Raise e
      | Ok score =>
          match importance_scores objects m current_time items' with
          | Raise e => Raise e
          | Ok scores => Ok ((score, l) :: scores)
          end
      end
  end.

(** [deque.remove(x)]: drop the first item equal to [x]; dictionaries are
    compared by contents. *)
Fixpoint deque_remove (objects : gmap nat dict) (dq : list nat) (x : nat)
    : result (list nat) :=
  match dq with
  | [] => Raise ValueError
  | y :: dq' =>
      if decide (deref objects y = deref objects x) then Ok dq'
      else
        match deque_remove objects dq' x with
        | Raise e => Raise e
        | Ok dq'' => Ok (y :: dq'')
        end
  end.

(** [_forget_least_important]: the episodic buffer left. *)
Definition forget_least_important (objects : gmap nat dict) (m : memory)
    (current_time : Z) : result (list nat) :=
  match episodic_memory m with
  | [] => Ok []
  | _ =>
      match importance_scores objects m current_time (episodic_memory m) with
      | Raise e => Raise e
      | Ok scores =>
          match sort_asc scores with
          | [] => Ok (episodic_memory m)
          | (_, least_important) :: _ =>
              deque_remove objects (episodic_memory m) least_important
          end
      end
  end.

(** The item of identity [item] after the metadata have been written. *)
Definition stamped (timestamp : Z) (priority : Q) (d : dict) : dict :=
  <["_access_count" := VInt 0]>
    (<["_priority" := VFloat (Q2Qc priority)]>
       (<["_timestamp" := VTime timestamp]> d)).

(** [store(item, priority)] *)
Definition store (clock : nat -> Z) (item : nat) (priority : Q)
    (objects : gmap nat dict) (m : memory) : result (gmap nat dict * memory) :=
  let timestamp := clock 0%nat in
  let d := stamped timestamp priority (deref objects item) in
  match generate_id (clock 1%nat) d with
  | Raise e => Raise e
  | Ok item_id =>
      let objects' := <[item := <["_id" := item_id]> d]> objects in
      if String.eqb (memory_type m) "working" then
        Ok (objects',
            Memory (capacity m) (memory_type m)
              (deque_append 100 (working_memory m) item)
              (episodic_memory m) (semantic_memory m)
              (access_counts m) (last_access m) (priorities m))
      else if String.eqb (memory_type m) "episodic" then
        match
          (if (capacity m <=? length (episodic_memory m))%nat
           then forget_least_important objects' m (clock 2%nat)
           else Ok (episodic_memory m))
        with
        | Raise e => Raise e
        | Ok kept =>
            Ok (objects',
                Memory (capacity m) (memory_type m) (working_memory m)
                  (deque_append (capacity m) kept item) (semantic_memory m)
                  (access_counts m) (last_access m)
                  (<[item_id := priority]> (priorities m)))
        end
      else if String.eqb (memory_type m) "semantic" then
        let key :=
          if truthy (dict_get (deref objects' item) "key")
          then dict_get (deref objects' item) "key" else item_id in
        Ok (objects',
            Memory (capacity m) (memory_type m) (working_memory m)
              (episodic_memory m) (dict_set (semantic_memory m) key item)
              (access_counts m) (last_access m) (priorities m))
      else Ok (objects', m)
  end.

(** The list [memories] of [recall]. *)
Definition memories (m : memory) : list nat :=
  if String.eqb (memory_type m) "episodic" then episodic_memory m
  else if String.eqb (memory_type m) "working" then working_memory m
  else (semantic_memory m).*2.

(** The scoring loop of [recall]: [scored_memories], the two access maps
    and the number of clock readings made so far. *)
Fixpoint score_loop (clock : nat -> Z) (objects : gmap nat dict) (q : query)
    (similarity_threshold : Q) (items : list nat)
    (scored : list (Q * nat)) (counts last : gmap value Z) (reads : nat)
    : list (Q * nat) * gmap value Z * gmap value Z * nat :=
  match items with
  | [] => (scored, counts, last, reads)
  | l :: items' =>
      let score := similarity q (deref objects l) in
      if Qle_bool similarity_threshold score then
        let item_id := dict_get (deref objects l) "_id" in
        if truthy item_id then
          score_loop clock objects q similarity_threshold items'
            (scored ++ [(score, l)])
            (<[item_id := default 0 (counts !! item_id) + 1]> counts)
            (<[item_id := clock reads]> last) (S reads)
        else
          score_loop clock objects q similarity_threshold items'
            (scored ++ [(score, l)]) counts last reads
      else
        score_loop clock objects q similarity_threshold items' scored counts last reads
  end.

(** [recall(query, k, similarity_threshold)]: the memory after the call
    and the list returned. *)
Definition recall (clock : nat -> Z) (q : query) (k : Z) (similarity_threshold : Q)
    (objects : gmap nat dict) (m : memory) : memory * list nat :=
  match memories m with
  | [] => (m, [])
  | _ =>
      let '(scored, counts, last, _) :=
        score_loop clock objects q similarity_threshold (memories m) []
          (access_counts m) (last_access m) 0 in
      (Memory (capacity m) (memory_type m) (working_memory m)
         (episodic_memory m) (semantic_memory m) counts last (priorities m),
       (slice_to (sort_desc scored) k).*2)
  end.

End Memory.

(** [consolidate], a placeholder that changes nothing. *)
Definition consolidate (m : memory) : memory := m.

(** [clear(memory_type)]; [None] clears every store.  The access maps are
    cleared in every case. *)
Definition clear (which : option string) (m : memory) : memory :=
  let selected (t : string) : bool :=
    match which with
    | None => true
    | Some w => String.eqb w t
    end in
  Memory (capacity m) (memory_type m)
    (if selected "working" then [] else working_memory m)
    (if selected "episodic" then [] else episodic_memory m)
    (if selected "semantic" then [] else semantic_memory m)
    ∅ ∅
    (if selected "episodic" then ∅ else priorities m).

(** [__len__] *)
Definition len (m : memory) : nat :=
  if String.eqb (memory_type m) "working" then length (working_memory m)
  else if String.eqb (memory_type m) "episodic" then length (episodic_memory m)
  else length (semantic_memory m).

(** [sum(self.access_counts.values())] *)
Definition total_accesses (m : memory) : Z :=
  map_fold (fun (_ : value) (n acc : Z) => n + acc) 0 (access_counts m).

(** The dictionary returned by [get_stats]. *)
Record stats : Type := Stats {
  stats_memory_type : string;
  stats_capacity : nat;
  working_memory_size : nat;
  episodic_memory_size : nat;
  semantic_memory_size : nat;
  stats_total_accesses : Z
}.

(** [get_stats] *)
Definition get_stats (m : memory) : stats :=
  Stats (memory_type m) (capacity m) (length (working_memory m))
    (length (episodic_memory m)) (length (semantic_memory m)) (total_accesses m).

End Memory.

(** * Properties of the inference engine *)

Module ReasoningSpec.
Import Reasoning.

(** A rule is _eligible_ in [k] when the loop body would fire it: all its
    premises are held and its conclusion is not. *)
Definition eligible (k : kb) (r : rule) : Prop :=
  match r with
  | Rule premises conclusion _ =>
      all_satisfied k premises = true /\ (conclusion ∉ facts k)
  | Custom _ condition _ => condition k = true
  end.

(** [k] is a fixed point of the rules [rs]. *)
Definition saturated (k : kb) (rs : list rule) : Prop :=
  Forall (fun r => ~ eligible k r) rs.

(** Number of rules of [rs] whose conclusion is not yet a fact. *)
Fixpoint pending (k : kb) (rs : list rule) : nat :=
  match rs with
  | [] => O
  | Rule _ conclusion _ :: rs' =>
      (if bool_decide (conclusion ∈ facts k) then O else 1%nat) + pending k rs'
  | Custom _ _ _ :: rs' => S (pending k rs')
  end.

Lemma pending_le_length (k : kb) (rs : list rule) : (pending k rs <= length rs)%nat.
Proof.
  induction rs as [|[p c q|n c a] rs IH]; simpl; [lia | | lia].
  case_bool_decide; lia.
Qed.

Lemma pending_mono (k k' : kb) (rs : list rule) :
  facts k ⊆ facts k' -> (pending k' rs <= pending k rs)%nat.
Proof.
  intros Hsub. induction rs as [|[p c q|n c a] rs IH]; simpl; [lia | | lia].
  repeat case_bool_decide; try lia. set_solver.
Qed.

Lemma pending_lt (k k' : kb) (rs : list rule) p c q :
  facts k ⊆ facts k' -> Rule p c q ∈ rs -> c ∉ facts k -> c ∈ facts k' ->
  (pending k' rs < pending k rs)%nat.
Proof.
  intros Hsub Hin Hc Hc'. induction rs as [|r rs IH]; [by apply not_elem_of_nil in Hin|].
  apply elem_of_cons in Hin as [<- | Hin]; simpl.
  - pose proof (pending_mono k k' rs Hsub). repeat case_bool_decide; try done; lia.
  - specialize (IH Hin). destruct r as [p' c' q'|]; [|lia].
    repeat case_bool_decide; try lia. set_solver.
Qed.

Lemma pending_zero_saturated (k : kb) (rs : list rule) :
  Forall is_standard rs -> pending k rs = O -> saturated k rs.
Proof.
  induction 1 as [|[p c q|] rs Hr _ IH]; simpl; intros H0; [constructor | | done].
  case_bool_decide; [|lia]. constructor; [|by apply IH].
  simpl. tauto.
Qed.

(** What one run of the loop body does to the knowledge. *)
Lemma fire_cases (d : Z) (k : kb) (ch : bool) p c q st' :
  fire d (k, ch) (Rule p c q) = Ok st' ->
  (st' = (k, ch) /\ ~ eligible k (Rule p c q)) \/
  (exists m, py_min (map (conf_of k) p) = Some m /\
     all_satisfied k p = true /\ (c ∉ facts k) /\
     st' = (Kb ({[c]} ∪ facts k) (<[c := (m * q)%Q]> (confidences k))
               (inference_chain k ++ [Step d p c (m * q)%Q])
               ({[c]} ∪ derived_facts k), true)).
Proof.
  simpl. destruct (all_satisfied k p) eqn:Hall.
  - case_bool_decide as Hc.
    + intros [= <-]. left. split; [done | intros [_ ?]; done].
    + destruct (py_min _) as [m|] eqn:Hm; [|done].
      intros [= <-]. right. by exists m.
  - intros [= <-]. left. split; [done | intros [? _]; done].
Qed.

Lemma fire_saturated (d : Z) (k : kb) (ch : bool) (r : rule) :
  ~ eligible k r -> fire d (k, ch) r = Ok (k, ch).
Proof.
  destruct r as [p c q|n cond act]; simpl.
  - intros Hne. destruct (all_satisfied k p); [|done].
    case_bool_decide; [done | tauto].
  - intros Hne. destruct (cond k); [done | done].
Qed.

Lemma pass_saturated (d : Z) (k : kb) (ch : bool) (rs : list rule) :
  saturated k rs -> pass d rs (k, ch) = Ok (k, ch).
Proof.
  induction 1 as [|r rs Hr _ IH]; cbn [pass]; [done|].
  by rewrite fire_saturated.
Qed.

(** A pass over standard rules only adds facts; it either leaves the
    knowledge untouched and finds no eligible rule, or raises the flag and
    lowers [pending] for every rule list containing the rules passed. *)
Lemma pass_progress (d : Z) (all rs : list rule) (k k' : kb) (ch ch' : bool) :
  Forall is_standard rs -> rs ⊆ all ->
  pass d rs (k, ch) = Ok (k', ch') ->
  facts k ⊆ facts k' /\
  ((k' = k /\ ch' = ch /\ saturated k rs) \/
   (ch' = true /\ (pending k' all < pending k all)%nat)).
Proof.
  intros Hstd. revert k ch.
  induction Hstd as [|[p c q|] rs Hr _ IHrs]; intros k ch Hsub; cbn [pass].
  - intros [= <- <-]. split; [done|]. left. repeat split. constructor.
  - assert (Hsub' : rs ⊆ all) by (clear IHrs; set_solver).
    assert (Hin : Rule p c q ∈ all) by (clear IHrs; set_solver).
    destruct (fire d (k, ch) (Rule p c q)) as [[k1 ch1]|] eqn:Hf; [|done].
    intros Hp. apply fire_cases in Hf as [[[= -> ->] Hne] | (m & Hm & Hall & Hc & [= -> ->])].
    + destruct (IHrs k ch Hsub' Hp) as [Hs [(-> & -> & Hsat) | (-> & Hlt)]].
      * split; [done|]. left. repeat split. by constructor.
      * split; [done|]. by right.
    + set (k1 := Kb _ _ _ _) in *.
      assert (Hk1 : facts k ⊆ facts k1) by (clear; subst k1; simpl; set_solver).
      assert (Hc1 : c ∈ facts k1) by (clear; subst k1; simpl; set_solver).
      assert (Hlt : (pending k1 all < pending k all)%nat).
      { by apply (pending_lt k k1 all p c q). }
      destruct (IHrs k1 true Hsub' Hp) as [Hs [(-> & -> & Hsat) | (-> & Hlt')]].
      * split; [done|]. by right.
      * split; [by etrans|]. right. split; [done | lia].
  - done.
Qed.

Lemma saturated_facts (k k' : kb) (rs : list rule) :
  Forall is_standard rs -> facts k = facts k' -> saturated k rs -> saturated k' rs.
Proof.
  intros Hstd Hf Hsat. unfold saturated in *.
  rewrite Forall_forall in *. intros r Hr He.
  apply (Hsat r Hr). specialize (Hstd r Hr).
  destruct r as [p c q|]; [|done]. simpl in *. unfold all_satisfied in *.
  by rewrite Hf.
Qed.

(** The loop stops on a fixed point whenever it is allowed at least as
    many passes as there are rules still pending. *)
Lemma fc_loop_saturates (todo : nat) (d : Z) (rs : list rule) (k k' : kb) :
  Forall is_standard rs -> (pending k rs <= todo)%nat ->
  fc_loop todo d rs k = Ok k' -> saturated k' rs.
Proof.
  intros Hstd. revert d k. induction todo as [|todo IH]; intros d k Hpend; cbn [fc_loop].
  - intros [= <-]. apply pending_zero_saturated; [done | lia].
  - destruct (pass (d + 1) rs (k, false)) as [[k1 ch1]|] eqn:Hp; [|done].
    destruct (pass_progress _ rs rs _ _ _ _ Hstd (reflexivity _) Hp)
      as [Hs [(-> & -> & Hsat) | (-> & Hlt)]].
    + by intros [= <-].
    + apply IH. lia.
Qed.

Lemma fc_loop_fixed (todo : nat) (d : Z) (rs : list rule) (k : kb) :
  saturated k rs -> fc_loop todo d rs k = Ok k.
Proof.
  intros Hsat. destruct todo as [|todo]; cbn [fc_loop]; [done|].
  by rewrite pass_saturated.
Qed.

(** *** Confidence of derived facts *)

(** The record [s] of the inference chain is justified in [k] by a rule of
    [rs]: the premises are held, the recorded confidence is the rule's
    confidence times the least premise confidence, and it is the confidence
    stored for the conclusion. *)
Definition justified (rs : list rule) (k : kb) (s : step) : Prop :=
  exists q m,
    Rule (step_premises s) (step_conclusion s) q ∈ rs /\
    Forall (fun p => p ∈ facts k) (step_premises s) /\
    step_conclusion s ∈ facts k /\
    py_min (map (conf_of k) (step_premises s)) = Some m /\
    step_confidence s = (m * q)%Q /\
    confidences k !! step_conclusion s = Some (m * q)%Q.

(** Every derived fact has a justified record in the chain. *)
Definition chain_ok (rs : list rule) (k : kb) : Prop :=
  Forall (justified rs k) (inference_chain k) /\
  (forall f, f ∈ derived_facts k ->
     exists s, s ∈ inference_chain k /\ step_conclusion s = f).

Lemma all_satisfied_Forall (k : kb) (ps : list fact) :
  all_satisfied k ps = true <-> Forall (fun p => p ∈ facts k) ps.
Proof.
  unfold all_satisfied. rewrite forallb_forall, Forall_forall.
  split; intros H p Hp.
  - apply list_elem_of_In in Hp. apply H in Hp. by apply bool_decide_eq_true in Hp.
  - apply bool_decide_eq_true. apply H. by apply list_elem_of_In.
Qed.

(** Writing the confidence of a fact that is not held leaves the
    confidence of every held fact as it was. *)
Lemma conf_of_insert_held (k : kb) (c : fact) (x : Q) F C D (ps : list fact) :
  c ∉ facts k -> Forall (fun p => p ∈ facts k) ps ->
  map (conf_of (Kb F (<[c := x]> (confidences k)) C D)) ps = map (conf_of k) ps.
Proof.
  intros Hc Hps. apply map_ext_Forall. eapply Forall_impl; [exact Hps|].
  intros p Hp. unfold conf_of. simpl. rewrite lookup_insert_ne; [done|].
  intros ->. done.
Qed.

Lemma justified_fire (rs : list rule) (k : kb) (d : Z) p c q (m : Q) (s : step) :
  c ∉ facts k -> justified rs k s ->
  justified rs (Kb ({[c]} ∪ facts k) (<[c := (m * q)%Q]> (confidences k))
                   (inference_chain k ++ [Step d p c (m * q)%Q])
                   ({[c]} ∪ derived_facts k)) s.
Proof.
  intros Hc (q' & m' & Hr & Hps & Hcs & Hmin & Hconf & Hlook).
  exists q', m'. repeat split; try done.
  - simpl. eapply Forall_impl; [exact Hps|]. set_solver.
  - simpl. set_solver.
  - by rewrite conf_of_insert_held.
  - simpl. rewrite lookup_insert_ne; [done|]. intros ->. done.
Qed.

Lemma chain_ok_pass (d : Z) (all rs : list rule) (k k' : kb) (ch ch' : bool) :
  Forall is_standard rs -> rs ⊆ all ->
  pass d rs (k, ch) = Ok (k', ch') -> chain_ok all k -> chain_ok all k'.
Proof.
  intros Hstd. revert k ch.
  induction Hstd as [|[p c q|] rs Hr _ IHrs]; intros k ch Hsub; cbn [pass].
  - by intros [= <- <-].
  - destruct (fire d (k, ch) (Rule p c q)) as [[k1 ch1]|] eqn:Hf; [|done].
    assert (Hsub' : rs ⊆ all) by set_solver.
    intros Hp Hok. apply (IHrs k1 ch1 Hsub' Hp). clear Hp.
    apply fire_cases in Hf as [[[= -> ->] Hne] | (m & Hm & Hall & Hc & [= -> ->])]; [done|].
    destruct Hok as [Hj Hd]. split; simpl.
    + apply Forall_app. split.
      * eapply Forall_impl; [exact Hj|]. intros s. by apply justified_fire.
      * apply Forall_singleton. exists q, m. simpl.
        apply all_satisfied_Forall in Hall.
        repeat split.
        -- set_solver.
        -- eapply Forall_impl; [exact Hall|]. set_solver.
        -- set_solver.
        -- by rewrite conf_of_insert_held.
        -- by rewrite lookup_insert_eq.
    + intros f Hf. apply elem_of_union in Hf as [Hf | Hf].
      * apply elem_of_singleton in Hf as ->.
        exists (Step d p c (m * q)%Q). split; [|done].
        apply elem_of_app. right. by apply list_elem_of_singleton.
      * destruct (Hd f Hf) as (s & Hs & <-). exists s. split; [|done].
        apply elem_of_app. by left.
  - done.
Qed.

Lemma chain_ok_loop (todo : nat) (d : Z) (rs : list rule) (k k' : kb) :
  Forall is_standard rs ->
  fc_loop todo d rs k = Ok k' -> chain_ok rs k -> chain_ok rs k'.
Proof.
  intros Hstd. revert d k. induction todo as [|todo IHtodo]; intros d k; cbn [fc_loop].
  - by intros [= <-].
  - destruct (pass (d + 1) rs (k, false)) as [[k1 ch1]|] eqn:Hp; [|done].
    intros Hl Hok.
    assert (Hok1 : chain_ok rs k1) by (eapply chain_ok_pass; eauto).
    destruct ch1; [by eapply IHtodo | by injection Hl as <-].
Qed.

(** The firing step itself: the confidence written for the conclusion is
    the rule's confidence times the least confidence of the premises in the
    knowledge [k] the rule fires in. *)
Lemma fire_confidence (d : Z) (k k' : kb) (ch ch' : bool) p c q :
  fire d (k, ch) (Rule p c q) = Ok (k', ch') -> c ∉ facts k -> c ∈ facts k' ->
  exists m, py_min (map (conf_of k) p) = Some m /\
    confidences k' !! c = Some (m * q)%Q.
Proof.
  intros Hf Hc Hc'.
  apply fire_cases in Hf as [[[= -> ->] _] | (m & Hm & _ & _ & [= -> ->])]; [done|].
  exists m. split; [done|]. simpl. by rewrite lookup_insert_eq.
Qed.

Lemma infer_forward (e : engine) :
  method e = "forward_chaining" ->
  infer e =
    match fc_loop (Z.to_nat (max_depth e)) 0 (rules e)
            (Kb (facts (know e)) (confidences (know e)) [] ∅) with
    | Ok k' => Ok (Engine (method e) (max_depth e) (rules e) k', elements (derived_facts k'))
    | Raise x => Raise x
    end.
Proof. intros Hm. unfold infer. rewrite Hm. reflexivity. Qed.

Lemma infer_other (e : engine) :
  method e <> "forward_chaining" ->
  infer e = Ok (Engine (method e) (max_depth e) (rules e)
                  (Kb (facts (know e)) (confidences (know e)) [] ∅), []).
Proof.
  intros Hm. unfold infer.
  destruct (String.eqb_spec (method e) "forward_chaining") as [|_]; [done|].
  by repeat destruct (String.eqb _ _).
Qed.

Lemma py_min_from_spec (cur : Q) (xs : list Q) :
  py_min_from cur xs ∈ cur :: xs /\
  Forall (fun x => (py_min_from cur xs <= x)%Q) (cur :: xs).
Proof.
  revert cur. induction xs as [|x xs IH]; intros cur; simpl.
  - split; [by left | constructor; [apply Qle_refl | constructor]].
  - destruct (IH (if Qltb x cur then x else cur)) as [Hin Hall].
    apply Forall_cons in Hall as [Hhd Hall].
    destruct (Qltb x cur) eqn:Hlt.
    + apply Qltb_lt in Hlt. split.
      * apply elem_of_cons in Hin as [-> | Hin]; [right; by left | by do 2 right].
      * constructor; [lra|]. by constructor.
    + apply Qltb_ge in Hlt. split.
      * apply elem_of_cons in Hin as [-> | Hin]; [by left | by do 2 right].
      * constructor; [done|]. constructor; [lra | done].
Qed.

(** [min(xs)] is an element of [xs], and no element of [xs] is smaller. *)
Lemma py_min_spec (xs : list Q) (m : Q) :
  py_min xs = Some m -> m ∈ xs /\ Forall (fun x => (m <= x)%Q) xs.
Proof.
  destruct xs as [|x xs]; [done|]. intros [= <-]. apply py_min_from_spec.
Qed.

(** *** Firing time *)

(** The knowledge [infer] starts from. *)
Definition start (e : engine) : kb :=
  Kb (facts (know e)) (confidences (know e)) [] ∅.

(** [k'] is reached from [k] by running the body of the rule loop on rules
    of [rs], any number of times. *)
Inductive run (rs : list rule) (k : kb) : kb -> Prop :=
| run_here : run rs k k
| run_fire (k1 k2 : kb) (d : Z) (ch ch' : bool) (r : rule) :
    run rs k k1 -> r ∈ rs -> fire d (k1, ch) r = Ok (k2, ch') -> run rs k k2.

(** Along a run over rules built by [add_rule], facts stay, held facts keep
    their confidence, and the inference chain is only extended. *)
Lemma run_keeps (rs : list rule) (k k' : kb) :
  Forall is_standard rs -> run rs k k' ->
  facts k ⊆ facts k' /\
  (forall f, f ∈ facts k -> confidences k' !! f = confidences k !! f) /\
  (forall s, s ∈ inference_chain k -> s ∈ inference_chain k').
Proof.
  intros Hstd. induction 1 as [|k1 k2 d ch ch' r _ (IH1 & IH2 & IH3) Hr Hf]; [done|].
  assert (Hs : is_standard r) by (rewrite Forall_forall in Hstd; auto).
  destruct r as [p c q|]; [|done].
  apply fire_cases in Hf as [[[= -> ->] _] | (m & _ & _ & Hc & [= -> ->])]; [done|].
  simpl. repeat split.
  - intros f Hf. apply elem_of_union_r. by apply IH1.
  - intros f Hf. rewrite lookup_insert_ne; [by apply IH2|].
    intros ->. apply Hc. by apply IH1.
  - intros s Hs'. apply elem_of_app. left. by apply IH3.
Qed.

(** The derived fact [f] was made at the knowledge [k0]: the rule
    [premises -> f] of confidence [q] fired there, [m] being the least
    confidence of its premises at that time, left the knowledge [k1] and
    the chain record [s], and the run went on from [k1] to [k]. *)
Definition fired_at (rs : list rule) (k_start k : kb) (f : fact)
    (premises : list fact) (q m : Q) (s : step) (k0 k1 : kb) : Prop :=
  Rule premises f q ∈ rs /\
  run rs k_start k0 /\
  (f ∉ facts k0) /\
  Forall (fun p => p ∈ facts k0) premises /\
  py_min (map (conf_of k0) premises) = Some m /\
  (exists ch, fire (step_depth s) (k0, ch) (Rule premises f q) = Ok (k1, true)) /\
  s = Step (step_depth s) premises f (m * q)%Q /\
  inference_chain k1 = inference_chain k0 ++ [s] /\
  confidences k1 !! f = Some (m * q)%Q /\
  run rs k1 k.

(** What a firing leaves. *)
Lemma fire_fired (d : Z) (k k1 : kb) (ch ch' : bool) premises (f : fact) (q m : Q) :
  f ∉ facts k -> Forall (fun p => p ∈ facts k) premises ->
  py_min (map (conf_of k) premises) = Some m ->
  fire d (k, ch) (Rule premises f q) = Ok (k1, ch') ->
  k1 = Kb ({[f]} ∪ facts k) (<[f := (m * q)%Q]> (confidences k))
          (inference_chain k ++ [Step d premises f (m * q)%Q])
          ({[f]} ∪ derived_facts k).
Proof.
  intros Hnew Hheld Hmin. simpl.
  rewrite (proj2 (all_satisfied_Forall k premises) Hheld).
  rewrite bool_decide_eq_false_2 by done. rewrite Hmin. by intros [= <- _].
Qed.

Lemma fired_at_loop (todo : nat) (d : Z) (rs : list rule) (k_start k k' : kb) :
  Forall is_standard rs ->
  run rs k_start k ->
  (forall f, f ∈ derived_facts k ->
     exists premises q m s k0 k1, fired_at rs k_start k f premises q m s k0 k1) ->
  fc_loop todo d rs k = Ok k' ->
  run rs k_start k' /\
  (forall f, f ∈ derived_facts k' ->
     exists premises q m s k0 k1, fired_at rs k_start k' f premises q m s k0 k1).
Proof.
  intros Hstd.
  assert (Hfire : forall d k ch r k' ch', r ∈ rs ->
    (run rs k_start k /\
     forall f, f ∈ derived_facts k ->
       exists premises q m s k0 k1, fired_at rs k_start k f premises q m s k0 k1) ->
    fire d (k, ch) r = Ok (k', ch') ->
    run rs k_start k' /\
    forall f, f ∈ derived_facts k' ->
      exists premises q m s k0 k1, fired_at rs k_start k' f premises q m s k0 k1).
  { clear d k k'. intros d k ch r k' ch' Hr [Hrun Hder] Hf.
    assert (Hrun' : run rs k_start k') by (by apply (run_fire rs k_start k k' d ch ch' r)).
    split; [done|].
    assert (Hs : is_standard r) by (rewrite Forall_forall in Hstd; auto).
    destruct r as [p c q|]; [|done].
    destruct (fire_cases d k ch p c q (k', ch') Hf)
      as [[[= -> ->] _] | (m & Hmin & Hsat & Hc & Heq)]; [done|].
    injection Heq as Hk' ->.
    intros f Hfd. rewrite Hk' in Hfd. simpl in Hfd.
    apply elem_of_union in Hfd as [->%elem_of_singleton | Hfd].
    - exists p, q, m, (Step d p c (m * q)%Q), k, k'.
      split; [done|]. split; [done|]. split; [done|].
      split; [by apply all_satisfied_Forall|]. split; [done|].
      split; [by exists ch|]. split; [done|].
      split; [by rewrite Hk'|].
      split; [rewrite Hk'; simpl; by rewrite lookup_insert_eq|].
      apply run_here.
    - destruct (Hder f Hfd)
        as (p' & q' & m' & s & k0 & k1 & H1 & H2 & H3 & H4 & H5 & H6 & H7 & H8 & H9 & H10).
      exists p', q', m', s, k0, k1. repeat split; try done.
      by apply (run_fire rs k1 k k' d ch true (Rule p c q)). }
  assert (Hpass : forall d rs' k ch k' ch', rs' ⊆ rs ->
    (run rs k_start k /\
     forall f, f ∈ derived_facts k ->
       exists premises q m s k0 k1, fired_at rs k_start k f premises q m s k0 k1) ->
    pass d rs' (k, ch) = Ok (k', ch') ->
    run rs k_start k' /\
    forall f, f ∈ derived_facts k' ->
      exists premises q m s k0 k1, fired_at rs k_start k' f premises q m s k0 k1).
  { clear d k k'. intros d rs'. induction rs' as [|r rs' IH]; intros k ch k' ch' Hsub Hk;
      cbn [pass].
    - by intros [= <- <-].
    - destruct (fire d (k, ch) r) as [[k1 ch1]|] eqn:Hf; [|done].
      intros Hp. apply (IH k1 ch1 k' ch'); [by intros x Hx; apply Hsub; right | | done].
      apply (Hfire d k ch r k1 ch1); [apply Hsub; by left | done | done]. }
  revert d k. induction todo as [|todo IH]; intros d k Hrun Hder; cbn [fc_loop].
  - by intros [= <-].
  - destruct (pass (d + 1) rs (k, false)) as [[k1 ch1]|] eqn:Hp; [|done].
    destruct (Hpass (d + 1) rs k false k1 ch1) as [Hrun1 Hder1]; [done | done | done |].
    destruct ch1; [by apply IH | by intros [= <-]].
Qed.

(** C6, amended (rules built by [add_rule]).  After a run of [infer] over
    rules built by [add_rule], every derived fact [f] was made by the
    firing of a rule [premises -> f] of the rule list, of confidence [q]
    ([fired_at]): at the knowledge [k0] that the run had reached, [f] was
    not held and the premises were; the firing wrote for [f], in the
    knowledge and in the chain record [s], the confidence [m * q], where
    [m] is the least confidence of the premises at that time — the
    confidence of one of them, and no premise had a smaller one.  The rest
    of the run kept the record, the confidence of [f] and those of the
    premises, so the same holds of the confidences read after the run.
    Hence the confidence of [f] does not exceed that product, nor, for a
    rule confidence that is not negative, the product of [q] and the
    confidence of any premise. *)
Theorem derived_confidence (e e' : engine) (out : list fact) (f : fact) :
  Forall is_standard (rules e) ->
  infer e = Ok (e', out) ->
  f ∈ out ->
  exists premises q m s k0 k1,
    fired_at (rules e) (start e) (know e') f premises q m s k0 k1 /\
    (exists p, p ∈ premises /\ m = conf_of k0 p) /\
    (forall p, p ∈ premises -> (m <= conf_of k0 p)%Q) /\
    (forall p, p ∈ premises -> conf_of (know e') p = conf_of k0 p) /\
    s ∈ inference_chain (know e') /\
    step_premises s = premises /\ step_conclusion s = f /\
    step_confidence s = (m * q)%Q /\
    Forall (fun p => p ∈ facts (know e')) premises /\
    py_min (map (conf_of (know e')) premises) = Some m /\
    confidences (know e') !! f = Some (m * q)%Q /\
    (conf_of (know e') f <= m * q)%Q /\
    ((0 <= q)%Q -> forall p, p ∈ premises ->
       (conf_of (know e') f <= conf_of (know e') p * q)%Q).
Proof.
  intros Hstd Hinf Hf.
  destruct (decide (method e = "forward_chaining")) as [Hm | Hm].
  2:{ rewrite (infer_other e Hm) in Hinf. injection Hinf as <- <-.
      by apply not_elem_of_nil in Hf. }
  rewrite (infer_forward e Hm) in Hinf.
  destruct (fc_loop _ _ _ _) as [k'|] eqn:Hl; [|done].
  injection Hinf as <- <-. simpl.
  apply elem_of_elements in Hf.
  assert (Hnone : forall g, g ∈ derived_facts (start e) ->
            exists premises q m s k0 k1,
              fired_at (rules e) (start e) (start e) g premises q m s k0 k1).
  { by intros g ?%elem_of_empty. }
  destruct (fired_at_loop (Z.to_nat (max_depth e)) 0 (rules e) (start e) (start e) k'
              Hstd (run_here _ _) Hnone Hl) as [_ Hder].
  destruct (Hder f Hf) as (premises & q & m & s & k0 & k1 & Hfired).
  pose proof Hfired as (Hr & Hrun0 & Hnew & Hheld & Hmin & [ch Hfire] & Hs & Hchain & Hlook & Hrun1).
  destruct (run_keeps _ _ _ Hstd Hrun1) as (Hsub1 & Hconf1 & Hch1).
  pose proof (fire_fired _ _ _ _ _ _ _ _ _ Hnew Hheld Hmin Hfire) as Hk1.
  assert (Hsub0 : facts k0 ⊆ facts k1).
  { rewrite Hk1. simpl. intros p Hp. by apply elem_of_union_r. }
  assert (Hconf0 : forall p, p ∈ facts k0 -> confidences k1 !! p = confidences k0 !! p).
  { intros p Hp. rewrite Hk1. simpl. rewrite lookup_insert_ne; [done|]. by intros ->. }
  rewrite Forall_forall in Hheld.
  assert (Hsame : forall p, p ∈ premises -> conf_of k' p = conf_of k0 p).
  { intros p Hp. unfold conf_of.
    rewrite Hconf1 by (apply Hsub0; by apply Hheld).
    by rewrite Hconf0 by (by apply Hheld). }
  assert (Hmap : map (conf_of k') premises = map (conf_of k0) premises).
  { apply map_ext_in. intros p Hp. apply Hsame. by apply list_elem_of_In. }
  pose proof Hmin as Hmin'.
  apply py_min_spec in Hmin' as [Hmem Hleast].
  apply list_elem_of_fmap in Hmem as (p0 & Hp0 & Hin0).
  assert (Hle : forall p, p ∈ premises -> (m <= conf_of k0 p)%Q).
  { intros p Hp. rewrite Forall_forall in Hleast. apply Hleast.
    apply list_elem_of_fmap. by exists p. }
  assert (Hfk1 : f ∈ facts k1).
  { rewrite Hk1. simpl. apply elem_of_union_l. by apply elem_of_singleton. }
  assert (Hlook' : confidences k' !! f = Some (m * q)%Q).
  { by rewrite Hconf1. }
  assert (Hcf : conf_of k' f = (m * q)%Q).
  { unfold conf_of. by rewrite Hlook'. }
  exists premises, q, m, s, k0, k1.
  split; [done|]. split; [by exists p0|]. split; [done|]. split; [done|].
  split. { apply Hch1. rewrite Hchain. apply elem_of_app. right. by apply list_elem_of_singleton. }
  split; [by rewrite Hs|]. split; [by rewrite Hs|]. split; [by rewrite Hs|].
  split. { apply Forall_forall. intros p Hp. apply Hsub1, Hsub0. by apply Hheld. }
  split; [by rewrite Hmap|]. split; [done|].
  split; [rewrite Hcf; apply Qle_refl|].
  intros Hq p Hp. rewrite Hcf, (Hsame p Hp). apply Qmult_le_compat_r; [by apply Hle | done].
Qed.

Definition derived_confidence_engine : engine :=
  add_rule [("sky", "blue"); ("sun", "up")] ("weather", "clear") (9 # 10)
    (add_fact "sun" "up" (1 # 2)
       (add_fact "sky" "blue" (4 # 5) (init "forward_chaining" 10))).

(** The engine left by a call of [infer], and the list it returns. *)
Definition after_infer (e : engine) : engine :=
  match infer e with Ok (e', _) => e' | Raise _ => e end.

Definition infer_output (e : engine) : list fact :=
  match infer e with Ok (_, out) => out | Raise _ => [] end.

Lemma derived_confidence_witness :
  exists premises q m,
    Rule premises ("weather", "clear") q ∈ rules derived_confidence_engine /\
    py_min (map (conf_of (know (after_infer derived_confidence_engine))) premises)
      = Some m /\
    confidences (know (after_infer derived_confidence_engine)) !! ("weather", "clear")
      = Some (m * q)%Q.
Proof.
  assert (Hinf : infer derived_confidence_engine =
            Ok (after_infer derived_confidence_engine,
                infer_output derived_confidence_engine)).
  { vm_compute. reflexivity. }
  assert (Hin : ("weather", "clear") ∈ infer_output derived_confidence_engine).
  { vm_compute. apply list_elem_of_singleton. reflexivity. }
  assert (Hstd : Forall is_standard (rules derived_confidence_engine)).
  { repeat constructor. }
  destruct (derived_confidence _ _ _ _ Hstd Hinf Hin)
    as (premises & q & m & s & k0 & k1 & Hfired & _ & _ & _ & _ & _ & _ & _ & _ & H2 & H3 & _).
  exists premises, q, m. split; [exact (proj1 Hfired) | split; [exact H2 | exact H3]].
Defined.

(** The same engine with a rule added by [add_custom_rule], whose action
    calls [add_fact('weather', 'clear', 1.0)] once that fact is held with
    another confidence. *)
Definition override_engine : engine :=
  add_custom_rule "certain"
    (fun k => bool_decide (("weather", "clear") ∈ facts k) &&
              negb (Qeq_bool (conf_of k ("weather", "clear")) 1))
    (fun k => know (add_fact "weather" "clear" 1 (Engine "forward_chaining" 10 [] k)))
    derived_confidence_engine.

(** Counterexample to C6 as stated, for every run: the fact derived by
    the rule of confidence 9/10 from premises of confidences 4/5 and 1/2 is
    returned as derived, and its confidence after the run is 1, not
    9/10 * 1/2. *)
Lemma derived_confidence_overridden :
  is_ok (infer override_engine) /\
  Rule [("sky", "blue"); ("sun", "up")] ("weather", "clear") (9 # 10)
    ∈ rules override_engine /\
  infer_output override_engine = [("weather", "clear")] /\
  py_min (map (conf_of (know (after_infer override_engine)))
            [("sky", "blue"); ("sun", "up")]) = Some (1 # 2) /\
  confidences (know (after_infer override_engine)) !! ("weather", "clear") = Some 1%Q /\
  ((9 # 10) * (1 # 2) < 1)%Q.
Proof.
  split; [vm_compute; exact I|].
  split; [apply list_elem_of_here|].
  split; [vm_compute; reflexivity|].
  split; [vm_compute; reflexivity|].
  split; [vm_compute; reflexivity|].
  reflexivity.
Qed.

(** The first scenario of the specification. *)
Example sky_weather :
  let e := add_rule [("sky", "blue")] ("weather", "clear") (9 # 10)
             (add_fact "sky" "blue" 1 (init "forward_chaining" 10)) in
  infer_output e = [("weather", "clear")] /\
  confidences (know (after_infer e)) !! ("weather", "clear") = Some (1 * (9 # 10))%Q /\
  infer_output (after_infer e) = [].
Proof. vm_compute. repeat split; reflexivity. Qed.

(** *** Running [infer] twice *)

(** The list returned by the second of two successive calls of [infer]. *)
Definition second_infer (e : engine) : result (list fact) :=
  match infer e with
  | Ok (e1, _) =>
      match infer e1 with
      | Ok (_, out2) => Ok out2
      | Raise x => Raise x
      end
  | Raise x => Raise x
  end.

(** A chain of eleven rules [stage i -> stage (i+1)], added last link
    first, in an engine with the default depth bound of 10. *)
Definition stages : list string :=
  ["0"; "1"; "2"; "3"; "4"; "5"; "6"; "7"; "8"; "9"; "10"; "11"].

Fixpoint add_links (names : list string) (e : engine) : engine :=
  match names with
  | a :: (b :: _) as rest =>
      add_rule [("stage", a)] ("stage", b) 1 (add_links rest e)
  | _ => e
  end.

Definition chain_engine : engine :=
  add_links stages (add_fact "stage" "0" 1 (init "forward_chaining" 10)).

(** Counterexample to C2 as stated: each pass derives one more stage, the
    first call stops at the depth bound after ten passes, and the second
    call still derives the last stage. *)
Lemma infer_twice_not_empty :
  Forall is_standard (rules chain_engine) /\
  second_infer chain_engine = Ok [("stage", "11")].
Proof. split; [repeat constructor | vm_compute; reflexivity]. Qed.

(** C2, amended.  When the rules were all built by [add_rule] and the
    depth bound is at least their number, a call of [infer] that returns
    leaves a fixed point behind: the next call returns the empty list and
    keeps facts and confidences as they are. *)
Theorem infer_twice_empty (e e1 : engine) (out1 : list fact) :
  Forall is_standard (rules e) ->
  Z.of_nat (length (rules e)) <= max_depth e ->
  infer e = Ok (e1, out1) ->
  infer e1 =
    Ok (Engine (method e1) (max_depth e1) (rules e1)
          (Kb (facts (know e1)) (confidences (know e1)) [] ∅), []).
Proof.
  intros Hstd Hlen Hinf.
  destruct (decide (method e = "forward_chaining")) as [Hm | Hm].
  2:{ rewrite (infer_other e Hm) in Hinf. injection Hinf as <- _.
      by rewrite infer_other. }
  rewrite (infer_forward e Hm) in Hinf.
  destruct (fc_loop _ _ _ _) as [k'|] eqn:Hl; [|done].
  injection Hinf as <- _.
  rewrite infer_forward by done. simpl.
  assert (Hsat : saturated k' (rules e)).
  { eapply fc_loop_saturates; [exact Hstd | | exact Hl].
    pose proof (pending_le_length (Kb (facts (know e)) (confidences (know e)) [] ∅) (rules e)).
    lia. }
  rewrite fc_loop_fixed; [simpl; by rewrite elements_empty|].
  by apply (saturated_facts k').
Qed.

Lemma infer_twice_empty_witness :
  infer (after_infer derived_confidence_engine) =
    Ok (Engine "forward_chaining" 10 (rules derived_confidence_engine)
          (Kb (facts (know (after_infer derived_confidence_engine)))
              (confidences (know (after_infer derived_confidence_engine))) [] ∅), []).
Proof.
  assert (Hinf : infer derived_confidence_engine =
            Ok (after_infer derived_confidence_engine,
                infer_output derived_confidence_engine)).
  { vm_compute. reflexivity. }
  assert (Hstd : Forall is_standard (rules derived_confidence_engine)).
  { repeat constructor. }
  assert (Hlen : Z.of_nat (length (rules derived_confidence_engine))
                 <= max_depth derived_confidence_engine).
  { vm_compute. discriminate. }
  exact (infer_twice_empty _ _ _ Hstd Hlen Hinf).
Defined.

(** [infer] returns when no rule has an empty premise list: [min] is then
    never applied to an empty list. *)
Definition has_premises (r : rule) : Prop :=
  match r with Rule (_ :: _) _ _ => True | _ => False end.

Lemma fire_total (d : Z) (st : kb * bool) (r : rule) :
  has_premises r -> is_ok (fire d st r).
Proof.
  destruct st as [k ch], r as [[|p ps] c q|]; simpl; try done.
  intros _. destruct (bool_decide _ && _); [|done]. by case_bool_decide.
Qed.

Lemma pass_total (d : Z) (rs : list rule) (st : kb * bool) :
  Forall has_premises rs -> is_ok (pass d rs st).
Proof.
  intros H. revert st. induction H as [|r rs Hr _ IHrs]; intros st; cbn [pass]; [done|].
  pose proof (fire_total d st r Hr) as Hf.
  destruct (fire d st r); [apply IHrs | done].
Qed.

Lemma fc_loop_total (todo : nat) (d : Z) (rs : list rule) (k : kb) :
  Forall has_premises rs -> is_ok (fc_loop todo d rs k).
Proof.
  intros H. revert d k. induction todo as [|todo IHtodo]; intros d k; cbn [fc_loop]; [done|].
  pose proof (pass_total (d + 1) rs (k, false) H) as Hp.
  destruct (pass _ _ _) as [[k1 [|]]|]; [apply IHtodo | done | done].
Qed.

Lemma infer_total (e : engine) :
  Forall has_premises (rules e) -> is_ok (infer e).
Proof.
  intros H. destruct (decide (method e = "forward_chaining")) as [Hm | Hm].
  - rewrite infer_forward by done.
    pose proof (fc_loop_total (Z.to_nat (max_depth e)) 0 (rules e)
                  (Kb (facts (know e)) (confidences (know e)) [] ∅) H) as Hl.
    by destruct (fc_loop _ _ _ _).
  - by rewrite infer_other.
Qed.

End ReasoningSpec.

(** * Properties of [heapq] *)

Module HeapqSpec.
Import Heapq.
Local Open Scope nat_scope.

Lemma div2_spec (n : nat) : (2 * (n / 2) <= n < 2 * (n / 2) + 2).
Proof.
  pose proof (Nat.div_mod_eq n 2). pose proof (Nat.mod_upper_bound n 2). lia.
Qed.

Lemma parent_lt (i : nat) : (0 < i) -> ((i - 1) / 2 < i).
Proof. intros. pose proof (div2_spec (i - 1)). lia. Qed.

Lemma parent_child (c p : nat) :
  (0 < c) -> (c - 1) / 2 = p <-> c = (2 * p + 1) \/ c = (2 * p + 2).
Proof. intros. pose proof (div2_spec (c - 1)). lia. Qed.

Section HeapqSpec.
Context {A : Type} (lt : A -> A -> result bool) (f : A -> Z).

(** The comparison agrees with the integer score [f] whenever it answers. *)
Hypothesis lt_true : forall a b, lt a b = Ok true -> (f a <= f b)%Z.
Hypothesis lt_false : forall a b, lt a b = Ok false -> (f b <= f a)%Z.

(** The item at [i], if any, scores no more than the item at [j], if any. *)
Definition fle (heap : list A) (i j : nat) : Prop :=
  forall x y, heap !! i = Some x -> heap !! j = Some y -> (f x <= f y)%Z.

(** The heap invariant of [heapq]: [heap[(i-1)/2] <= heap[i]]. *)
Definition heap_ok (heap : list A) : Prop :=
  forall i, (0 < i) -> fle heap ((i - 1) / 2) i.

(** Invariant of [siftdown]: only the item at [pos] may be smaller than
    its parent, and the children of [pos] are not smaller than that
    parent. *)
Definition up_inv (heap : list A) (pos : nat) : Prop :=
  (forall i, (0 < i) -> i <> pos -> fle heap ((i - 1) / 2) i) /\
  (forall c, (0 < pos) -> (0 < c) -> (c - 1) / 2 = pos ->
     fle heap ((pos - 1) / 2) c).

(** Invariant of the first loop of [siftup]: the item at [pos] is
    arbitrary. *)
Definition down_inv (heap : list A) (pos : nat) : Prop :=
  (forall i, (0 < i) -> i <> pos -> (i - 1) / 2 <> pos -> fle heap ((i - 1) / 2) i) /\
  (forall c, (0 < pos) -> (0 < c) -> (c - 1) / 2 = pos ->
     fle heap ((pos - 1) / 2) c).

Lemma swap_lookup (heap : list A) (i j k : nat) a b :
  heap !! i = Some a -> heap !! j = Some b ->
  swap heap i j !! k =
    if decide (k = i) then Some b else if decide (k = j) then Some a else heap !! k.
Proof.
  intros Hi Hj. unfold swap. rewrite Hi, Hj.
  pose proof (lookup_lt_Some _ _ _ Hi). pose proof (lookup_lt_Some _ _ _ Hj).
  destruct (decide (k = i)) as [->|Hki].
  - rewrite list_lookup_insert_eq; [done | by rewrite length_insert].
  - rewrite list_lookup_insert_ne by done.
    destruct (decide (k = j)) as [->|Hkj].
    + by rewrite list_lookup_insert_eq.
    + by rewrite list_lookup_insert_ne.
Qed.

Lemma swap_length (heap : list A) (i j : nat) : length (swap heap i j) = length heap.
Proof.
  unfold swap. destruct (heap !! i), (heap !! j); try done.
  by rewrite !length_insert.
Qed.

Lemma swap_Permutation (heap : list A) (i j : nat) : swap heap i j ≡ₚ heap.
Proof.
  unfold swap. destruct (heap !! i) eqn:Hi, (heap !! j) eqn:Hj; try done.
  by apply Permutation_insert_swap.
Qed.

(** In a heap the first item has the least score. *)
Lemma heap_ok_min (heap : list A) (x0 x : A) :
  heap_ok heap -> heap !! 0 = Some x0 -> x ∈ heap -> (f x0 <= f x)%Z.
Proof.
  intros Hok H0 [i Hi]%list_elem_of_lookup. revert x Hi.
  induction (lt_wf i) as [i _ IH]. intros x Hi.
  destruct (decide (i = 0)) as [->|Hne]; [by simplify_eq|].
  assert (Hpos : (0 < i)) by lia.
  pose proof (parent_lt i Hpos) as Hlt.
  destruct (lookup_lt_is_Some_2 heap ((i - 1) / 2)) as [y Hy].
  { apply lookup_lt_Some in Hi. lia. }
  specialize (IH _ Hlt y Hy). pose proof (Hok i Hpos y x Hy Hi). lia.
Qed.

(** One turn of [siftdown] keeps its invariant. *)
Lemma up_inv_swap (heap : list A) (pos : nat) (x y : A) :
  up_inv heap pos -> 0 < pos ->
  heap !! pos = Some x -> heap !! ((pos - 1) / 2) = Some y ->
  (f x <= f y)%Z ->
  up_inv (swap heap pos ((pos - 1) / 2)) ((pos - 1) / 2).
Proof.
  intros [Ha Hb] Hpos Hx Hy Hxy.
  pose proof (parent_lt pos Hpos) as Hpp.
  set (pp := (pos - 1) / 2) in *.
  split.
  - intros i Hi Hne u v Hu Hv.
    rewrite (swap_lookup _ _ _ _ _ _ Hx Hy) in Hu.
    rewrite (swap_lookup _ _ _ _ _ _ Hx Hy) in Hv.
    pose proof (parent_lt i Hi) as Hpi.
    destruct (decide (i = pos)) as [->|Hip].
    + fold pp in Hu. rewrite decide_False in Hu by lia.
      rewrite decide_True in Hu by done. by simplify_eq.
    + rewrite decide_False in Hv by done.
      destruct (decide ((i - 1) / 2 = pos)) as [Hq|Hq].
      * injection Hu as <-. exact (Hb i Hpos Hi Hq _ _ Hy Hv).
      * destruct (decide ((i - 1) / 2 = pp)) as [Hq'|Hq'].
        -- injection Hu as <-. rewrite Hq' in *.
           pose proof (Ha i Hi Hip y v) as H1. rewrite Hq' in H1.
           specialize (H1 Hy Hv). lia.
        -- exact (Ha i Hi Hip _ _ Hu Hv).
  - intros c Hpp0 Hc Hpc u v Hu Hv.
    rewrite (swap_lookup _ _ _ _ _ _ Hx Hy) in Hu.
    rewrite (swap_lookup _ _ _ _ _ _ Hx Hy) in Hv.
    pose proof (parent_lt pp Hpp0) as Hg.
    pose proof (parent_lt c Hc) as Hcc.
    rewrite decide_False in Hu by lia. rewrite decide_False in Hu by lia.
    assert (Hyu : (f u <= f y)%Z).
    { apply (Ha pp Hpp0); [lia | done | done]. }
    destruct (decide (c = pos)) as [->|Hcp].
    + by simplify_eq.
    + rewrite decide_False in Hv by lia.
      pose proof (Ha c Hc Hcp y v) as H1. rewrite Hpc in H1.
      specialize (H1 Hy Hv). lia.
Qed.

(** [siftdown] from position [pos] of a list that is a heap but for the
    item at [pos] yields a heap with the same items. *)
Lemma siftdown_spec (fuel : nat) (heap heap' : list A) (pos : nat) :
  pos <= fuel -> pos < length heap -> up_inv heap pos ->
  siftdown lt fuel heap 0 pos = Ok heap' ->
  heap_ok heap' /\ heap' ≡ₚ heap.
Proof.
  revert heap pos.
  induction fuel as [|fuel IH]; intros heap pos Hfuel Hlen Hinv; cbn [siftdown].
  - intros [= <-]. split; [|done]. intros i Hi. apply Hinv; lia.
  - destruct (Nat.leb_spec pos 0) as [Hp0|Hp0].
    { intros [= <-]. split; [|done]. intros i Hi. apply Hinv; lia. }
    pose proof (parent_lt pos Hp0) as Hpp.
    destruct (lookup_lt_is_Some_2 heap pos Hlen) as [x Hx].
    destruct (lookup_lt_is_Some_2 heap ((pos - 1) / 2)) as [y Hy]; [lia|].
    rewrite Hx, Hy.
    destruct (lt x y) as [[|]|] eqn:Hlt; [| |done].
    + intros Hs. apply IH in Hs as [Hok Hperm].
      * split; [done|]. by rewrite Hperm, swap_Permutation.
      * lia.
      * rewrite swap_length. lia.
      * apply (up_inv_swap heap pos x y); auto.
    + intros [= <-]. split; [|done]. intros i Hi.
      destruct (decide (i = pos)) as [->|Hne]; [|by apply Hinv].
      intros u v Hu Hv. simplify_eq. by apply lt_false.
Qed.

(** With enough fuel, [siftdown] does not depend on it. *)
Lemma siftdown_fuel (fuel : nat) (heap : list A) (pos : nat) :
  pos <= fuel -> siftdown lt fuel heap 0 pos = siftdown lt pos heap 0 pos.
Proof.
  revert fuel heap. induction (lt_wf pos) as [pos _ IH]. intros fuel heap Hfuel.
  destruct pos as [|pos'].
  { destruct fuel; reflexivity. }
  destruct fuel as [|fuel]; [lia|].
  cbn [siftdown].
  destruct (Nat.leb_spec (S pos') 0) as [?|_]; [lia|].
  pose proof (parent_lt (S pos')) as Hpp.
  destruct (heap !! S pos'), (heap !! ((S pos' - 1) / 2)); try done.
  destruct (lt a a0) as [[|]|]; try done.
  rewrite (IH ((S pos' - 1) / 2)) by lia.
  symmetry. apply IH; lia.
Qed.

(** [heappush] keeps the heap invariant and adds the item. *)
Lemma heappush_spec (heap heap' : list A) (item : A) :
  heap_ok heap -> heappush lt heap item = Ok heap' ->
  heap_ok heap' /\ heap' ≡ₚ item :: heap.
Proof.
  intros Hok Hpush. unfold heappush in Hpush.
  apply siftdown_spec in Hpush as [Hok' Hperm].
  - split; [done|]. rewrite Hperm. by rewrite Permutation_app_comm.
  - done.
  - rewrite length_app. simpl. lia.
  - split.
    + intros i Hi Hne u v Hu Hv.
      pose proof (parent_lt i Hi).
      assert (i < length heap).
      { apply lookup_lt_Some in Hv. rewrite length_app in Hv. simpl in Hv. lia. }
      rewrite lookup_app_l in Hu, Hv by lia. by apply (Hok i Hi).
    + intros c Hpos Hc Hpc u v Hu Hv.
      apply lookup_lt_Some in Hv. rewrite length_app in Hv. simpl in Hv.
      apply parent_child in Hpc; lia.
Qed.

(** One turn of the first loop of [siftup] keeps its invariant, when the
    child moved up is the smaller one. *)
Lemma down_inv_swap (heap : list A) (pos c : nat) (x y : A) :
  down_inv heap pos -> (c - 1) / 2 = pos -> 0 < c ->
  heap !! pos = Some x -> heap !! c = Some y ->
  (forall s z, 0 < s -> (s - 1) / 2 = pos -> s <> c -> heap !! s = Some z -> (f y <= f z)%Z) ->
  down_inv (swap heap pos c) c.
Proof.
  intros [Ha Hb] Hpc Hc Hx Hy Hsmall.
  pose proof (parent_lt c Hc) as Hlt.
  split.
  - intros i Hi Hne Hnp u v Hu Hv.
    rewrite (swap_lookup _ _ _ _ _ _ Hx Hy) in Hu.
    rewrite (swap_lookup _ _ _ _ _ _ Hx Hy) in Hv.
    pose proof (parent_lt i Hi) as Hpi.
    destruct (decide (i = pos)) as [->|Hip].
    + injection Hv as <-.
      rewrite decide_False in Hu by lia. rewrite decide_False in Hu by lia.
      exact (Hb c Hi Hc Hpc _ _ Hu Hy).
    + rewrite decide_False in Hv by done.
      destruct (decide ((i - 1) / 2 = pos)) as [Hq|Hq].
      * injection Hu as <-. by apply (Hsmall i).
      * rewrite decide_False in Hu by done.
        exact (Ha i Hi Hip Hq _ _ Hu Hv).
  - intros d _ Hd Hpd u v Hu Hv.
    rewrite (swap_lookup _ _ _ _ _ _ Hx Hy) in Hu.
    rewrite (swap_lookup _ _ _ _ _ _ Hx Hy) in Hv.
    pose proof (parent_lt d Hd) as Hld.
    rewrite Hpc in Hu. rewrite decide_True in Hu by done. injection Hu as <-.
    rewrite decide_False in Hv by lia. rewrite decide_False in Hv by lia.
    apply (Ha d Hd); [lia | lia | by rewrite Hpd | done].
Qed.

(** The first loop of [siftup] ends on a leaf, with the invariant kept and
    the same items. *)
Lemma siftup_loop_spec (fuel : nat) (heap heap' : list A) (pos pos' : nat) :
  length heap / 2 <= pos + fuel -> pos < length heap -> down_inv heap pos ->
  siftup_loop lt fuel heap pos = Ok (heap', pos') ->
  down_inv heap' pos' /\ heap' ≡ₚ heap /\
  length heap / 2 <= pos' /\ pos' < length heap.
Proof.
  revert heap pos.
  induction fuel as [|fuel IH]; intros heap pos Hfuel Hlen Hinv; cbn [siftup_loop].
  - intros [= <- <-]. repeat split; [apply Hinv.. | done | lia | done].
  - destruct (Nat.leb_spec (length heap / 2) pos) as [Hlim|Hlim].
    { intros [= <- <-]. repeat split; [apply Hinv.. | done | lia | done]. }
    pose proof (div2_spec (length heap)) as Hdiv.
    destruct (lookup_lt_is_Some_2 heap pos Hlen) as [x Hx].
    destruct (lookup_lt_is_Some_2 heap (2 * pos + 1)) as [a Ha]; [lia|].
    assert (Hstep : forall c y, (c - 1) / 2 = pos -> 0 < c -> heap !! c = Some y ->
      (forall s z, 0 < s -> (s - 1) / 2 = pos -> s <> c -> heap !! s = Some z -> (f y <= f z)%Z) ->
      siftup_loop lt fuel (swap heap pos c) c = Ok (heap', pos') ->
      down_inv heap' pos' /\ heap' ≡ₚ heap /\ length heap / 2 <= pos' /\ pos' < length heap).
    { intros c y Hpc Hc Hy Hsmall Hs.
      pose proof (lookup_lt_Some _ _ _ Hy) as Hclen.
      apply parent_child in Hpc as Hc'; [|done].
      apply IH in Hs as (Hd & Hperm & Hl1 & Hl2).
      - rewrite swap_length in Hl1, Hl2.
        repeat split; [apply Hd.. | | done | done].
        by rewrite Hperm, swap_Permutation.
      - rewrite swap_length. lia.
      - by rewrite swap_length.
      - by apply (down_inv_swap heap pos c x y). }
    destruct (Nat.ltb_spec (2 * pos + 1 + 1) (length heap)) as [Hr|Hr].
    + destruct (lookup_lt_is_Some_2 heap (2 * pos + 1 + 1) Hr) as [b Hb].
      rewrite Ha, Hb.
      destruct (lt a b) as [[|]|] eqn:Hlt; [| |done].
      * apply (Hstep (2 * pos + 1) a); [apply parent_child; lia | lia | done |].
        intros s z Hs Hps Hne Hz. apply parent_child in Hps; [|done].
        assert (s = 2 * pos + 1 + 1) as -> by lia.
        simplify_eq. by apply lt_true.
      * apply (Hstep (2 * pos + 1 + 1) b); [apply parent_child; lia | lia | done |].
        intros s z Hs Hps Hne Hz. apply parent_child in Hps; [|done].
        assert (s = 2 * pos + 1) as -> by lia.
        simplify_eq. by apply lt_false.
    + apply (Hstep (2 * pos + 1) a); [apply parent_child; lia | lia | done |].
      intros s z Hs Hps Hne Hz. apply parent_child in Hps; [|done].
      apply lookup_lt_Some in Hz. lia.
Qed.

(** [siftup] from the root of a list that is a heap but for its first item
    yields a heap with the same items. *)
Lemma siftup_spec (heap heap' : list A) :
  0 < length heap -> down_inv heap 0 -> siftup lt heap 0 = Ok heap' ->
  heap_ok heap' /\ heap' ≡ₚ heap.
Proof.
  intros Hlen Hinv. unfold siftup.
  destruct (siftup_loop lt (length heap) heap 0) as [[heap1 pos1]|] eqn:Hloop; [|done].
  apply siftup_loop_spec in Hloop as (Hd & Hperm & Hl1 & Hl2); [| | done | done].
  2:{ pose proof (div2_spec (length heap)). lia. }
  intros Hs. apply siftdown_spec in Hs as [Hok Hperm'].
  - split; [done|]. by rewrite Hperm'.
  - done.
  - by rewrite Hperm.
  - destruct Hd as [Ha Hb]. split; [|done].
    intros i Hi Hne. destruct (decide ((i - 1) / 2 = pos1)) as [Hq|Hq]; [|by apply Ha].
    intros u v _ Hv. apply lookup_lt_Some in Hv. rewrite Hperm in Hv.
    apply parent_child in Hq; [|done].
    pose proof (div2_spec (length heap)). lia.
Qed.

(** [heappop] returns an item of least score and leaves a heap of the
    other items. *)
Lemma heappop_spec (heap heap' : list A) (x : A) :
  heap_ok heap -> heappop lt heap = Ok (x, heap') ->
  heap_ok heap' /\ heap ≡ₚ x :: heap' /\ (forall y, y ∈ heap -> (f x <= f y)%Z).
Proof.
  intros Hok. unfold heappop.
  destruct (last heap) as [lastelt|] eqn:Hlast; [|done].
  apply last_Some in Hlast as [body ->].
  rewrite removelast_last.
  destruct body as [|r rest].
  - intros [= <- <-]. split; [|split].
    + intros i Hi u v _ Hv. by destruct i.
    + done.
    + intros y ->%list_elem_of_singleton. lia.
  - destruct (siftup lt (lastelt :: rest) 0) as [heap1|] eqn:Hs; [|done].
    intros [= <- <-].
    apply siftup_spec in Hs as [Hok' Hperm]; [| simpl; lia |].
    + split; [done | split].
      * rewrite Hperm. simpl. apply Permutation_skip.
        apply (Permutation_app_comm rest [lastelt]).
      * intros y Hy. by apply (heap_ok_min _ r y Hok).
    + split; [|intros; lia].
      intros i Hi _ Hq u v Hu Hv.
      pose proof (parent_lt i Hi) as Hpi.
      destruct i as [|i']; [lia|].
      destruct ((S i' - 1) / 2) as [|q'] eqn:Eq; [done|].
      simpl in Hu, Hv.
      apply (Hok (S i') Hi); rewrite ?Eq; simpl.
      * by apply lookup_app_l_Some.
      * by apply lookup_app_l_Some.
Qed.

End HeapqSpec.
End HeapqSpec.

(** * Properties of the planner *)

Module PlannerSpec.
Import Planner.

(** *** No state is expanded twice *)

(** The states that passed the visited test have pairwise different keys,
    all recorded in the visited set. *)
Definition trace_ok (visited : gset (list (string * value))) (trace : list state) : Prop :=
  NoDup (state_to_key <$> trace) /\
  (forall s, s ∈ trace -> state_to_key s ∈ visited).

Lemma trace_ok_empty : trace_ok ∅ [].
Proof. split; [constructor | by intros s Hs%not_elem_of_nil]. Qed.

Lemma trace_ok_visit visited trace (s : state) :
  trace_ok visited trace -> state_to_key s ∉ visited ->
  trace_ok ({[state_to_key s]} ∪ visited) (trace ++ [s]).
Proof.
  intros [Hnd Hin] Hs. split.
  - rewrite fmap_app. apply NoDup_app. repeat split; [done | | apply NoDup_singleton].
    intros k Hk Hk'. apply list_elem_of_singleton in Hk' as ->.
    apply list_elem_of_fmap in Hk as (s' & Heq & Hs').
    apply Hs. rewrite Heq. by apply Hin.
  - intros s' [Hs' | ->%list_elem_of_singleton]%elem_of_app; [|set_solver].
    apply elem_of_union_r. by apply Hin.
Qed.

Lemma a_star_loop_trace acts h goal budget frontier visited nodes trace :
  trace_ok visited trace ->
  NoDup (state_to_key <$> expanded (a_star_loop acts h goal budget frontier visited nodes trace)).
Proof.
  revert frontier visited nodes trace.
  induction budget as [|budget IHb]; intros frontier visited nodes trace Hok.
  - destruct frontier; apply Hok.
  - destruct frontier as [|e0 frontier0]; [apply Hok|]. cbn [a_star_loop].
    destruct (Heapq.heappop _ _) as [[[[[f s] path] g] frontier']|]; [|apply Hok].
    case_bool_decide as Hv; [by apply IHb|].
    pose proof (trace_ok_visit _ _ s Hok Hv) as Hok'.
    destruct (is_goal s goal); [apply Hok'|].
    destruct (a_star_expand _ _ _ _ _ _ _); [by apply IHb | apply Hok'].
Qed.

Lemma bfs_loop_trace acts goal budget queue visited nodes trace :
  trace_ok visited trace ->
  NoDup (state_to_key <$> expanded (bfs_loop acts goal budget queue visited nodes trace)).
Proof.
  revert queue visited nodes trace.
  induction budget as [|budget IHb]; intros queue visited nodes trace Hok.
  - destruct queue; apply Hok.
  - destruct queue as [|[[s path] c] queue']; [apply Hok|]. cbn [bfs_loop].
    case_bool_decide as Hv; [by apply IHb|].
    pose proof (trace_ok_visit _ _ s Hok Hv) as Hok'.
    destruct (is_goal s goal); [apply Hok' | by apply IHb].
Qed.

Lemma dfs_loop_trace acts goal md budget stack visited nodes trace :
  trace_ok visited trace ->
  NoDup (state_to_key <$> expanded (dfs_loop acts goal md budget stack visited nodes trace)).
Proof.
  revert stack visited nodes trace.
  induction budget as [|budget IHb]; intros stack visited nodes trace Hok.
  - simpl. destruct (last stack); apply Hok.
  - cbn [dfs_loop].
    destruct (last stack) as [[[[s path] c] depth]|]; [|apply Hok].
    destruct (md <? depth); [by apply IHb|].
    case_bool_decide as Hv; [by apply IHb|].
    pose proof (trace_ok_visit _ _ s Hok Hv) as Hok'.
    destruct (is_goal s goal); [apply Hok' | by apply IHb].
Qed.

(** C7.  In one run of any of the three searches (hence in one call of
    [create_plan] under 'a_star', 'bfs' or 'dfs'), the states that get past
    the visited test — the ones tested for the goal and expanded — have
    pairwise different canonical keys, also when the run ends by an
    exception. *)
Theorem no_state_expanded_twice (p : planner) (initial_state goal : state) :
  NoDup (state_to_key <$> expanded (a_star_search p initial_state goal)) /\
  NoDup (state_to_key <$> expanded (breadth_first_search p initial_state goal)) /\
  NoDup (state_to_key <$> expanded (depth_first_search p initial_state goal)).
Proof.
  split; [|split].
  - apply a_star_loop_trace, trace_ok_empty.
  - apply bfs_loop_trace, trace_ok_empty.
  - apply dfs_loop_trace, trace_ok_empty.
Qed.

(** *** Exceptions *)

(** Two actions of equal cost that lead to different states, and no
    heuristic: the second push compares two tuples of equal [f_score], and
    with them their states. *)
Definition step_left : action :=
  Action "left" (fun _ => true)
    (fun s => <["pos" := VStr "west"]> s) 1.

Definition step_right : action :=
  Action "right" (fun _ => true)
    (fun s => <["pos" := VStr "east"]> s) 1.

Definition tie_planner : planner :=
  register_action "right" (preconditions step_right) (effects step_right) 1
    (register_action "left" (preconditions step_left) (effects step_left) 1
       (init "a_star" 100)).

(** C9.  There is a planning input, with total closures, on which
    [create_plan] under 'a_star' ends with an uncaught [TypeError], raised
    by the comparison of two frontier tuples of equal [f_score]. *)
Theorem a_star_tie_raises :
  exists (p : planner) (initial_state goal : state) (a b : entry),
    algorithm p = "a_star" /\
    create_plan p initial_state goal None = Raise TypeError /\
    a.1.1.1 = b.1.1.1 /\ entry_lt a b = Raise TypeError.
Proof.
  exists tie_planner, {["pos" := VStr "home"]}, {["pos" := VStr "north"]},
    (1, {["pos" := VStr "east"]}, ["right"], 1),
    (1, {["pos" := VStr "west"]}, ["left"], 1).
  repeat split; vm_compute; reflexivity.
Qed.

(** A goal that no action reaches, and two actions of cost 1 applicable in
    the initial state. *)
Definition door_open : action :=
  Action "open_door" (fun s => bool_decide (dict_get s "door" = VStr "closed"))
    (fun s => <["door" := VStr "ajar"]> s) 1.

Definition light_on : action :=
  Action "light_on" (fun s => bool_decide (dict_get s "light" = VBool false))
    (fun s => <["light" := VBool true]> s) 1.

Definition house : state := {["door" := VStr "closed"; "light" := VBool false]}.

Definition house_goal : state := {["door" := VStr "gone"]}.

(** C8, the failing input.  No goal state is ever found, so the call
    should return the empty plan, as it does under 'bfs'; under 'a_star' it
    raises [TypeError] instead, at the second push of the first expansion. *)
Lemma a_star_raises_without_goal :
  create_plan (init "a_star" 100) house house_goal (Some [door_open; light_on])
    = Raise TypeError /\
  create_plan (init "bfs" 100) house house_goal (Some [door_open; light_on])
    = Ok (Planner "bfs" 100 [door_open; light_on] None 5 0 0, []).
Proof. split; vm_compute; reflexivity. Qed.

(** The two uninformed searches never raise. *)
Lemma bfs_loop_no_raise acts goal budget queue visited nodes trace e :
  result_of (bfs_loop acts goal budget queue visited nodes trace) <> Raised e.
Proof.
  revert queue visited nodes trace.
  induction budget as [|budget IHb]; intros queue visited nodes trace.
  - by destruct queue.
  - destruct queue as [|[[s path] c] queue']; [done|]. cbn [bfs_loop].
    case_bool_decide; [apply IHb|].
    destruct (is_goal s goal); [done | apply IHb].
Qed.

Lemma dfs_loop_no_raise acts goal md budget stack visited nodes trace e :
  result_of (dfs_loop acts goal md budget stack visited nodes trace) <> Raised e.
Proof.
  revert stack visited nodes trace.
  induction budget as [|budget IHb]; intros stack visited nodes trace.
  - simpl. by destruct (last stack).
  - cbn [dfs_loop].
    destruct (last stack) as [[[[s path] c] depth]|]; [|done].
    destruct (md <? depth); [apply IHb|].
    case_bool_decide; [apply IHb|].
    destruct (is_goal s goal); [done | apply IHb].
Qed.

(** Hence [create_plan] under 'bfs' or 'dfs' always returns, and returns
    the empty plan when the search finds no goal state. *)
Lemma create_plan_uninformed (p : planner) (initial_state goal : state)
    (new_actions : option (list action)) :
  algorithm p = "bfs" \/ algorithm p = "dfs" ->
  is_ok (create_plan p initial_state goal new_actions).
Proof.
  intros Halg. unfold create_plan, run_search. cbn [algorithm].
  destruct Halg as [-> | ->]; cbn [String.eqb Ascii.eqb Bool.eqb andb].
  - unfold breadth_first_search.
    destruct (result_of _) as [plan c | | e] eqn:Hres; [done | done |].
    by apply bfs_loop_no_raise in Hres.
  - unfold depth_first_search.
    destruct (result_of _) as [plan c | | e] eqn:Hres; [done | done |].
    by apply dfs_loop_no_raise in Hres.
Qed.

(** The second scenario of the specification. *)
Example bfs_move :
  create_plan
    (register_action "move"
       (fun s => bool_decide (dict_get s "at_goal" = VBool false))
       (fun s => <["at_goal" := VBool true]> s) 1 (init "bfs" 100))
    {["at_goal" := VBool false]} {["at_goal" := VBool true]} None
  = Ok (Planner "bfs" 100
          [Action "move" (fun s => bool_decide (dict_get s "at_goal" = VBool false))
             (fun s => <["at_goal" := VBool true]> s) 1]
          None 2 1 1,
        ["move"]).
Proof. vm_compute. reflexivity. Qed.

End PlannerSpec.

(** * Optimality of the informed search *)

Module AStarSpec.
Import Planner.

(** The canonical key determines the state. *)
Lemma state_to_key_inj (s1 s2 : state) :
  state_to_key s1 = state_to_key s2 -> s1 = s2.
Proof.
  unfold state_to_key. intros Heq. apply map_to_list_inj.
  rewrite <- (merge_sort_Permutation item_le (map_to_list s1)).
  rewrite <- (merge_sort_Permutation item_le (map_to_list s2)).
  by rewrite Heq.
Qed.

(** [f_score] of a frontier tuple. *)
Definition f_of (e : entry) : Z := e.1.1.1.

Lemma entry_lt_true (a b : entry) : entry_lt a b = Ok true -> f_of a <= f_of b.
Proof.
  destruct a as [[[f1 s1] p1] g1], b as [[[f2 s2] p2] g2]. unfold entry_lt, f_of. simpl.
  destruct (Z.eqb_spec f1 f2) as [->|Hne]; simpl; [lia|].
  intros [= H]. lia.
Qed.

Lemma entry_lt_false (a b : entry) : entry_lt a b = Ok false -> f_of b <= f_of a.
Proof.
  destruct a as [[[f1 s1] p1] g1], b as [[[f2 s2] p2] g2]. unfold entry_lt, f_of. simpl.
  destruct (Z.eqb_spec f1 f2) as [->|Hne]; simpl; [lia|].
  intros [= H]. lia.
Qed.

(** Running a plan, a list of actions, from a state: the state reached and
    the sum of the costs, or [None] when a precondition fails. *)
Fixpoint execute (s : state) (plan : list action) : option (state * Z) :=
  match plan with
  | [] => Some (s, 0)
  | a :: plan' =>
      if preconditions a s then
        match execute (effects a s) plan' with
        | Some (t, c) => Some (t, cost a + c)
        | None => None
        end
      else None
  end.

Lemma execute_snoc (s : state) (plan : list action) (a : action) :
  execute s (plan ++ [a]) =
    match execute s plan with
    | Some (t, c) => if preconditions a t then Some (effects a t, c + cost a) else None
    | None => None
    end.
Proof.
  revert s. induction plan as [|b plan IH]; intros s; simpl.
  - destruct (preconditions a s); [|done]. f_equal. f_equal. lia.
  - destruct (preconditions b s); [|done]. rewrite IH.
    destruct (execute (effects b s) plan) as [[t c]|]; [|done].
    destruct (preconditions a t); [|done]. f_equal. f_equal. lia.
Qed.

Section AStar.
Context (acts : list action) (h : option (state -> state -> Z)) (goal : state).
Context (initial_state : state).

Abbreviation hc := (h_cost h goal).

(** [plan] is made of registered actions and leads from the initial state
    to [t] at cost [c]. *)
Definition reaches (plan : list action) (t : state) (c : Z) : Prop :=
  Forall (fun a => a ∈ acts) plan /\ execute initial_state plan = Some (t, c).

(** [path], of cost [c], is a plan that reaches the goal. *)
Definition is_plan (path : list string) (c : Z) : Prop :=
  exists plan t, name <$> plan = path /\ reaches plan t c /\ is_goal t goal = true.

(** No plan that reaches the goal costs less than [c]. *)
Definition is_least (c : Z) : Prop :=
  forall plan t c', reaches plan t c' -> is_goal t goal = true -> c <= c'.

(** The heuristic never overestimates the cost of reaching the goal. *)
Definition admissible : Prop :=
  forall s plan t c,
    Forall (fun a => a ∈ acts) plan -> execute s plan = Some (t, c) ->
    is_goal t goal = true -> hc s <= c.

(** The heuristic is consistent: it is 0 on goal states and drops by at
    most the cost of the action along every transition. *)
Definition consistent : Prop :=
  (forall s, is_goal s goal = true -> hc s = 0) /\
  (forall s a, a ∈ acts -> preconditions a s = true ->
     hc s <= cost a + hc (effects a s)).

Lemma reaches_nil : reaches [] initial_state 0.
Proof. split; [constructor | done]. Qed.

Lemma reaches_snoc plan t c a :
  reaches plan t c -> a ∈ acts -> preconditions a t = true ->
  reaches (plan ++ [a]) (effects a t) (c + cost a).
Proof.
  intros [Hall Hex] Ha Hpre. split.
  - apply Forall_app. split; [done | by apply Forall_singleton].
  - by rewrite execute_snoc, Hex, Hpre.
Qed.

Lemma reaches_snoc_inv plan a t c :
  reaches (plan ++ [a]) t c ->
  exists u cu, reaches plan u cu /\ a ∈ acts /\ preconditions a u = true /\
    t = effects a u /\ c = cu + cost a.
Proof.
  intros [Hall Hex]. apply Forall_app in Hall as [Hall Ha].
  rewrite Forall_singleton in Ha. rewrite execute_snoc in Hex.
  destruct (execute initial_state plan) as [[u cu]|] eqn:Hu; [|done].
  destruct (preconditions a u) eqn:Hpre; [|done].
  injection Hex as <- <-. exists u, cu. split; [by split|]. by repeat split.
Qed.

(** A consistent heuristic drops by at most the cost of a plan along it. *)
Lemma consistent_along (s t : state) (plan : list action) (c : Z) :
  consistent -> Forall (fun a => a ∈ acts) plan ->
  execute s plan = Some (t, c) -> hc s <= c + hc t.
Proof.
  intros [_ Hstep]. revert s c. induction plan as [|a plan IH]; intros s c Hall; simpl.
  - intros [= <- <-]. lia.
  - apply Forall_cons in Hall as [Ha Hall].
    destruct (preconditions a s) eqn:Hpre; [|done].
    destruct (execute (effects a s) plan) as [[t' c']|] eqn:Hex; [|done].
    intros [= <- <-]. specialize (IH _ _ Hall Hex).
    specialize (Hstep s a Ha Hpre). lia.
Qed.

Lemma consistent_admissible : consistent -> admissible.
Proof.
  intros Hc s plan t c Hall Hex Hg.
  pose proof (consistent_along s t plan c Hc Hall Hex) as H1.
  destruct Hc as [H0 _]. rewrite (H0 t Hg) in H1. lia.
Qed.

(** The tuple pushed for action [a] when [s], reached by [path] at cost
    [g], is expanded. *)
Definition successor (s : state) (path : list string) (g : Z) (a : action) : entry :=
  (g + cost a + hc (effects a s), effects a s, path ++ [name a], g + cost a).

(** What the expansion loop does to the frontier. *)
Lemma a_star_expand_spec (todo : list action) (fr fr' : list entry) s path g :
  HeapqSpec.heap_ok f_of fr ->
  a_star_expand h goal todo fr s path g = Ok fr' ->
  HeapqSpec.heap_ok f_of fr' /\
  (forall e, e ∈ fr' <->
     e ∈ fr \/ exists a, a ∈ todo /\ preconditions a s = true /\ e = successor s path g a).
Proof.
  revert fr. induction todo as [|a todo IH]; intros fr Hok; cbn [a_star_expand].
  - intros [= <-]. split; [done|]. intros e. split; [by left|].
    intros [He | (a & Ha%not_elem_of_nil & _)]; done.
  - destruct (preconditions a s) eqn:Hpre.
    + destruct (Heapq.heappush _ _ _) as [fr1|] eqn:Hpush; [|done].
      apply (HeapqSpec.heappush_spec entry_lt f_of entry_lt_true entry_lt_false)
        in Hpush as [Hok1 Hperm]; [|done].
      intros Hexp. apply IH in Hexp as [Hok' Hmem]; [|done].
      split; [done|]. intros e. rewrite Hmem. rewrite Hperm. rewrite elem_of_cons.
      split.
      * intros [[-> | He] | (b & Hb & Hpb & ->)].
        -- right. exists a. split; [by left | done].
        -- by left.
        -- right. exists b. split; [by right | done].
      * intros [He | (b & [-> | Hb]%elem_of_cons & Hpb & ->)].
        -- left. by right.
        -- left. by left.
        -- right. by exists b.
    + intros Hexp. apply IH in Hexp as [Hok' Hmem]; [|done].
      split; [done|]. intros e. rewrite Hmem. split.
      * intros [He | (b & Hb & Hpb & ->)]; [by left|].
        right. exists b. split; [by right | done].
      * intros [He | (b & [-> | Hb]%elem_of_cons & Hpb & ->)]; [by left | congruence |].
        right. by exists b.
Qed.

(** Invariant of the main loop once the initial state has been closed.
    Every frontier tuple describes a real plan and carries [f = g + h];
    closed states are not goal states; and every successor of a closed
    state is closed or waits in the frontier with a score that no plan
    through that transition can beat. *)
Record inv (frontier : list entry) (visited : gset (list (string * value))) : Prop := Inv {
  inv_heap : HeapqSpec.heap_ok f_of frontier;
  inv_entries : forall f s path g, (f, s, path, g) ∈ frontier ->
    f = g + hc s /\ exists plan, name <$> plan = path /\ reaches plan s g;
  inv_nongoal : forall s, state_to_key s ∈ visited -> is_goal s goal = false;
  inv_init : state_to_key initial_state ∈ visited;
  inv_succ : forall plan u cu a,
    reaches plan u cu -> state_to_key u ∈ visited ->
    a ∈ acts -> preconditions a u = true ->
    state_to_key (effects a u) ∈ visited \/
    exists f path g, (f, effects a u, path, g) ∈ frontier /\
      f <= cu + cost a + hc (effects a u)
}.

(** Under the invariant every reachable state is closed, or some frontier
    tuple scores no more than the cost of reaching it plus its estimate. *)
Lemma inv_cover frontier visited plan t c :
  consistent -> inv frontier visited -> reaches plan t c ->
  state_to_key t ∈ visited \/ exists e, e ∈ frontier /\ f_of e <= c + hc t.
Proof.
  intros Hcons Hinv. revert t c.
  induction plan as [|a plan IH] using rev_ind; intros t c Hr.
  - destruct Hr as [_ [= <- <-]]. left. apply Hinv.
  - apply reaches_snoc_inv in Hr as (u & cu & Hu & Ha & Hpre & -> & ->).
    destruct (IH u cu Hu) as [Hvis | (e & He & Hle)].
    + destruct (inv_succ _ _ Hinv plan u cu a Hu Hvis Ha Hpre)
        as [Hv | (f & path & g & He & Hle)]; [by left|].
      right. by exists (f, effects a u, path, g).
    + right. exists e. split; [done|].
      destruct Hcons as [_ Hstep]. specialize (Hstep u a Ha Hpre). lia.
Qed.

(** Closing a state reached at its least cost and pushing its successors
    establishes the invariant. *)
Lemma inv_close (fr fr' : list entry) visited (s : state) plan_s path g :
  consistent ->
  HeapqSpec.heap_ok f_of fr ->
  (forall f s' path' g', (f, s', path', g') ∈ fr ->
     f = g' + hc s' /\ exists plan, name <$> plan = path' /\ reaches plan s' g') ->
  (forall s', state_to_key s' ∈ visited -> is_goal s' goal = false) ->
  (forall plan u cu a,
     reaches plan u cu -> state_to_key u ∈ visited ->
     a ∈ acts -> preconditions a u = true ->
     state_to_key (effects a u) ∈ visited \/ effects a u = s \/
     exists f path' g', (f, effects a u, path', g') ∈ fr /\
       f <= cu + cost a + hc (effects a u)) ->
  name <$> plan_s = path -> reaches plan_s s g ->
  (forall plan c, reaches plan s c -> g <= c) ->
  is_goal s goal = false ->
  state_to_key initial_state ∈ ({[state_to_key s]} ∪ visited : gset _) ->
  a_star_expand h goal acts fr s path g = Ok fr' ->
  inv fr' ({[state_to_key s]} ∪ visited).
Proof.
  intros Hcons Hheap Hent Hng Hsucc Hpath Hreach Hopt Hgoal Hinit Hexp.
  apply a_star_expand_spec in Hexp as [Hheap' Hmem]; [|done].
  split.
  - done.
  - intros f s' path' g' [He | (a & Ha & Hpre & He)]%Hmem; [by apply Hent|].
    injection He as -> -> -> ->. split; [done|].
    exists (plan_s ++ [a]). split.
    + rewrite fmap_app. by rewrite Hpath.
    + by apply reaches_snoc.
  - intros s' [->%elem_of_singleton%state_to_key_inj | Hv]%elem_of_union; [done|].
    by apply Hng.
  - done.
  - intros plan u cu a Hu Hvis Ha Hpre.
    apply elem_of_union in Hvis as [->%elem_of_singleton%state_to_key_inj | Hvis].
    + right. exists (g + cost a + hc (effects a s)), (path ++ [name a]), (g + cost a).
      split.
      * apply Hmem. right. by exists a.
      * specialize (Hopt plan cu Hu). lia.
    + destruct (Hsucc plan u cu a Hu Hvis Ha Hpre)
        as [Hv | [Hs | (f & path' & g' & He & Hle)]].
      * left. by apply elem_of_union_r.
      * left. rewrite Hs. apply elem_of_union_l. by apply elem_of_singleton.
      * right. exists f, path', g'. split; [|done]. apply Hmem. by left.
Qed.

(** The loop, started under the invariant, returns only least-cost
    plans. *)
Lemma a_star_loop_optimal budget frontier visited nodes trace path c :
  consistent -> inv frontier visited ->
  result_of (a_star_loop acts h goal budget frontier visited nodes trace) = Found path c ->
  is_plan path c /\ is_least c.
Proof.
  intros Hcons. revert frontier visited nodes trace.
  induction budget as [|budget IH]; intros frontier visited nodes trace Hinv.
  { by destruct frontier. }
  destruct frontier as [|e0 frontier0] eqn:Hfr; [done|]. rewrite <- Hfr in *.
  assert (Hloop : a_star_loop acts h goal (S budget) frontier visited nodes trace =
    match Heapq.heappop entry_lt frontier with
    | Raise e => Search (Raised e) nodes trace
    | Ok ((f_score, current_state, path, g_cost), frontier') =>
        if bool_decide (state_to_key current_state ∈ visited) then
          a_star_loop acts h goal budget frontier' visited (nodes + 1) trace
        else if is_goal current_state goal then
          Search (Found path g_cost) (nodes + 1) (trace ++ [current_state])
        else
          match a_star_expand h goal acts frontier' current_state path g_cost with
          | Raise e => Search (Raised e) (nodes + 1) (trace ++ [current_state])
          | Ok frontier'' =>
              a_star_loop acts h goal budget frontier''
                ({[state_to_key current_state]} ∪ visited) (nodes + 1)
                (trace ++ [current_state])
          end
    end).
  { rewrite Hfr. reflexivity. }
  rewrite Hloop. clear Hloop Hfr e0 frontier0.
  destruct (Heapq.heappop entry_lt frontier) as [[[[[f s] p] g] frontier']|] eqn:Hpop; [|done].
  apply (HeapqSpec.heappop_spec entry_lt f_of entry_lt_true entry_lt_false)
    in Hpop as (Hheap' & Hperm & Hmin); [|apply Hinv].
  assert (Hin0 : (f, s, p, g) ∈ frontier) by (rewrite Hperm; by left).
  destruct (inv_entries _ _ Hinv f s p g Hin0) as [Hf (plan_s & Hnames & Hreach)].
  assert (Hsub : forall e, e ∈ frontier' -> e ∈ frontier).
  { intros e He. rewrite Hperm. by right. }
  case_bool_decide as Hvis.
  - (* stale entry *)
    apply IH. split.
    + done.
    + intros f' s' p' g' He. apply (inv_entries _ _ Hinv). by apply Hsub.
    + apply Hinv.
    + apply Hinv.
    + intros plan u cu a Hu Hv Ha Hpre.
      destruct (inv_succ _ _ Hinv plan u cu a Hu Hv Ha Hpre)
        as [Hv' | (f' & p' & g' & He & Hle)]; [by left|].
      rewrite Hperm in He. apply elem_of_cons in He as [[= _ Hs _ _] | He].
      * left. by rewrite Hs.
      * right. by exists f', p', g'.
  - (* the state is closed now, at its least cost *)
    assert (Hopt : forall plan c', reaches plan s c' -> g <= c').
    { intros plan c' Hr.
      destruct (inv_cover _ _ _ _ _ Hcons Hinv Hr) as [Hv | (e & He & Hle)]; [done|].
      specialize (Hmin e He). unfold f_of in Hmin at 1. simpl in Hmin. lia. }
    destruct (is_goal s goal) eqn:Hgoal.
    + intros [= <- <-]. split.
      * by exists plan_s, s.
      * intros plan t c' Hr Hg.
        destruct (inv_cover _ _ _ _ _ Hcons Hinv Hr) as [Hv | (e & He & Hle)].
        { apply (inv_nongoal _ _ Hinv) in Hv. congruence. }
        specialize (Hmin e He). unfold f_of in Hmin at 1. simpl in Hmin.
        destruct Hcons as [H0 _]. rewrite (H0 s Hgoal) in Hf. rewrite (H0 t Hg) in Hle. lia.
    + destruct (a_star_expand h goal acts frontier' s p g) as [frontier''|] eqn:Hexp; [|done].
      apply IH.
      apply (inv_close frontier' frontier'' visited s plan_s p g); try done.
      * intros f' s' p' g' He. apply (inv_entries _ _ Hinv). by apply Hsub.
      * apply Hinv.
      * intros plan u cu a Hu Hv Ha Hpre.
        destruct (inv_succ _ _ Hinv plan u cu a Hu Hv Ha Hpre)
          as [Hv' | (f' & p' & g' & He & Hle)]; [by left|].
        rewrite Hperm in He. apply elem_of_cons in He as [[= _ Hs _ _] | He].
        -- right. by left.
        -- right. right. by exists f', p', g'.
      * apply elem_of_union_r. apply Hinv.
Qed.

(** The whole search: the first turn closes the initial state, the other
    turns run under the invariant. *)
Lemma a_star_optimal budget nodes path c :
  consistent ->
  result_of (a_star_loop acts h goal budget [(0, initial_state, [], 0)] ∅ nodes [])
    = Found path c ->
  is_plan path c /\ is_least c.
Proof.
  intros Hcons. destruct budget as [|budget]; [done|].
  cbn [a_star_loop]. unfold Heapq.heappop. cbn [last removelast].
  rewrite bool_decide_eq_false_2 by apply not_elem_of_empty.
  assert (Hopt : forall plan c', reaches plan initial_state c' -> 0 <= c').
  { intros plan c' [Hall Hex].
    pose proof (consistent_along _ _ _ _ Hcons Hall Hex). lia. }
  destruct (is_goal initial_state goal) eqn:Hgoal.
  - intros [= <- <-]. split.
    + exists [], initial_state. split; [done|]. split; [apply reaches_nil | done].
    + intros plan t c' [Hall Hex] Hg.
      pose proof (consistent_along _ _ _ _ Hcons Hall Hex) as Hle.
      destruct Hcons as [H0 _]. rewrite (H0 _ Hgoal), (H0 _ Hg) in Hle. lia.
  - destruct (a_star_expand h goal acts [] initial_state [] 0) as [frontier|] eqn:Hexp; [|done].
    apply a_star_loop_optimal; [done|].
    apply (inv_close [] frontier ∅ initial_state [] [] 0); try done.
    + intros f s' p' g' He. by apply not_elem_of_nil in He.
    + apply elem_of_union_l. by apply elem_of_singleton.
Qed.

End AStar.

Lemma is_goal_singleton (s : state) (k : string) (v : value) :
  is_goal s {[k := v]} = bool_decide (dict_get s k = v).
Proof. unfold is_goal. rewrite map_to_list_singleton. simpl. by rewrite andb_true_r. Qed.

Lemma dict_get_insert (s : state) (k : string) (v : value) :
  dict_get (<[k := v]> s) k = v.
Proof. unfold dict_get. by rewrite lookup_insert_eq. Qed.

(** C1, amended.  When the heuristic is consistent, a plan returned by
    [create_plan] under 'a_star' — a non-empty list, or the empty list when
    the initial state satisfies the goal — is a sequence of registered
    actions that leads from the initial state to a goal state, its cost is
    the [plan_cost] recorded by the call, and no sequence of registered
    actions reaching the goal costs less. *)
Theorem a_star_consistent_optimal (p p' : planner) (initial_state goal : state)
    (path : list string) :
  algorithm p = "a_star" ->
  consistent (actions p) (heuristic p) goal ->
  create_plan p initial_state goal None = Ok (p', path) ->
  path <> [] \/ is_goal initial_state goal = true ->
  is_plan (actions p) goal initial_state path (plan_cost p') /\
  is_least (actions p) goal initial_state (plan_cost p').
Proof.
  intros Halg Hcons. unfold create_plan, run_search. cbn [algorithm].
  rewrite Halg. cbn [String.eqb Ascii.eqb Bool.eqb andb].
  unfold a_star_search. cbn [actions heuristic max_depth nodes_explored].
  destruct (result_of _) as [plan c| |e] eqn:Hres; [| |done].
  - intros [= <- <-] _. cbn [plan_cost].
    by apply (a_star_optimal _ _ _ _ _ _ _ _ Hcons Hres).
  - intros [= <- <-] [Hne | Hgoal]; [done|]. cbn [plan_cost]. split.
    + exists [], initial_state. split; [done|]. split; [apply reaches_nil | done].
    + intros plan t c' [Hall Hex] Hg.
      pose proof (consistent_along _ _ _ _ _ _ _ Hcons Hall Hex) as Hle.
      destruct Hcons as [H0 _]. rewrite (H0 _ Hgoal), (H0 _ Hg) in Hle. lia.
Qed.

(** A road map: from [S] to [G] directly (cost 5) or through [A] (1 + 1). *)
Definition at_place (x : string) (s : state) : bool :=
  bool_decide (dict_get s "at" = VStr x).

Definition go (x : string) (s : state) : state := <["at" := VStr x]> s.

Definition road_h (s goal : state) : Z :=
  match dict_get s "at" with
  | VStr "S" => 2
  | VStr "A" => 1
  | _ => 0
  end.

Definition road_planner : planner :=
  set_heuristic road_h
    (register_action "s_g" (at_place "S") (go "G") 5
       (register_action "a_g" (at_place "A") (go "G") 1
          (register_action "s_a" (at_place "S") (go "A") 1 (init "a_star" 100)))).

Lemma road_consistent :
  consistent (actions road_planner) (heuristic road_planner) {["at" := VStr "G"]}.
Proof.
  split.
  - intros s Hg. rewrite is_goal_singleton in Hg. apply bool_decide_eq_true in Hg.
    simpl. unfold road_h. by rewrite Hg.
  - intros s a Ha Hpre. simpl in Ha.
    repeat (apply elem_of_cons in Ha as [-> | Ha]); [| | | by apply not_elem_of_nil in Ha];
      simpl in *; unfold at_place in Hpre; apply bool_decide_eq_true in Hpre;
      unfold road_h, go; rewrite dict_get_insert, Hpre; simpl; lia.
Qed.

Lemma a_star_consistent_optimal_witness :
  is_plan (actions road_planner) {["at" := VStr "G"]} {["at" := VStr "S"]}
    ["s_a"; "a_g"] 2 /\
  is_least (actions road_planner) {["at" := VStr "G"]} {["at" := VStr "S"]} 2.
Proof.
  apply (a_star_consistent_optimal road_planner
           (Planner "a_star" 100 (actions road_planner) (Some road_h) 3 2 2)
           {["at" := VStr "S"]} {["at" := VStr "G"]} ["s_a"; "a_g"]).
  - reflexivity.
  - exact road_consistent.
  - vm_compute. reflexivity.
  - left. discriminate.
Defined.

(** A road map with a detour: [S -> A] costs 4, [S -> B] and [B -> A]
    cost 1 each, [A -> G] costs 10; the heuristic estimates 9 at [B] and 0
    elsewhere.  It never overestimates (from [B] the goal is 11 away), but
    it is not consistent ([9 > 1 + 0] along [B -> A]). *)
Definition detour_h (s goal : state) : Z :=
  match dict_get s "at" with
  | VStr "B" => 9
  | _ => 0
  end.

Definition detour_planner : planner :=
  set_heuristic detour_h
    (register_action "a_g" (at_place "A") (go "G") 10
       (register_action "b_a" (at_place "B") (go "A") 1
          (register_action "s_b" (at_place "S") (go "B") 1
             (register_action "s_a" (at_place "S") (go "A") 4 (init "a_star" 100))))).

Lemma detour_cost_nonneg (s t : state) (plan : list action) (c : Z) :
  Forall (fun a => a ∈ actions detour_planner) plan ->
  execute s plan = Some (t, c) -> 0 <= c.
Proof.
  revert s c. induction plan as [|a plan IH]; intros s c Hall; simpl.
  - intros [= _ <-]. lia.
  - apply Forall_cons in Hall as [Ha Hall].
    destruct (preconditions a s); [|done].
    destruct (execute (effects a s) plan) as [[t' c']|] eqn:Hex; [|done].
    intros [= -> <-]. specialize (IH _ _ Hall Hex).
    simpl in Ha.
    repeat (apply elem_of_cons in Ha as [-> | Ha]); [| | | | by apply not_elem_of_nil in Ha];
      simpl; lia.
Qed.

(** An applicable action of the detour map, by the place it starts from. *)
Lemma detour_applicable (s : state) (a : action) (x : string) :
  a ∈ actions detour_planner -> preconditions a s = true ->
  dict_get s "at" = VStr x ->
  (x = "S" /\ (a = Action "s_a" (at_place "S") (go "A") 4 \/
               a = Action "s_b" (at_place "S") (go "B") 1)) \/
  (x = "B" /\ a = Action "b_a" (at_place "B") (go "A") 1) \/
  (x = "A" /\ a = Action "a_g" (at_place "A") (go "G") 10).
Proof.
  intros Ha Hpre Hat. simpl in Ha.
  repeat (apply elem_of_cons in Ha as [-> | Ha]); [| | | | by apply not_elem_of_nil in Ha];
    simpl in Hpre; unfold at_place in Hpre; apply bool_decide_eq_true in Hpre;
    rewrite Hat in Hpre; injection Hpre as ->; auto.
Qed.

Lemma detour_admissible :
  admissible (actions detour_planner) (heuristic detour_planner) {["at" := VStr "G"]}.
Proof.
  intros s plan t c Hall Hex Hg. simpl. unfold detour_h.
  pose proof (detour_cost_nonneg s t plan c Hall Hex) as Hc.
  destruct (dict_get s "at") as [| | | |x|] eqn:Hat; try done.
  destruct (decide (x = "B")) as [->|Hx].
  2:{ repeat (destruct x as [|[[] [] [] [] [] [] [] []] x]; try done). }
  rewrite is_goal_singleton in Hg. apply bool_decide_eq_true in Hg.
  (* first action: B -> A *)
  destruct plan as [|a1 plan]; simpl in Hex.
  { injection Hex as <- <-. congruence. }
  apply Forall_cons in Hall as [Ha1 Hall].
  destruct (preconditions a1 s) eqn:Hp1; [|done].
  destruct (detour_applicable s a1 "B" Ha1 Hp1 Hat)
    as [[? _] | [[_ ->] | [? _]]]; [done | | done].
  simpl in Hex.
  destruct (execute (go "A" s) plan) as [[t1 c1]|] eqn:Hex1; [|done].
  injection Hex as -> <-.
  (* second action: A -> G *)
  destruct plan as [|a2 plan]; simpl in Hex1.
  { injection Hex1 as <- <-. unfold go in Hg. rewrite dict_get_insert in Hg. done. }
  apply Forall_cons in Hall as [Ha2 Hall].
  destruct (preconditions a2 (go "A" s)) eqn:Hp2; [|done].
  destruct (detour_applicable (go "A" s) a2 "A" Ha2 Hp2 (dict_get_insert _ _ _))
    as [[? _] | [[? _] | [_ ->]]]; [done | done |].
  simpl in Hex1.
  destruct (execute (go "G" (go "A" s)) plan) as [[t2 c2]|] eqn:Hex2; [|done].
  injection Hex1 as -> <-.
  pose proof (detour_cost_nonneg _ _ _ _ Hall Hex2). lia.
Qed.

(** Counterexample to C1 as stated: the heuristic is admissible, the
    search closes [A] at cost 4 before the cheaper way through [B] is
    found, and returns a plan of cost 14 although one of cost 12 exists. *)
Lemma a_star_admissible_not_optimal :
  admissible (actions detour_planner) (heuristic detour_planner) {["at" := VStr "G"]} /\
  create_plan detour_planner {["at" := VStr "S"]} {["at" := VStr "G"]} None =
    Ok (Planner "a_star" 100 (actions detour_planner) (Some detour_h) 5 2 14,
        ["s_a"; "a_g"]) /\
  is_plan (actions detour_planner) {["at" := VStr "G"]} {["at" := VStr "S"]}
    ["s_b"; "b_a"; "a_g"] 12.
Proof.
  split; [exact detour_admissible|]. split; [vm_compute; reflexivity|].
  exists [Action "s_b" (at_place "S") (go "B") 1;
          Action "b_a" (at_place "B") (go "A") 1;
          Action "a_g" (at_place "A") (go "G") 10],
         (go "G" (go "A" (go "B" {["at" := VStr "S"]}))).
  split; [reflexivity|]. split; [split|].
  - repeat constructor.
  - vm_compute. reflexivity.
  - vm_compute. reflexivity.
Qed.

End AStarSpec.

(** * Properties of the memory *)

Module MemorySpec.
Import Memory.

(** *** [store] writes into the caller's dictionary *)



Lemma deque_append_last (maxlen : nat) (dq : list nat) (x : nat) :
  (0 < maxlen)%nat -> last (deque_append maxlen dq x) = Some x.
Proof.
  intros Hpos. unfold deque_append. rewrite length_app. simpl.
  rewrite drop_app_le by lia. apply last_snoc.
Qed.

Lemma dict_set_elem (d : list (value * nat)) (key : value) (x : nat) :
  (key, x) ∈ dict_set d key x.
Proof.
  induction d as [|[k y] d IH]; simpl; [by left|].
  case_decide as Hk; [subst; by left | by right].
Qed.

Section Store.
Context (hash_str : dict -> Z).

Lemma generate_id_stamped now timestamp priority (d : dict) :
  generate_id hash_str now (stamped timestamp priority d) =
    Ok (VStr (mem_id timestamp (hash_str (stamped timestamp priority d) `mod` 10000))).
Proof.
  unfold generate_id.
  assert (Hts : stamped timestamp priority d !! "_timestamp" = Some (VTime timestamp)).
  { unfold stamped. do 2 (rewrite lookup_insert_ne by done). by rewrite lookup_insert_eq. }
  by rewrite Hts.
Qed.

(** The steps of [store] after the metadata are written, by memory type. *)
Lemma store_cases clock item priority objects m objects' m' :
  store hash_str clock item priority objects m = Ok (objects', m') ->
  exists item_id,
    item_id = VStr (mem_id (clock 0%nat)
                (hash_str (stamped (clock 0%nat) priority (deref objects item)) `mod` 10000)) /\
    objects' = <[item := <["_id" := item_id]>
                  (stamped (clock 0%nat) priority (deref objects item))]> objects /\
    capacity m' = capacity m /\
    ((memory_type m = "working" /\
      working_memory m' = deque_append 100 (working_memory m) item /\
      episodic_memory m' = episodic_memory m) \/
     (memory_type m = "episodic" /\
      exists kept,
        (if (capacity m <=? length (episodic_memory m))%nat
         then forget_least_important objects' m (clock 2%nat)
         else Ok (episodic_memory m)) = Ok kept /\
        episodic_memory m' = deque_append (capacity m) kept item) \/
     (memory_type m = "semantic" /\
      (exists key, semantic_memory m' = dict_set (semantic_memory m) key item) /\
      episodic_memory m' = episodic_memory m) \/
     (memory_type m <> "working" /\ memory_type m <> "episodic" /\
      memory_type m <> "semantic" /\ m' = m)).
Proof.
  unfold store. cbv zeta. rewrite generate_id_stamped.
  set (item_id := VStr _).
  set (objects1 := <[item := _]> objects).
  intros Hst. exists item_id. split; [done|].
  destruct (String.eqb_spec (memory_type m) "working") as [Hw|Hw].
  { injection Hst as <- <-. repeat split; try done. left. by repeat split. }
  destruct (String.eqb_spec (memory_type m) "episodic") as [He|He].
  { destruct (if (capacity m <=? length (episodic_memory m))%nat then _ else _)
      as [kept|] eqn:Hk; [|done].
    injection Hst as <- <-. repeat split; try done.
    right. left. split; [done|]. by exists kept. }
  destruct (String.eqb_spec (memory_type m) "semantic") as [Hs|Hs].
  { injection Hst as <- <-. repeat split; try done.
    right. right. left. split; [done|]. split; [|done]. by eexists. }
  injection Hst as <- <-. repeat split; try done.
  right. right. right. by repeat split.
Qed.

(** The identifier that [store] writes into the item is a generated one. *)
Lemma store_writes_id clock item priority objects m objects' m' :
  store hash_str clock item priority objects m = Ok (objects', m') ->
  exists t h, dict_get (deref objects' item) "_id" = VStr (mem_id t h).
Proof.
  intros (item_id & -> & -> & _)%store_cases.
  eexists _, _. unfold dict_get, deref. rewrite lookup_insert_eq. simpl.
  by rewrite lookup_insert_eq.
Qed.

(** C10.  Whatever the memory type, a call of [store] that returns has
    written the four metadata keys into the dictionary the caller passed
    (the object of identity [item]) and changed nothing else in it, nor any
    other object; and what the working, episodic (of capacity at least 1)
    or semantic store receives is that same object, not a copy. *)
Theorem store_mutates_item clock item priority objects m objects' m' :
  store hash_str clock item priority objects m = Ok (objects', m') ->
  (exists item_id,
     deref objects' item !! "_id" = Some item_id /\
     deref objects' item !! "_timestamp" = Some (VTime (clock 0%nat)) /\
     deref objects' item !! "_priority" = Some (VFloat (Q2Qc priority)) /\
     deref objects' item !! "_access_count" = Some (VInt 0)) /\
  (forall key, key ∉ ["_timestamp"; "_priority"; "_access_count"; "_id"] ->
     deref objects' item !! key = deref objects item !! key) /\
  (forall l, l <> item -> objects' !! l = objects !! l) /\
  (memory_type m = "working" -> last (working_memory m') = Some item) /\
  (memory_type m = "episodic" -> (0 < capacity m)%nat ->
     last (episodic_memory m') = Some item) /\
  (memory_type m = "semantic" -> exists key, (key, item) ∈ semantic_memory m').
Proof.
  intros Hst. apply store_cases in Hst as (item_id & _ & -> & Hcap & Hcases).
  assert (Hd : deref (<[item := <["_id" := item_id]>
                 (stamped (clock 0%nat) priority (deref objects item))]> objects) item
               = <["_id" := item_id]> (stamped (clock 0%nat) priority (deref objects item))).
  { unfold deref. by rewrite lookup_insert_eq. }
  rewrite Hd. unfold stamped.
  split; [|split; [|split; [|split; [|split]]]].
  - exists item_id. split; [by rewrite lookup_insert_eq|].
    rewrite !(lookup_insert_ne _ "_id") by done.
    split; [|split].
    + do 2 (rewrite lookup_insert_ne by done). by rewrite lookup_insert_eq.
    + rewrite lookup_insert_ne by done. by rewrite lookup_insert_eq.
    + by rewrite lookup_insert_eq.
  - intros key Hkey. rewrite !lookup_insert_ne; [done|..]; intros <-; apply Hkey.
    + by left.
    + by right; left.
    + by right; right; left.
    + by right; right; right; left.
  - intros l Hl. by rewrite lookup_insert_ne.
  - intros Hty. destruct Hcases as [(_ & -> & _) | [(Hty' & _) | [(Hty' & _) | (Hty' & _)]]];
      [apply deque_append_last; lia | congruence..].
  - intros Hty Hpos.
    destruct Hcases as [(Hty' & _) | [(_ & kept & _ & ->) | [(Hty' & _) | (_ & Hty' & _)]]];
      [congruence | | congruence..].
    apply deque_append_last. lia.
  - intros Hty.
    destruct Hcases as [(Hty' & _) | [(Hty' & _) | [(_ & (key & ->) & _) | (_ & _ & Hty' & _)]]];
      [congruence.. | | congruence].
    exists key. apply dict_set_elem.
Qed.

End Store.
(** *** Capacity and eviction *)

Lemma insert_asc_perm {A : Type} (x : Q * A) (l : list (Q * A)) :
  insert_asc x l ≡ₚ x :: l.
Proof.
  induction l as [|y l IH]; simpl; [done|].
  destruct (Qltb y.1 x.1); [|done].
  rewrite IH. apply Permutation_swap.
Qed.

Lemma sort_asc_perm {A : Type} (l : list (Q * A)) : sort_asc l ≡ₚ l.
Proof.
  induction l as [|x l IH]; simpl; [done|].
  rewrite insert_asc_perm. by rewrite IH.
Qed.

(** [x] scores no more than any item of [l]. *)
Definition least {A : Type} (x : Q * A) (l : list (Q * A)) : Prop :=
  Forall (fun y => (x.1 <= y.1)%Q) l.

Definition head_least {A : Type} (l : list (Q * A)) : Prop :=
  match l with
  | [] => True
  | x :: _ => least x l
  end.

Lemma insert_asc_head {A : Type} (x : Q * A) (l : list (Q * A)) :
  head_least l -> head_least (insert_asc x l).
Proof.
  destruct l as [|y l]; simpl.
  - intros _. constructor; [apply Qle_refl | constructor].
  - intros Hy. destruct (Qltb y.1 x.1) eqn:Hlt.
    + cbn [head_least]. unfold least in *.
      apply Forall_cons in Hy as [Hyy Hy]. apply Qltb_lt in Hlt.
      constructor; [done|]. rewrite insert_asc_perm.
      constructor; [lra | done].
    + apply Qltb_ge in Hlt. constructor; [apply Qle_refl|].
      eapply Forall_impl; [exact Hy|]. simpl. intros z Hz. lra.
Qed.

Lemma sort_asc_head {A : Type} (l : list (Q * A)) : head_least (sort_asc l).
Proof.
  induction l as [|x l IH]; simpl; [done|]. by apply insert_asc_head.
Qed.

Lemma sort_asc_least {A : Type} (l rest : list (Q * A)) (x : Q * A) :
  sort_asc l = x :: rest -> x ∈ l /\ least x l.
Proof.
  intros Hs. pose proof (sort_asc_head l) as Hh. rewrite Hs in Hh. simpl in Hh.
  pose proof (sort_asc_perm l) as Hp. rewrite Hs in Hp.
  split.
  - rewrite <- Hp. by left.
  - unfold least in *. by rewrite <- Hp.
Qed.

Section Forget.
Context (hash_str : dict -> Z).

Lemma importance_scores_spec objects m now items scores :
  importance_scores objects m now items = Ok scores ->
  scores.*2 = items /\
  Forall (fun sl => importance m now (deref objects sl.2) = Ok sl.1) scores.
Proof.
  revert scores. induction items as [|l items IH]; intros scores; simpl.
  - intros [= <-]. by split.
  - destruct (importance m now (deref objects l)) as [s|] eqn:Hs; [|done].
    destruct (importance_scores objects m now items) as [scores'|]; [|done].
    intros [= <-]. destruct (IH scores' eq_refl) as [Hsnd Hall].
    split; [by rewrite fmap_cons, Hsnd | by constructor].
Qed.

Lemma deque_remove_spec objects dq x dq' :
  deque_remove objects dq x = Ok dq' ->
  exists i victim, dq !! i = Some victim /\
    deref objects victim = deref objects x /\ dq' = delete i dq.
Proof.
  revert dq'. induction dq as [|y dq IH]; intros dq'; simpl; [done|].
  case_decide as Heq.
  - intros [= <-]. by exists 0%nat, y.
  - destruct (deque_remove objects dq x) as [dq''|]; [|done].
    intros [= <-]. destruct (IH dq'' eq_refl) as (i & victim & Hi & Hd & ->).
    by exists (S i), victim.
Qed.

(** [_forget_least_important] on a buffer that is not empty removes one
    item, and that item has the least importance of all. *)
Lemma forget_spec objects m now kept :
  episodic_memory m <> [] ->
  forget_least_important objects m now = Ok kept ->
  exists i victim score,
    episodic_memory m !! i = Some victim /\
    kept = delete i (episodic_memory m) /\
    importance m now (deref objects victim) = Ok score /\
    (forall l, l ∈ episodic_memory m ->
       exists s, importance m now (deref objects l) = Ok s /\ (score <= s)%Q).
Proof.
  intros Hne. unfold forget_least_important.
  destruct (episodic_memory m) as [|l0 ep0] eqn:Hep; [done|]. rewrite <- Hep in *.
  destruct (importance_scores objects m now (episodic_memory m)) as [scores|] eqn:Hsc; [|done].
  apply importance_scores_spec in Hsc as [Hsnd Hall].
  destruct (sort_asc scores) as [|[s0 least_important] rest] eqn:Hsort.
  { pose proof (sort_asc_perm scores) as Hp. rewrite Hsort in Hp.
    apply Permutation_nil_l in Hp. subst scores. simpl in Hsnd. congruence. }
  apply sort_asc_least in Hsort as [Hin Hleast].
  intros (i & victim & Hi & Hd & ->)%deque_remove_spec.
  rewrite Forall_forall in Hall.
  exists i, victim, s0. repeat split; [done | | ].
  - rewrite Hd. exact (Hall _ Hin).
  - intros l Hl. rewrite <- Hsnd in Hl.
    apply list_elem_of_fmap in Hl as ([s l'] & -> & Hsl).
    exists s. split; [exact (Hall _ Hsl)|].
    unfold least in Hleast. rewrite Forall_forall in Hleast. exact (Hleast _ Hsl).
Qed.

(** The importance score in the words of the specification:
    [priority × (1 + access_count) × recency] with
    [recency = 1 / (1 + age_in_hours)], the age being given in seconds. *)
Definition spec_importance (priority : Q) (access_count : Z) (age_seconds : Q) : Q :=
  (priority * inject_Z (1 + access_count) * (1 / (1 + age_seconds / 3600)))%Q.

(** [score] is the score of the specification for the item [d] held in
    the memory [m], at the time [now]: priority and access count are those
    kept under the item's [_id] (1.0 and 0 when there are none), and the age
    runs from the item's [_timestamp] (from [now] when it has none). *)
Definition scored (m : memory) (now : Z) (d : dict) (score : Q) : Prop :=
  exists t,
    default (VTime now) (d !! "_timestamp") = VTime t /\
    score = spec_importance (default 1%Q (priorities m !! dict_get d "_id"))
              (default 0%Z (access_counts m !! dict_get d "_id"))
              ((now - t) # 1000000).


(** A sequence of [store] calls, each with its clock, item and priority. *)
Fixpoint stores (calls : list ((nat -> Z) * nat * Q))
    (objects : gmap nat dict) (m : memory) : result (gmap nat dict * memory) :=
  match calls with
  | [] => Ok (objects, m)
  | (clock, item, priority) :: calls' =>
      match store hash_str clock item priority objects m with
      | Raise e => Raise e
      | Ok (objects', m') => stores calls' objects' m'
      end
  end.




End Forget.
(** *** [recall] *)

Lemma insert_desc_perm {A : Type} (x : Q * A) (l : list (Q * A)) :
  insert_desc x l ≡ₚ x :: l.
Proof.
  induction l as [|y l IH]; simpl; [done|].
  destruct (Qltb x.1 y.1); [|done].
  rewrite IH. apply Permutation_swap.
Qed.

Lemma sort_desc_perm {A : Type} (l : list (Q * A)) : sort_desc l ≡ₚ l.
Proof.
  induction l as [|x l IH]; simpl; [done|].
  rewrite insert_desc_perm. by rewrite IH.
Qed.

(** Scores do not increase along the list. *)
Definition descending {A : Type} (l : list (Q * A)) : Prop :=
  StronglySorted (fun a b => (b.1 <= a.1)%Q) l.

Lemma insert_desc_descending {A : Type} (x : Q * A) (l : list (Q * A)) :
  descending l -> descending (insert_desc x l).
Proof.
  unfold descending. induction l as [|y l IH]; simpl; intros Hl.
  - repeat constructor.
  - apply StronglySorted_inv in Hl as [Hl Hy].
    destruct (Qltb x.1 y.1) eqn:Hlt.
    + apply Qltb_lt in Hlt. constructor; [by apply IH|].
      rewrite insert_desc_perm. constructor; [lra | done].
    + apply Qltb_ge in Hlt. constructor; [by constructor|].
      constructor; [done|]. eapply Forall_impl; [exact Hy|]. simpl. intros z Hz. lra.
Qed.

Lemma sort_desc_descending {A : Type} (l : list (Q * A)) : descending (sort_desc l).
Proof.
  induction l as [|x l IH]; simpl; [constructor | by apply insert_desc_descending].
Qed.

Lemma StronglySorted_take {A : Type} (R : A -> A -> Prop) (n : nat) (l : list A) :
  StronglySorted R l -> StronglySorted R (take n l).
Proof.
  revert n. induction l as [|x l IH]; intros [|n] Hl; simpl; try constructor.
  - apply IH. by apply StronglySorted_inv in Hl as [? _].
  - apply StronglySorted_inv in Hl as [_ Hx].
    rewrite Forall_forall in *. intros y Hy. apply Hx.
    by apply (subseteq_take n l).
Qed.

Lemma slice_to_take {A : Type} (l : list A) (k : Z) :
  exists n, slice_to l k = take n l /\ (0 <= k -> n = Z.to_nat k).
Proof.
  unfold slice_to. destruct (Z.leb_spec 0 k).
  - by exists (Z.to_nat k).
  - exists (Z.to_nat (Z.of_nat (length l) + k)). split; [done | lia].
Qed.

(** The identifiers written by [store] are not empty strings. *)
Lemma mem_id_truthy (t h : Z) : truthy (VStr (mem_id t h)) = true.
Proof. reflexivity. Qed.

(** The entry [l] is held in the store that the type of the memory
    selects. *)
Definition stored_in (m : memory) (l : nat) : Prop :=
  (memory_type m = "working" /\ l ∈ working_memory m) \/
  (memory_type m = "episodic" /\ l ∈ episodic_memory m) \/
  (memory_type m = "semantic" /\ exists key, (key, l) ∈ semantic_memory m).

Lemma stored_in_memories (m : memory) (l : nat) : stored_in m l -> l ∈ memories m.
Proof.
  unfold memories.
  intros [[Hty Hl] | [[Hty Hl] | [Hty [key Hl]]]]; rewrite Hty;
    cbn [String.eqb Ascii.eqb Bool.eqb andb]; [done | done |].
  apply list_elem_of_fmap. by exists (key, l).
Qed.

Section Recall.
Context (similarity : query -> dict -> Q).
Context (clock : nat -> Z) (objects : gmap nat dict) (q : query) (threshold : Q).

(** The stored item [l] meets the threshold. *)
Definition passes (l : nat) : bool :=
  Qle_bool threshold (similarity q (deref objects l)).

(** Number of items of [items] that meet the threshold and carry the
    identifier [id]. *)
Definition touched (items : list nat) (id : value) : nat :=
  length (filter (fun l => passes l = true /\ dict_get (deref objects l) "_id" = id) items).

Lemma touched_cons (l : nat) (items : list nat) (id : value) :
  touched (l :: items) id =
    ((if passes l then if decide (dict_get (deref objects l) "_id" = id) then 1 else 0 else 0)
     + touched items id)%nat.
Proof.
  unfold touched. rewrite filter_cons. destruct (passes l) eqn:Hp.
  - destruct (decide (dict_get (deref objects l) "_id" = id)) as [Hid|Hid].
    + by rewrite decide_True.
    + rewrite decide_False; [done | by intros [_ ?]].
  - rewrite decide_False; [done | by intros [? _]].
Qed.

Lemma touched_nil (id : value) : touched [] id = 0%nat.
Proof. reflexivity. Qed.

Lemma score_loop_spec (items : list nat) scored counts last reads :
  let r := score_loop similarity clock objects q threshold items scored counts last reads in
  r.1.1.1 = scored ++ ((fun l => (similarity q (deref objects l), l)) <$> filter (fun l => passes l = true) items) /\
  (forall id, default 0 (r.1.1.2 !! id) =
     default 0 (counts !! id) + (if truthy id then Z.of_nat (touched items id) else 0)).
Proof.
  revert scored counts last reads.
  induction items as [|l items IH]; intros scored counts last reads; cbn [score_loop].
  - simpl. split; [by rewrite app_nil_r|]. intros id. rewrite touched_nil. destruct (truthy id); simpl; lia.
  - cbv zeta. change (Qle_bool threshold (similarity q (deref objects l))) with (passes l).
    destruct (passes l) eqn:Hp.
    + rewrite filter_cons_True by done.
      destruct (truthy (dict_get (deref objects l) "_id")) eqn:Ht.
      * destruct (IH (scored ++ [(similarity q (deref objects l), l)])
          (<[dict_get (deref objects l) "_id" :=
               default 0 (counts !! dict_get (deref objects l) "_id") + 1]> counts)
          (<[dict_get (deref objects l) "_id" := clock reads]> last) (S reads)) as [H1 H2].
        split; [by rewrite H1, <- app_assoc|].
        intros id. rewrite H2, touched_cons, Hp.
        destruct (decide (dict_get (deref objects l) "_id" = id)) as [<-|Hne].
        -- rewrite lookup_insert_eq, Ht. simpl. lia.
        -- rewrite lookup_insert_ne by done. destruct (truthy id); lia.
      * destruct (IH (scored ++ [(similarity q (deref objects l), l)]) counts last reads)
          as [H1 H2].
        split; [by rewrite H1, <- app_assoc|].
        intros id. rewrite H2, touched_cons, Hp.
        destruct (decide (dict_get (deref objects l) "_id" = id)) as [<-|Hne].
        -- rewrite Ht. lia.
        -- destruct (truthy id); lia.
    + rewrite filter_cons_False by (by rewrite Hp).
      destruct (IH scored counts last reads) as [H1 H2].
      split; [done|]. intros id. rewrite H2, touched_cons, Hp. destruct (truthy id); lia.
Qed.

(** What [recall] returns and the access counts it leaves. *)
Lemma recall_spec (k : Z) (m : memory) :
  let r := recall similarity clock q k threshold objects m in
  r.2 = (slice_to (sort_desc ((fun l => (similarity q (deref objects l), l)) <$>
                     filter (fun l => passes l = true) (memories m))) k).*2 /\
  (forall id, default 0 (access_counts r.1 !! id) =
     default 0 (access_counts m !! id) +
     (if truthy id then Z.of_nat (touched (memories m) id) else 0)).
Proof.
  unfold recall.
  destruct (memories m) as [|l0 items0] eqn:Hmem.
  { simpl. split.
    - unfold slice_to. simpl. destruct (0 <=? k); by rewrite take_nil.
    - intros id. rewrite touched_nil. destruct (truthy id); simpl; lia. }
  rewrite <- Hmem.
  pose proof (score_loop_spec (memories m) [] (access_counts m) (last_access m) 0) as Hs.
  cbv zeta in Hs.
  destruct (score_loop similarity clock objects q threshold (memories m) []
              (access_counts m) (last_access m) 0) as [[[scored counts] last] reads].
  simpl in Hs. destruct Hs as [-> Hc]. by split.
Qed.

(** C4, amended.  For [k] not negative, [recall] returns at most [k]
    items; and for every [k], negative or not, every item returned scores
    at least the threshold and the scores do not increase along the list
    returned. *)
Theorem recall_bounded_sorted (k : Z) (m : memory) :
  (0 <= k ->
   Z.of_nat (length (recall similarity clock q k threshold objects m).2) <= k) /\
  Forall (fun l => (threshold <= similarity q (deref objects l))%Q)
    (recall similarity clock q k threshold objects m).2 /\
  StronglySorted
    (fun a b => (similarity q (deref objects b) <= similarity q (deref objects a))%Q)
    (recall similarity clock q k threshold objects m).2.
Proof.
  destruct (recall_spec k m) as [-> _].
  set (scored := _ <$> filter _ (memories m)).
  destruct (slice_to_take (sort_desc scored) k) as (n & -> & Hn).
  assert (Hall : Forall (fun sl : Q * nat =>
            sl.1 = similarity q (deref objects sl.2) /\ passes sl.2 = true) (sort_desc scored)).
  { rewrite sort_desc_perm. subst scored. rewrite Forall_fmap.
    apply Forall_forall. intros l Hl%list_elem_of_filter. simpl. tauto. }
  split; [|split].
  - intros Hk. rewrite length_fmap, length_take. rewrite (Hn Hk). lia.
  - rewrite Forall_fmap. eapply Forall_impl; [by apply Forall_take|].
    intros [s l] [_ Hp]. simpl in *. by apply Qle_bool_iff.
  - pose proof (sort_desc_descending scored) as Hd.
    apply (StronglySorted_take _ n) in Hd.
    apply (Forall_take _ n) in Hall.
    induction Hd as [|[s l] rest Hrest IH Hhd]; simpl; [constructor|].
    apply Forall_cons in Hall as [[Hs _] Hall]. simpl in Hs.
    constructor; [by apply IH|].
    rewrite Forall_fmap. rewrite Forall_forall in Hhd, Hall |- *.
    intros [s' l'] Hin. simpl. specialize (Hhd _ Hin). destruct (Hall _ Hin) as [Hs' _].
    simpl in *. by rewrite <- Hs, <- Hs'.
Qed.

(** When the stored items carry pairwise different identifiers: exactly
    one more for an item that meets the threshold, no change for one that
    does not. *)
Lemma touched_zero (items : list nat) (id : value) :
  id ∉ ((fun l => dict_get (deref objects l) "_id") <$> items) -> touched items id = 0%nat.
Proof.
  induction items as [|l items IH]; [done|].
  rewrite fmap_cons, not_elem_of_cons. intros [Hne Hid].
  rewrite touched_cons, IH by done. rewrite decide_False by done.
  by destruct (passes l).
Qed.

Lemma touched_distinct (items : list nat) (l : nat) :
  NoDup ((fun l => dict_get (deref objects l) "_id") <$> items) -> l ∈ items ->
  touched items (dict_get (deref objects l) "_id") = if passes l then 1%nat else 0%nat.
Proof.
  induction items as [|l' items IH]; intros Hnd Hl; [by apply not_elem_of_nil in Hl|].
  rewrite fmap_cons in Hnd. apply NoDup_cons in Hnd as [Hnotin Hnd].
  rewrite touched_cons.
  apply elem_of_cons in Hl as [-> | Hl].
  - rewrite decide_True by done. rewrite (touched_zero _ _ Hnotin). destruct (passes l'); lia.
  - rewrite (IH Hnd Hl).
    rewrite decide_False.
    + destruct (passes l'); lia.
    + intros Heq. apply Hnotin. rewrite Heq. apply list_elem_of_fmap. by exists l.
Qed.

Lemma recall_access_counts_distinct (k : Z) (m : memory) (l : nat) :
  NoDup ((fun l => dict_get (deref objects l) "_id") <$> memories m) ->
  l ∈ memories m -> truthy (dict_get (deref objects l) "_id") = true ->
  default 0 (access_counts (recall similarity clock q k threshold objects m).1
               !! dict_get (deref objects l) "_id") =
  default 0 (access_counts m !! dict_get (deref objects l) "_id") +
  (if passes l then 1 else 0).
Proof.
  intros Hnd Hl Ht. rewrite (proj2 (recall_spec k m)), Ht.
  rewrite (touched_distinct _ _ Hnd Hl). by destruct (passes l).
Qed.

(** C5, amended (entries with pairwise different identifiers written by
    [store]).  Whatever [k] is, the access count kept under an identifier
    grows by the number of stored entries that carry it, as a usable
    identifier, and meet the threshold.  Hence, when the stored entries
    carry pairwise different identifiers and [l] is a stored entry whose
    identifier was written by [store], the access count of [l] grows by
    exactly one if [l] meets the threshold — returned or not — and stays
    as it was if [l] is below the threshold. *)
Theorem recall_access_counts (k : Z) (m : memory) :
  (forall id,
     default 0 (access_counts (recall similarity clock q k threshold objects m).1 !! id) =
     default 0 (access_counts m !! id) +
     (if truthy id then Z.of_nat (touched (memories m) id) else 0)) /\
  (forall l t h,
     stored_in m l ->
     dict_get (deref objects l) "_id" = VStr (mem_id t h) ->
     NoDup ((fun l => dict_get (deref objects l) "_id") <$> memories m) ->
     default 0 (access_counts (recall similarity clock q k threshold objects m).1
                  !! dict_get (deref objects l) "_id") =
     default 0 (access_counts m !! dict_get (deref objects l) "_id") +
     (if Qle_bool threshold (similarity q (deref objects l)) then 1 else 0)).
Proof.
  split; [apply recall_spec|].
  intros l t h Hl Hid Hnd.
  apply (recall_access_counts_distinct k m l Hnd).
  - by apply stored_in_memories.
  - rewrite Hid. apply mem_id_truthy.
Qed.

End Recall.
(** *** [store] returns *)

Section StoreReturns.
Context (hash_str : dict -> Z).

(** The importance is defined as soon as the item carries a time stamp
    that is not in the future. *)
Lemma importance_ok m now (item : dict) t :
  item !! "_timestamp" = Some (VTime t) -> t <= now -> is_ok (importance m now item).
Proof.
  intros Hts Hle. unfold importance. rewrite Hts. cbn [default from_option]. unfold id.
  cbv beta iota zeta.
  assert (Hage : (0 <= (now - t) # 1000000)%Q).
  { unfold Qle. simpl. lia. }
  destruct (Qeq_bool _ 0%Q) eqn:Hz; [|done].
  apply Qeq_bool_iff in Hz. exfalso.
  assert (Hdiv : (0 <= ((now - t) # 1000000) / 3600)%Q).
  { apply Qle_shift_div_l; [reflexivity | lra]. }
  revert Hz Hdiv. generalize (((now - t) # 1000000) / 3600)%Q. intros d Hz Hd. lra.
Qed.

Lemma importance_scores_ok objects m now items :
  Forall (fun l => is_ok (importance m now (deref objects l))) items ->
  exists scores, importance_scores objects m now items = Ok scores.
Proof.
  induction 1 as [|l items Hl _ [scores IH]]; simpl; [by eexists|].
  destruct (importance m now (deref objects l)); [|done].
  rewrite IH. by eexists.
Qed.

Lemma deque_remove_ok objects dq x :
  x ∈ dq -> is_ok (deque_remove objects dq x).
Proof.
  induction dq as [|y dq IH]; [by intros ?%not_elem_of_nil|].
  intros Hx. simpl. case_decide as Heq; [done|].
  apply elem_of_cons in Hx as [-> | Hx]; [done|].
  specialize (IH Hx). by destruct (deque_remove objects dq x).
Qed.

Lemma forget_ok objects m now :
  Forall (fun l => is_ok (importance m now (deref objects l))) (episodic_memory m) ->
  is_ok (forget_least_important objects m now).
Proof.
  intros Hall. unfold forget_least_important.
  destruct (episodic_memory m) as [|l0 ep0] eqn:Hep; [done|]. rewrite <- Hep in *.
  destruct (importance_scores_ok _ _ _ _ Hall) as [scores Hsc]. rewrite Hsc.
  apply importance_scores_spec in Hsc as [Hsnd _].
  destruct (sort_asc scores) as [|[s0 least_important] rest] eqn:Hsort; [done|].
  apply sort_asc_least in Hsort as [Hin _].
  apply deque_remove_ok. rewrite <- Hsnd.
  apply list_elem_of_fmap. by exists (s0, least_important).
Qed.

(** [store] returns whenever the clock has not been set back: the items
    held carry time stamps, written by earlier calls, that are not later
    than the time read by the eviction. *)
Lemma store_ok clock item priority objects m :
  clock 0%nat <= clock 2%nat ->
  (forall l, l ∈ episodic_memory m -> l <> item ->
     exists t, deref objects l !! "_timestamp" = Some (VTime t) /\ t <= clock 2%nat) ->
  is_ok (store hash_str clock item priority objects m).
Proof.
  intros Hclock Hheld. unfold store. cbv zeta. rewrite generate_id_stamped.
  destruct (String.eqb (memory_type m) "working"); [done|].
  destruct (String.eqb (memory_type m) "episodic").
  2:{ by destruct (String.eqb (memory_type m) "semantic"). }
  destruct (capacity m <=? length (episodic_memory m))%nat; [|done].
  set (objects' := <[item := _]> objects).
  assert (Hok : is_ok (forget_least_important objects' m (clock 2%nat))).
  { apply forget_ok. apply Forall_forall. intros l Hl.
    destruct (decide (l = item)) as [->|Hne].
    - apply (importance_ok _ _ _ (clock 0%nat)); [|done].
      unfold deref, objects'. rewrite lookup_insert_eq. simpl.
      rewrite lookup_insert_ne by done. unfold stamped.
      do 2 (rewrite lookup_insert_ne by done). by rewrite lookup_insert_eq.
    - destruct (Hheld l Hl Hne) as (t & Hts & Hle).
      apply (importance_ok _ _ _ t); [|done].
      unfold deref, objects'. by rewrite lookup_insert_ne. }
  by destruct (forget_least_important objects' m (clock 2%nat)).
Qed.

End StoreReturns.

(** *** A worked scenario *)

(** Three dictionaries of the caller, a stand-in for Python's string hash,
    and an episodic memory of capacity 2 in which the first two have been
    stored, the second with a low priority. *)
Definition demo_objects : gmap nat dict :=
  {[ 1%nat := {["state" := VStr "kitchen"]};
     2%nat := {["note" := VStr "idle"]};
     3%nat := {["state" := VStr "hall"]} ]}.

Definition demo_hash (d : dict) : Z := Z.of_nat (size d) * 7919 + 12345.

Definition demo_clock (n : nat) : Z := 1700000000000000 + Z.of_nat n.

Definition demo_full : gmap nat dict * memory :=
  match stores demo_hash
          [(demo_clock, 1%nat, 1%Q); (fun n => demo_clock n + 10, 2%nat, (1 # 10)%Q)]
          demo_objects (init 2 "episodic") with
  | Ok r => r
  | Raise _ => (demo_objects, init 2 "episodic")
  end.

Definition demo_late (n : nat) : Z := demo_clock n + 3600000000.

Definition demo_after : gmap nat dict * memory :=
  match store demo_hash demo_late 3%nat 1%Q demo_full.1 demo_full.2 with
  | Ok r => r
  | Raise _ => demo_full
  end.

Lemma demo_store :
  store demo_hash demo_late 3%nat 1%Q demo_full.1 demo_full.2
    = Ok (demo_after.1, demo_after.2).
Proof. vm_cast_no_check (eq_refl (Ok (demo_after.1, demo_after.2))). Qed.

Lemma store_mutates_item_witness :
  deref demo_after.1 3%nat !! "_timestamp" = Some (VTime (demo_late 0%nat)) /\
  deref demo_after.1 3%nat !! "state" = deref demo_full.1 3%nat !! "state" /\
  last (episodic_memory demo_after.2) = Some 3%nat.
Proof.
  destruct (store_mutates_item demo_hash demo_late 3%nat 1%Q
              demo_full.1 demo_full.2 demo_after.1 demo_after.2 demo_store)
    as ((id & _ & Hts & _) & Hkeep & _ & _ & Hep & _).
  split; [exact Hts|]. split.
  - apply Hkeep. intros Hin. vm_compute in Hin.
    repeat (apply elem_of_cons in Hin as [Hin | Hin]; [discriminate Hin|]).
    by apply not_elem_of_nil in Hin.
  - apply Hep; [reflexivity | vm_compute; lia].
Defined.


(** What the scenario computes: the low-priority item 2 is evicted. *)
Example demo_eviction : episodic_memory demo_after.2 = [1%nat; 3%nat].
Proof. vm_compute. reflexivity. Qed.

Lemma recall_bounded_sorted_witness :
  Z.of_nat (length (recall calculate_similarity demo_clock (QDict ∅) 1 (1 # 2)
                      demo_after.1 demo_after.2).2) <= 1.
Proof.
  apply (proj1 (recall_bounded_sorted calculate_similarity demo_clock demo_after.1
                  (QDict ∅) (1 # 2) 1 demo_after.2)).
  lia.
Defined.

(** Counterexample to C4 as stated: with [k = -1] the slice
    [scored_memories[:k]] keeps all the scored items but the last, so two
    items meeting the threshold give a list of one item, more than [k]. *)
Lemma recall_negative_k :
  (recall calculate_similarity demo_clock (QDict ∅) (-1) (1 # 2)
     demo_after.1 demo_after.2).2 = [1%nat] /\
  -1 < Z.of_nat (length [1%nat]).
Proof. split; [vm_compute; reflexivity | simpl; lia]. Qed.

(** One dictionary stored twice in an episodic memory: the buffer holds it
    twice, under the identifier written by the second call. *)
Definition twice : gmap nat dict * memory :=
  match stores demo_hash
          [(demo_clock, 1%nat, 1%Q); (fun n => demo_clock n + 10, 1%nat, 1%Q)]
          demo_objects (init 5 "episodic") with
  | Ok r => r
  | Raise _ => (demo_objects, init 5 "episodic")
  end.

(** Counterexample to C5 as stated: the two entries meet the threshold,
    and one call of [recall] raises the access count of the item by 2, not
    by 1. *)
Lemma recall_shared_counter :
  episodic_memory twice.2 = [1%nat; 1%nat] /\
  Qle_bool (1 # 2) (calculate_similarity (QDict ∅) (deref twice.1 1%nat)) = true /\
  access_counts twice.2 !! dict_get (deref twice.1 1%nat) "_id" = None /\
  access_counts (recall calculate_similarity demo_clock (QDict ∅) 5 (1 # 2)
                   twice.1 twice.2).1 !! dict_get (deref twice.1 1%nat) "_id" = Some 2.
Proof. repeat split; vm_compute; reflexivity. Qed.

Lemma recall_access_counts_witness :
  default 0 (access_counts (recall calculate_similarity demo_clock (QDict ∅) 1 (1 # 2)
                              demo_after.1 demo_after.2).1
               !! dict_get (deref demo_after.1 3%nat) "_id") =
  default 0 (access_counts demo_after.2 !! dict_get (deref demo_after.1 3%nat) "_id") +
  (if Qle_bool (1 # 2) (calculate_similarity (QDict ∅) (deref demo_after.1 3%nat))
   then 1 else 0).
Proof.
  apply (proj2 (recall_access_counts calculate_similarity demo_clock demo_after.1
                  (QDict ∅) (1 # 2) 1 demo_after.2) 3%nat
           (demo_late 0%nat)
           (demo_hash (stamped (demo_late 0%nat) 1 (deref demo_full.1 3%nat)) `mod` 10000)).
  - right. left. split; [reflexivity|].
    vm_compute. apply list_elem_of_further, list_elem_of_here.
  - vm_compute. reflexivity.
  - vm_compute. apply NoDup_cons. split.
    + intros Hin. apply list_elem_of_singleton in Hin. discriminate Hin.
    + apply NoDup_singleton.
Defined.

(** The fourth scenario of the specification: two items scoring 0.95 and
    0.4, threshold 0.9, [k = 1]: the first is returned and counted, the
    second is neither. *)
Definition demo_similarity (q : query) (item : dict) : Q :=
  match item !! "state" with
  | Some (VStr "kitchen") => 95 # 100
  | _ => 4 # 10
  end.

Example demo_recall :
  let r := recall demo_similarity demo_clock (QValue VNone) 1 (9 # 10)
             demo_after.1 demo_after.2 in
  r.2 = [1%nat] /\
  access_counts r.1 !! dict_get (deref demo_after.1 1%nat) "_id" = Some 1 /\
  access_counts r.1 !! dict_get (deref demo_after.1 3%nat) "_id" = None.
Proof. vm_compute. repeat split; reflexivity. Qed.

End MemorySpec.

(** * Further properties of the inference engine *)

Module ReasoningExtra.
Import Reasoning ReasoningSpec.

(** *** Invariants of a run *)

(** A property of the knowledge, indexed by the depth of the pass being
    made, that every firing keeps holds after the loop. *)
Section RunInvariant.
Context (rs : list rule) (lo : Z) (I : Z -> kb -> Prop).
Hypothesis I_fire : forall d k ch r k' ch',
  lo < d -> r ∈ rs -> I d k -> fire d (k, ch) r = Ok (k', ch') -> I d k'.
Hypothesis I_next : forall d k, lo <= d -> I d k -> I (d + 1) k.

Lemma pass_inv (d : Z) (rs' : list rule) (k k' : kb) (ch ch' : bool) :
  lo < d -> rs' ⊆ rs -> I d k -> pass d rs' (k, ch) = Ok (k', ch') -> I d k'.
Proof.
  intros Hd. revert k ch. induction rs' as [|r rs' IHrs]; intros k ch Hsub Hk; cbn [pass].
  - by intros [= <- <-].
  - destruct (fire d (k, ch) r) as [[k1 ch1]|] eqn:Hf; [|done].
    intros Hp. apply (IHrs k1 ch1); [set_solver | | done].
    apply (I_fire d k ch r k1 ch1); [done | set_solver | done | done].
Qed.

Lemma fc_loop_inv (todo : nat) (d : Z) (k k' : kb) :
  lo <= d -> I d k -> fc_loop todo d rs k = Ok k' ->
  exists d', d <= d' <= d + Z.of_nat todo /\ I d' k'.
Proof.
  revert d k. induction todo as [|todo IHtodo]; intros d k Hd Hk; cbn [fc_loop].
  - intros [= <-]. exists d. split; [lia | done].
  - destruct (pass (d + 1) rs (k, false)) as [[k1 ch1]|] eqn:Hp; [|done].
    assert (Hk1 : I (d + 1) k1).
    { apply (pass_inv (d + 1) rs k k1 false ch1); [lia | done | by apply I_next | done]. }
    destruct ch1.
    + intros Hl. destruct (IHtodo (d + 1) k1) as (d' & Hd' & Hk'); [lia | done | done |].
      exists d'. split; [lia | done].
    + intros [= <-]. exists (d + 1). split; [lia | done].
Qed.

End RunInvariant.

Lemma infer_cases (e e' : engine) (out : list fact) :
  infer e = Ok (e', out) ->
  method e' = method e /\ max_depth e' = max_depth e /\ rules e' = rules e /\
  ((method e = "forward_chaining" /\
    fc_loop (Z.to_nat (max_depth e)) 0 (rules e) (start e) = Ok (know e') /\
    out = elements (derived_facts (know e'))) \/
   (method e <> "forward_chaining" /\ know e' = start e /\ out = [])).
Proof.
  intros Hinf. destruct (decide (method e = "forward_chaining")) as [Hm | Hm].
  - rewrite (infer_forward e Hm) in Hinf.
    destruct (fc_loop _ _ _ _) as [k'|] eqn:Hl; [|done].
    injection Hinf as <- <-. repeat split; try done. left. by repeat split.
  - rewrite (infer_other e Hm) in Hinf. injection Hinf as <- <-.
    repeat split; try done. right. by repeat split.
Qed.

(** A run used to instantiate the theorems below. *)
Lemma weather_infer :
  infer derived_confidence_engine =
    Ok (after_infer derived_confidence_engine, infer_output derived_confidence_engine).
Proof. vm_compute. reflexivity. Qed.

Lemma weather_standard : Forall is_standard (rules derived_confidence_engine).
Proof. repeat constructor. Qed.

(** *** [infer] only adds *)

(** X1.  A call of [infer] over rules built by [add_rule] removes no fact
    and leaves the confidence of every fact held before the call as it
    was; the rules, the method and the depth bound are unchanged. *)
Theorem infer_preserves (e e' : engine) (out : list fact) :
  Forall is_standard (rules e) ->
  infer e = Ok (e', out) ->
  facts (know e) ⊆ facts (know e') /\
  (forall f, f ∈ facts (know e) ->
     confidences (know e') !! f = confidences (know e) !! f) /\
  rules e' = rules e /\ method e' = method e /\ max_depth e' = max_depth e.
Proof.
  intros Hstd Hinf.
  destruct (infer_cases e e' out Hinf) as (Hm & Hd & Hr & Hcase).
  assert (Hgoal : facts (know e) ⊆ facts (know e') /\
    forall f, f ∈ facts (know e) -> confidences (know e') !! f = confidences (know e) !! f).
  2:{ destruct Hgoal. by repeat split. }
  destruct Hcase as [(_ & Hl & _) | (_ & -> & _)]; [|done].
  destruct (fc_loop_inv (rules e) 0
    (fun _ k => facts (know e) ⊆ facts k /\
       forall f, f ∈ facts (know e) -> confidences k !! f = confidences (know e) !! f)
    ) with (todo := Z.to_nat (max_depth e)) (d := 0) (k := start e) (k' := know e')
    as (d' & _ & Hk'); try done.
  intros d k ch r k1 ch1 _ Hr' [Hsub Hconf] Hf.
  rewrite Forall_forall in Hstd. specialize (Hstd r Hr').
  destruct r as [p c q|]; [|done].
  apply fire_cases in Hf as [[[= -> ->] _] | (m & _ & _ & Hc & [= -> ->])]; [done|].
  simpl. split; [set_solver|].
  intros f Hf. rewrite lookup_insert_ne; [by apply Hconf|].
  intros ->. apply Hc. by apply Hsub.
Qed.

Lemma infer_preserves_witness :
  facts (know derived_confidence_engine)
    ⊆ facts (know (after_infer derived_confidence_engine)).
Proof.
  pose proof weather_infer as Hinf. pose proof weather_standard as Hstd.
  exact (proj1 (infer_preserves _ _ _ Hstd Hinf)).
Defined.

(** *** What a call derives *)

(** Conclusions recorded in the inference chain, in order. *)
Definition conclusions (k : kb) : list fact := step_conclusion <$> inference_chain k.

Lemma derived_new_loop (todo : nat) (d : Z) (rs : list rule) (F0 : gset fact) (k k' : kb) :
  Forall is_standard rs ->
  facts k = F0 ∪ derived_facts k -> derived_facts k ## F0 ->
  NoDup (conclusions k) -> (forall f, f ∈ conclusions k <-> f ∈ derived_facts k) ->
  fc_loop todo d rs k = Ok k' ->
  facts k' = F0 ∪ derived_facts k' /\ derived_facts k' ## F0 /\
  NoDup (conclusions k') /\ (forall f, f ∈ conclusions k' <-> f ∈ derived_facts k').
Proof.
  intros Hstd H1 H2 H3 H4 Hl.
  destruct (fc_loop_inv rs d
    (fun _ k => facts k = F0 ∪ derived_facts k /\ derived_facts k ## F0 /\
       NoDup (conclusions k) /\ (forall f, f ∈ conclusions k <-> f ∈ derived_facts k)))
    with (todo := todo) (d := d) (k := k) (k' := k') as (d' & _ & Hk'); try done.
  clear H1 H2 H3 H4 Hl.
  intros d0 k0 ch r k1 ch1 _ Hr (Hf1 & Hf2 & Hf3 & Hf4) Hf.
  assert (Hs : is_standard r) by (rewrite Forall_forall in Hstd; auto).
  destruct r as [p c q|]; [|done].
  apply fire_cases in Hf as [[[= -> ->] _] | (m & _ & _ & Hc & [= -> ->])]; [done|].
  unfold conclusions in *. simpl. rewrite fmap_app. simpl.
  rewrite Hf1 in Hc. apply not_elem_of_union in Hc as [HcF HcD].
  repeat split.
  - rewrite Hf1. rewrite !(assoc_L (∪)). by rewrite (comm_L (∪) {[c]} F0).
  - apply disjoint_union_l. split; [by apply disjoint_singleton_l | done].
  - apply NoDup_app. repeat split; [done | | apply NoDup_singleton].
    intros f Hf ->%list_elem_of_singleton. by apply HcD, Hf4.
  - rewrite elem_of_app, list_elem_of_singleton, Hf4, elem_of_union, elem_of_singleton.
    tauto.
  - rewrite elem_of_app, list_elem_of_singleton, Hf4, elem_of_union, elem_of_singleton.
    tauto.
Qed.

Lemma derived_new_start (e : engine) :
  facts (start e) = facts (know e) ∪ derived_facts (start e) /\
  derived_facts (start e) ## facts (know e) /\
  NoDup (conclusions (start e)) /\
  (forall f, f ∈ conclusions (start e) <-> f ∈ derived_facts (start e)).
Proof.
  unfold conclusions. simpl. repeat split.
  - by rewrite (right_id_L ∅ (∪)).
  - apply disjoint_empty_l.
  - constructor.
  - by intros ?%elem_of_nil.
  - by intros ?%elem_of_empty.
Qed.

(** X2.  After [infer] over rules built by [add_rule], the facts are the
    facts held before the call together with the derived ones, no derived
    fact was held before, the returned list has each derived fact once
    and is a rearrangement of the conclusions of the inference chain, and
    [get_stats] reports as many derived facts as inference steps and that
    many more facts than before the call. *)
Theorem infer_derived_new (e e' : engine) (out : list fact) :
  Forall is_standard (rules e) ->
  infer e = Ok (e', out) ->
  facts (know e') = facts (know e) ∪ derived_facts (know e') /\
  derived_facts (know e') ## facts (know e) /\
  NoDup out /\
  out ≡ₚ conclusions (know e') /\
  num_derived_facts (get_stats e') = inference_steps (get_stats e') /\
  num_facts (get_stats e') =
    (num_facts (get_stats e) + num_derived_facts (get_stats e'))%nat.
Proof.
  intros Hstd Hinf.
  destruct (infer_cases e e' out Hinf) as (_ & _ & _ & Hcase).
  assert (Hall : facts (know e') = facts (know e) ∪ derived_facts (know e') /\
    derived_facts (know e') ## facts (know e) /\
    NoDup (conclusions (know e')) /\
    (forall f, f ∈ conclusions (know e') <-> f ∈ derived_facts (know e')) /\
    out = elements (derived_facts (know e'))).
  { destruct (derived_new_start e) as (S1 & S2 & S3 & S4).
    destruct Hcase as [(_ & Hl & ->) | (_ & -> & ->)].
    - by destruct (derived_new_loop (Z.to_nat (max_depth e)) 0 (rules e) (facts (know e))
                     (start e) (know e') Hstd S1 S2 S3 S4 Hl) as (? & ? & ? & ?).
    - simpl. by rewrite elements_empty. }
  destruct Hall as (H1 & H2 & H3 & H4 & ->).
  assert (Hperm : elements (derived_facts (know e')) ≡ₚ conclusions (know e')).
  { apply NoDup_Permutation; [apply NoDup_elements | done |].
    intros f. rewrite elem_of_elements. by rewrite H4. }
  repeat split; [done | done | apply NoDup_elements | done | |].
  - unfold get_stats. simpl. unfold size, set_size. simpl.
    rewrite Hperm. unfold conclusions. by rewrite length_fmap.
  - unfold get_stats. simpl. rewrite H1 at 1. by apply size_union.
Qed.

Lemma infer_derived_new_witness :
  infer_output derived_confidence_engine
    ≡ₚ conclusions (know (after_infer derived_confidence_engine)).
Proof.
  pose proof weather_infer as Hinf. pose proof weather_standard as Hstd.
  exact (proj1 (proj2 (proj2 (proj2 (infer_derived_new _ _ _ Hstd Hinf))))).
Defined.

(** *** Soundness and completeness *)

(** Facts that follow from the facts [F0] by the rules [rs]. *)
Inductive entailed (rs : list rule) (F0 : gset fact) : fact -> Prop :=
| entailed_fact (f : fact) : f ∈ F0 -> entailed rs F0 f
| entailed_rule (p : list fact) (c : fact) (q : Q) :
    Rule p c q ∈ rs -> (forall f, f ∈ p -> entailed rs F0 f) -> entailed rs F0 c.

(** X3.  Soundness: every fact held after [infer] over rules built by
    [add_rule] follows from the facts held before the call by the rules
    of the engine. *)
Theorem infer_sound (e e' : engine) (out : list fact) (f : fact) :
  Forall is_standard (rules e) ->
  infer e = Ok (e', out) ->
  f ∈ facts (know e') ->
  entailed (rules e) (facts (know e)) f.
Proof.
  intros Hstd Hinf.
  destruct (infer_cases e e' out Hinf) as (_ & _ & _ & Hcase).
  revert f.
  destruct Hcase as [(_ & Hl & _) | (_ & -> & _)].
  2:{ intros f Hf. by apply entailed_fact. }
  destruct (fc_loop_inv (rules e) 0
    (fun _ k => forall f, f ∈ facts k -> entailed (rules e) (facts (know e)) f))
    with (todo := Z.to_nat (max_depth e)) (d := 0) (k := start e) (k' := know e')
    as (d' & _ & Hk'); try done.
  - intros d k ch r k1 ch1 _ Hr Hk Hf.
    assert (Hs : is_standard r) by (rewrite Forall_forall in Hstd; auto).
    destruct r as [p c q|]; [|done].
    apply fire_cases in Hf as [[[= -> ->] _] | (m & _ & Hsat & Hc & [= -> ->])]; [done|].
    simpl. intros f [->%elem_of_singleton | Hf]%elem_of_union; [|by apply Hk].
    apply (entailed_rule _ _ p c q Hr).
    apply all_satisfied_Forall in Hsat. rewrite Forall_forall in Hsat.
    intros g Hg. by apply Hk, Hsat.
  - intros f Hf. by apply entailed_fact.
Qed.

Lemma infer_sound_witness :
  entailed (rules derived_confidence_engine) (facts (know derived_confidence_engine))
    ("weather", "clear").
Proof.
  pose proof weather_infer as Hinf. pose proof weather_standard as Hstd.
  apply (infer_sound _ _ _ ("weather", "clear") Hstd Hinf).
  vm_compute. reflexivity.
Defined.

Lemma fc_loop_facts (todo : nat) (d : Z) (rs : list rule) (k k' : kb) :
  Forall is_standard rs -> fc_loop todo d rs k = Ok k' -> facts k ⊆ facts k'.
Proof.
  intros Hstd Hl.
  destruct (fc_loop_inv rs d (fun _ k1 => facts k ⊆ facts k1))
    with (todo := todo) (d := d) (k := k) (k' := k') as (d' & _ & Hk'); try done.
  intros d0 k0 ch r k1 ch1 _ Hr Hk Hf.
  assert (Hs : is_standard r) by (rewrite Forall_forall in Hstd; auto).
  destruct r as [p c q|]; [|done].
  apply fire_cases in Hf as [[[= -> ->] _] | (m & _ & _ & _ & [= -> ->])]; [done|].
  simpl. set_solver.
Qed.

(** X4.  Completeness, for rules built by [add_rule] (no rule added by
    [add_custom_rule]): when the engine chains forward and has no more
    rules than [max_depth] allows passes, a call of [infer] that returns
    leaves every fact that follows from the facts held before by the rules
    of the engine. *)
Theorem infer_complete (e e' : engine) (out : list fact) (f : fact) :
  Forall is_standard (rules e) ->
  method e = "forward_chaining" ->
  Z.of_nat (length (rules e)) <= max_depth e ->
  infer e = Ok (e', out) ->
  entailed (rules e) (facts (know e)) f ->
  f ∈ facts (know e').
Proof.
  intros Hstd Hm Hlen Hinf.
  destruct (infer_cases e e' out Hinf) as (_ & _ & _ & [(_ & Hl & _) | (Hm' & _)]); [|done].
  assert (Hsat : saturated (know e') (rules e)).
  { apply (fc_loop_saturates _ _ _ _ _ Hstd) with (2 := Hl).
    pose proof (pending_le_length (start e) (rules e)). lia. }
  pose proof (fc_loop_facts _ _ _ _ _ Hstd Hl) as Hsub.
  induction 1 as [g Hg | p c q Hr _ IH].
  - by apply Hsub.
  - unfold saturated in Hsat. rewrite Forall_forall in Hsat.
    specialize (Hsat _ Hr). simpl in Hsat.
    destruct (decide (c ∈ facts (know e'))) as [|Hn]; [done|].
    exfalso. apply Hsat. split; [|done].
    apply all_satisfied_Forall, Forall_forall. exact IH.
Qed.

Lemma infer_complete_witness :
  ("weather", "clear") ∈ facts (know (after_infer derived_confidence_engine)).
Proof.
  pose proof weather_infer as Hinf. pose proof weather_standard as Hstd.
  apply (infer_complete _ _ _ ("weather", "clear") Hstd eq_refl) with (2 := Hinf).
  - vm_compute. discriminate.
  - apply (entailed_rule _ _ [("sky", "blue"); ("sun", "up")] _ (9 # 10)).
    + vm_compute. apply list_elem_of_here.
    + intros f Hf. apply entailed_fact.
      apply elem_of_cons in Hf as [-> | Hf]; [vm_compute; reflexivity|].
      apply list_elem_of_singleton in Hf as ->. vm_compute. reflexivity.
Defined.

(** *** The inference chain *)

Definition nondecreasing (l : list step) : Prop :=
  StronglySorted (fun a b => step_depth a <= step_depth b) l.

Lemma nondecreasing_snoc (l : list step) (s : step) :
  nondecreasing l -> Forall (fun a => step_depth a <= step_depth s) l ->
  nondecreasing (l ++ [s]).
Proof.
  unfold nondecreasing. induction 1 as [|a l Hl IH Ha]; intros Hs; simpl.
  - repeat constructor.
  - apply Forall_cons in Hs as [Has Hs]. constructor; [by apply IH|].
    apply Forall_app. split; [done | by constructor].
Qed.

(** X5.  The steps of the inference chain left by [infer] over rules
    built by [add_rule] carry the number of the pass that made them: the
    depths lie between 1 and [max_depth] and never decrease along the
    chain, and every step has at least one premise. *)
Theorem chain_depths (e e' : engine) (out : list fact) :
  Forall is_standard (rules e) ->
  infer e = Ok (e', out) ->
  Forall (fun s => 1 <= step_depth s <= max_depth e /\ step_premises s <> [])
    (inference_chain (know e')) /\
  nondecreasing (inference_chain (know e')).
Proof.
  intros Hstd Hinf.
  destruct (infer_cases e e' out Hinf) as (_ & _ & _ & Hcase).
  destruct Hcase as [(_ & Hl & _) | (_ & -> & _)].
  2:{ simpl. split; constructor. }
  destruct (fc_loop_inv (rules e) 0
    (fun d k => Forall (fun s => 1 <= step_depth s <= d /\ step_premises s <> [])
                  (inference_chain k) /\
                nondecreasing (inference_chain k)))
    with (todo := Z.to_nat (max_depth e)) (d := 0) (k := start e) (k' := know e')
    as (d' & Hd' & Hall & Hsort); try done.
  - intros d k ch r k1 ch1 Hd Hr [Hk1 Hk2] Hf.
    assert (Hs : is_standard r) by (rewrite Forall_forall in Hstd; auto).
    destruct r as [p c q|]; [|done].
    apply fire_cases in Hf as [[[= -> ->] _] | (m & Hm & _ & _ & [= -> ->])]; [done|].
    simpl. split.
    + apply Forall_app. split; [done|]. constructor; [|constructor]. simpl.
      split; [lia|]. by intros ->.
    + apply nondecreasing_snoc; [done|]. simpl.
      eapply Forall_impl; [exact Hk1|]. simpl. intros s [? _]. lia.
  - intros d k _ [Hk1 Hk2]. split; [|done].
    eapply Forall_impl; [exact Hk1|]. simpl. intros s [? ?]. split; [lia | done].
  - simpl. split; constructor.
  - split; [|done]. eapply Forall_impl; [exact Hall|]. simpl.
    intros s [? ?]. split; [lia | done].
Qed.

Lemma chain_depths_witness :
  nondecreasing (inference_chain (know (after_infer derived_confidence_engine))).
Proof.
  pose proof weather_infer as Hinf. pose proof weather_standard as Hstd.
  exact (proj2 (chain_depths _ _ _ Hstd Hinf)).
Defined.

(** *** Exceptions *)

Definition premiseless (r : rule) : Prop :=
  match r with Rule [] _ _ => True | _ => False end.

Lemma fire_raise (d : Z) (st : kb * bool) (r : rule) (x : exn) :
  fire d st r = Raise x -> x = ValueError /\ premiseless r.
Proof.
  destruct st as [k ch]. destruct r as [p c q | n cond act]; simpl.
  - destruct (all_satisfied k p); [|done].
    destruct (bool_decide (c ∈ facts k)); [done|].
    destruct p as [|p0 p]; [by intros [= <-] | done].
  - by destruct (cond k).
Qed.

Lemma pass_raise (d : Z) (rs : list rule) (st : kb * bool) (x : exn) :
  pass d rs st = Raise x -> x = ValueError /\ Exists premiseless rs.
Proof.
  revert st. induction rs as [|r rs IH]; intros st; cbn [pass]; [done|].
  destruct (fire d st r) as [st'|y] eqn:Hf.
  - intros [-> H]%IH. split; [done | by apply Exists_cons_tl].
  - intros [= ->]. apply fire_raise in Hf as [-> Hr].
    split; [done | by apply Exists_cons_hd].
Qed.

Lemma fc_loop_raise (todo : nat) (d : Z) (rs : list rule) (k : kb) (x : exn) :
  fc_loop todo d rs k = Raise x -> x = ValueError /\ Exists premiseless rs.
Proof.
  revert d k. induction todo as [|todo IH]; intros d k; cbn [fc_loop]; [done|].
  destruct (pass (d + 1) rs (k, false)) as [[k1 ch1]|y] eqn:Hp.
  - destruct ch1; [apply IH | done].
  - intros [= ->]. by apply pass_raise in Hp.
Qed.

(** X6.  The only exception [infer] raises is [ValueError] (from [min] of
    an empty list), and it raises it only when the engine chains forward
    and holds a rule with no premises; with at least one premise in every
    rule, [infer] returns. *)
Theorem infer_raises_only (e : engine) (x : exn) :
  infer e = Raise x ->
  x = ValueError /\ method e = "forward_chaining" /\ Exists premiseless (rules e).
Proof.
  intros Hinf. destruct (decide (method e = "forward_chaining")) as [Hm | Hm].
  - rewrite (infer_forward e Hm) in Hinf.
    destruct (fc_loop _ _ _ _) as [k'|y] eqn:Hl; [done|].
    injection Hinf as ->. apply fc_loop_raise in Hl as [-> H]. by repeat split.
  - by rewrite (infer_other e Hm) in Hinf.
Qed.

(** An engine with one rule, which has no premises. *)
Definition bare_engine : engine :=
  add_rule [] ("sky", "blue") 1 (init "forward_chaining" 10).

Lemma infer_raises_only_witness :
  ValueError = ValueError /\ method bare_engine = "forward_chaining" /\
  Exists premiseless (rules bare_engine).
Proof. apply (infer_raises_only bare_engine ValueError). vm_compute. reflexivity. Defined.

(** One pass applies every rule whose premises hold when the pass starts. *)
Lemma pass_applies (d : Z) (rs : list rule) (k k' : kb) (ch ch' : bool) p c q :
  Forall is_standard rs -> Rule p c q ∈ rs ->
  Forall (fun f => f ∈ facts k) p ->
  pass d rs (k, ch) = Ok (k', ch') ->
  facts k ⊆ facts k' /\ c ∈ facts k'.
Proof.
  intros Hstd Hr Hp Hpass.
  assert (Hsub : forall rs' k0 ch0, Forall is_standard rs' ->
            pass d rs' (k0, ch0) = Ok (k', ch') -> facts k0 ⊆ facts k').
  { intros rs' k0 ch0 Hstd' Hp'.
    by destruct (pass_progress d rs' rs' k0 k' ch0 ch' Hstd') as [? _]. }
  split; [by apply (Hsub rs k ch)|].
  revert k ch Hp Hpass. induction rs as [|r rs IH]; intros k ch Hp; cbn [pass].
  { by apply elem_of_nil in Hr. }
  apply Forall_cons in Hstd as [Hs Hstd].
  destruct (fire d (k, ch) r) as [[k1 ch1]|] eqn:Hf; [|done].
  intros Hpass.
  destruct r as [p1 c1 q1|]; [|done].
  pose proof Hf as Hf'.
  apply fire_cases in Hf as [[[= -> ->] Hne] | (m & _ & _ & _ & [= -> ->])].
  - apply elem_of_cons in Hr as [[= <- <- <-] | Hr].
    + apply (Hsub rs k ch Hstd Hpass).
      destruct (decide (c ∈ facts k)) as [|Hn]; [done|].
      exfalso. apply Hne. split; [by apply all_satisfied_Forall | done].
    + by apply (IH Hstd Hr k ch).
  - apply elem_of_cons in Hr as [[= <- <- <-] | Hr].
    + apply (Hsub rs _ _ Hstd Hpass). simpl. set_solver.
    + apply (IH Hstd Hr _ _) with (2 := Hpass). simpl.
      eapply Forall_impl; [exact Hp|]. simpl. set_solver.
Qed.

Lemma infer_applies_aux (e e' : engine) (out : list fact) p c q :
  Forall is_standard (rules e) ->
  method e = "forward_chaining" ->
  1 <= max_depth e ->
  infer e = Ok (e', out) ->
  Rule p c q ∈ rules e ->
  Forall (fun f => f ∈ facts (know e)) p ->
  c ∈ facts (know e').
Proof.
  intros Hstd Hm Hd Hinf Hr Hp.
  destruct (infer_cases e e' out Hinf) as (_ & _ & _ & [(_ & Hl & _) | (Hm' & _)]); [|done].
  destruct (Z.to_nat (max_depth e)) as [|todo] eqn:Htodo; [lia|].
  cbn [fc_loop] in Hl.
  destruct (pass (0 + 1) (rules e) (start e, false)) as [[k1 ch1]|] eqn:Hpass; [|done].
  destruct (pass_applies (0 + 1) (rules e) (start e) k1 false ch1 p c q Hstd Hr Hp Hpass)
    as [_ Hc].
  destruct ch1.
  - by apply (fc_loop_facts _ _ _ _ _ Hstd Hl).
  - by injection Hl as <-.
Qed.

(** X7.  For rules built by [add_rule] (no rule added by
    [add_custom_rule]): with forward chaining and [max_depth] at least 1, a
    call of [infer] that returns has applied every rule whose premises were
    all held before the call: its conclusion is a fact afterwards. *)
Theorem infer_applies (e e' : engine) (out : list fact) p c q :
  Forall is_standard (rules e) ->
  method e = "forward_chaining" ->
  1 <= max_depth e ->
  infer e = Ok (e', out) ->
  Rule p c q ∈ rules e ->
  Forall (fun f => f ∈ facts (know e)) p ->
  c ∈ facts (know e').
Proof. apply infer_applies_aux. Qed.

Lemma infer_applies_witness :
  ("weather", "clear") ∈ facts (know (after_infer derived_confidence_engine)).
Proof.
  pose proof weather_infer as Hinf. pose proof weather_standard as Hstd.
  apply (infer_applies _ _ _ [("sky", "blue"); ("sun", "up")] ("weather", "clear") (9 # 10)
           Hstd eq_refl) with (2 := Hinf).
  - vm_compute. discriminate.
  - vm_compute. apply list_elem_of_here.
  - repeat constructor; vm_compute; reflexivity.
Defined.

(** X8.  For rules built by [add_rule] (no rule added by
    [add_custom_rule]): a rule without premises whose conclusion is not yet
    a fact and is the conclusion of no rule with premises makes [infer]
    raise [ValueError] as soon as the engine chains forward with
    [max_depth] at least 1. *)
Theorem premiseless_rule_raises (e : engine) (c : fact) (q : Q) :
  Forall is_standard (rules e) ->
  method e = "forward_chaining" ->
  1 <= max_depth e ->
  Rule [] c q ∈ rules e ->
  c ∉ facts (know e) ->
  (forall p q', Rule p c q' ∈ rules e -> p = []) ->
  infer e = Raise ValueError.
Proof.
  intros Hstd Hm Hd Hr Hc Honly.
  destruct (infer e) as [[e' out]|x] eqn:Hinf.
  2:{ rewrite (infer_forward e Hm) in Hinf.
      destruct (fc_loop _ _ _ _) as [k'|y] eqn:Hl; [done|].
      injection Hinf as ->. by apply fc_loop_raise in Hl as [-> _]. }
  exfalso.
  assert (Hc' : c ∈ facts (know e')).
  { apply (infer_applies_aux e e' out [] c q); try done. }
  destruct (infer_cases e e' out Hinf) as (_ & _ & _ & [(_ & Hl & _) | (Hm' & _)]); [|done].
  assert (Hok : chain_ok (rules e) (know e')).
  { apply (chain_ok_loop _ _ _ _ _ Hstd Hl). split; [constructor | set_solver]. }
  destruct (derived_new_start e) as (S1 & S2 & S3 & S4).
  destruct (derived_new_loop (Z.to_nat (max_depth e)) 0 (rules e) (facts (know e))
              (start e) (know e') Hstd S1 S2 S3 S4 Hl) as (Hfacts & _ & _ & _).
  rewrite Hfacts in Hc'. apply elem_of_union in Hc' as [? | Hder]; [done|].
  destruct Hok as [Hjust Hsteps].
  destruct (Hsteps c Hder) as (s & Hs & Hsc).
  rewrite Forall_forall in Hjust.
  destruct (Hjust s Hs) as (q' & m & Hrule & _ & _ & Hmin & _).
  rewrite Hsc in Hrule. rewrite (Honly _ _ Hrule) in Hmin. done.
Qed.

Lemma premiseless_rule_raises_witness : infer bare_engine = Raise ValueError.
Proof.
  apply (premiseless_rule_raises bare_engine ("sky", "blue") 1).
  - repeat constructor.
  - reflexivity.
  - vm_compute. discriminate.
  - apply list_elem_of_here.
  - apply not_elem_of_empty.
  - intros p q' Hr. apply list_elem_of_singleton in Hr. by injection Hr as ->.
Defined.

(** *** Queries *)

Lemma query_spec (s p : string) (c : Q) (e : engine) :
  (p, c) ∈ query s e <-> (s, p) ∈ facts (know e) /\ c = conf_of (know e) (s, p).
Proof.
  unfold query. rewrite list_elem_of_fmap. split.
  - intros ([s' p'] & [= <- ->] & [Hs Hf%elem_of_elements]%list_elem_of_filter).
    simpl in Hs. by subst.
  - intros [Hf ->]. exists (s, p). split; [done|].
    apply list_elem_of_filter. split; [done | by apply elem_of_elements].
Qed.

(** X9.  After [add_fact(s, p, c)], [query(s)] lists the predicate [p]
    with the confidence [c] and with no other confidence, also when the
    fact was held before with another confidence; the entries of every
    other fact are as before. *)
Theorem query_add_fact (s p : string) (c : Q) (e : engine) :
  (p, c) ∈ query s (add_fact s p c e) /\
  (forall c', (p, c') ∈ query s (add_fact s p c e) -> c' = c) /\
  (forall s' p' c', (s', p') <> (s, p) ->
     (p', c') ∈ query s' (add_fact s p c e) <-> (p', c') ∈ query s' e).
Proof.
  assert (Hc : conf_of (know (add_fact s p c e)) (s, p) = c).
  { unfold conf_of, add_fact. simpl. by rewrite lookup_insert_eq. }
  repeat split.
  - apply query_spec. split; [|done]. unfold add_fact. simpl. set_solver.
  - intros c' [_ ->]%query_spec. done.
  - intros [Hf ->]%query_spec. apply query_spec.
    unfold add_fact, conf_of in *. simpl in *.
    rewrite lookup_insert_ne in * by done. split; [|done].
    apply elem_of_union in Hf as [Hf%elem_of_singleton | Hf]; [congruence | done].
  - intros [Hf ->]%query_spec. apply query_spec.
    unfold add_fact, conf_of. simpl.
    rewrite lookup_insert_ne by done. split; [|done]. by apply elem_of_union_r.
Qed.

End ReasoningExtra.

(** * Further properties of the planner *)

Module PlannerExtra.
Import Planner PlannerSpec AStarSpec.

(** *** What the searches return *)

Section Runs.
Context (acts : list action) (h : option (state -> state -> Z)) (goal : state).
Context (initial_state : state) (n0 : Z).

(** [path] names a sequence of registered actions that leads from the
    initial state to [s] at cost [c]. *)
Definition reached (s : state) (path : list string) (c : Z) : Prop :=
  exists plan, name <$> plan = path /\ reaches acts initial_state plan s c.

(** What is known of a tuple waiting in a frontier when [nodes] states have
    been taken out since the counter stood at [n0]. *)
Definition waiting (nodes : Z) (s : state) (path : list string) (c : Z) : Prop :=
  reached s path c /\ Z.of_nat (length path) <= nodes - n0.

(** What is known of a finished run started with budget [budget] at
    [nodes]. *)
Definition run_ok (budget : nat) (nodes : Z) (r : search) : Prop :=
  nodes <= explored r <= nodes + Z.of_nat budget /\
  forall path c, result_of r = Found path c ->
    is_plan acts goal initial_state path c /\
    Z.of_nat (length path) < explored r - n0.

Lemma run_ok_step (budget : nat) (nodes : Z) (r : search) :
  run_ok budget (nodes + 1) r -> run_ok (S budget) nodes r.
Proof. intros [Hn Hf]. split; [lia | done]. Qed.

Lemma run_ok_noplan (budget : nat) (nodes : Z) (trace : list state) :
  run_ok budget nodes (Search NoPlan nodes trace).
Proof. split; [simpl; lia | done]. Qed.

Lemma run_ok_raised (budget : nat) (nodes : Z) (trace : list state) (e : exn) :
  run_ok (S budget) nodes (Search (Raised e) (nodes + 1) trace).
Proof. split; [simpl; lia | done]. Qed.

Lemma run_ok_found (budget : nat) (nodes : Z) (trace : list state) s path c :
  waiting nodes s path c -> is_goal s goal = true ->
  run_ok (S budget) nodes (Search (Found path c) (nodes + 1) trace).
Proof.
  intros [(plan & Hn & Hr) Hlen] Hg. split; [simpl; lia|].
  intros path' c' [= <- <-]. simpl. split; [by exists plan, s | lia].
Qed.

Lemma waiting_next (nodes : Z) s path c :
  waiting nodes s path c -> waiting (nodes + 1) s path c.
Proof. intros [Hr Hl]. split; [done | lia]. Qed.

Lemma waiting_succ (nodes : Z) s path c (a : action) :
  waiting nodes s path c -> a ∈ acts -> preconditions a s = true ->
  waiting (nodes + 1) (effects a s) (path ++ [name a]) (c + cost a).
Proof.
  intros [(plan & Hn & Hr) Hlen] Ha Hpre. split.
  - exists (plan ++ [a]). split; [by rewrite fmap_app, Hn | by apply reaches_snoc].
  - rewrite length_app. simpl. lia.
Qed.

(** **** Informed search *)

Lemma a_star_loop_step (budget : nat) (frontier : list entry) visited nodes trace :
  frontier <> [] ->
  a_star_loop acts h goal (S budget) frontier visited nodes trace =
    match Heapq.heappop entry_lt frontier with
    | Raise e => Search (Raised e) nodes trace
    | Ok ((f_score, current_state, path, g_cost), frontier') =>
        if bool_decide (state_to_key current_state ∈ visited) then
          a_star_loop acts h goal budget frontier' visited (nodes + 1) trace
        else if is_goal current_state goal then
          Search (Found path g_cost) (nodes + 1) (trace ++ [current_state])
        else
          match a_star_expand h goal acts frontier' current_state path g_cost with
          | Raise e => Search (Raised e) (nodes + 1) (trace ++ [current_state])
          | Ok frontier'' =>
              a_star_loop acts h goal budget frontier''
                ({[state_to_key current_state]} ∪ visited) (nodes + 1)
                (trace ++ [current_state])
          end
    end.
Proof. by destruct frontier. Qed.

Lemma a_star_loop_ok (budget : nat) (frontier : list entry) visited nodes trace :
  HeapqSpec.heap_ok f_of frontier ->
  (forall f s path g, (f, s, path, g) ∈ frontier -> waiting nodes s path g) ->
  run_ok budget nodes (a_star_loop acts h goal budget frontier visited nodes trace).
Proof.
  revert frontier visited nodes trace.
  induction budget as [|budget IH]; intros frontier visited nodes trace Hheap Hent.
  { destruct frontier; apply run_ok_noplan. }
  destruct (decide (frontier = [])) as [-> | Hne]; [apply run_ok_noplan|].
  rewrite (a_star_loop_step _ _ _ _ _ Hne).
  destruct (Heapq.heappop entry_lt frontier) as [[[[[f s] p] g] frontier']|e] eqn:Hpop.
  2:{ split; [simpl; lia | done]. }
  apply (HeapqSpec.heappop_spec entry_lt f_of entry_lt_true entry_lt_false)
    in Hpop as (Hheap' & Hperm & _); [|done].
  assert (Hs : waiting nodes s p g).
  { apply (Hent f). rewrite Hperm. by left. }
  assert (Hent' : forall f' s' p' g', (f', s', p', g') ∈ frontier' ->
            waiting (nodes + 1) s' p' g').
  { intros f' s' p' g' He. apply waiting_next, (Hent f'). rewrite Hperm. by right. }
  case_bool_decide as Hvis.
  { apply run_ok_step. by apply IH. }
  destruct (is_goal s goal) eqn:Hgoal.
  { by apply (run_ok_found _ _ _ s). }
  destruct (a_star_expand h goal acts frontier' s p g) as [frontier''|e] eqn:Hexp.
  2:{ apply run_ok_raised. }
  apply a_star_expand_spec in Hexp as [Hheap'' Hmem]; [|done].
  apply run_ok_step. apply IH; [done|].
  intros f' s' p' g' [He | (a & Ha & Hpre & He)]%Hmem; [by apply (Hent' f')|].
  injection He as -> -> -> ->. by apply waiting_succ.
Qed.

(** **** Breadth-first search *)

Lemma bfs_expand_elem (todo : list action) queue s path c (e : state * list string * Z) :
  e ∈ bfs_expand todo queue s path c ->
  e ∈ queue \/
  exists a, a ∈ todo /\ preconditions a s = true /\
    e = (effects a s, path ++ [name a], c + cost a).
Proof.
  revert queue. induction todo as [|a todo IH]; intros queue; cbn [bfs_expand].
  - by left.
  - destruct (preconditions a s) eqn:Hpre.
    + intros [[He | ->%list_elem_of_singleton]%elem_of_app | (b & Hb & Hpb & ->)]%IH.
      * by left.
      * right. exists a. split; [by left | done].
      * right. exists b. split; [by right | done].
    + intros [He | (b & Hb & Hpb & ->)]%IH; [by left|].
      right. exists b. split; [by right | done].
Qed.

Lemma bfs_loop_ok (budget : nat) queue visited nodes trace :
  (forall s path c, (s, path, c) ∈ queue -> waiting nodes s path c) ->
  run_ok budget nodes (bfs_loop acts goal budget queue visited nodes trace).
Proof.
  revert queue visited nodes trace.
  induction budget as [|budget IH]; intros queue visited nodes trace Hent.
  { destruct queue; apply run_ok_noplan. }
  destruct queue as [|[[s p] c] queue']; [apply run_ok_noplan|]. cbn [bfs_loop].
  assert (Hs : waiting nodes s p c) by (apply Hent; by left).
  assert (Hent' : forall s' p' c', (s', p', c') ∈ queue' -> waiting (nodes + 1) s' p' c').
  { intros s' p' c' He. apply waiting_next, Hent. by right. }
  case_bool_decide as Hvis.
  { apply run_ok_step. by apply IH. }
  destruct (is_goal s goal) eqn:Hgoal.
  { by apply (run_ok_found _ _ _ s). }
  apply run_ok_step. apply IH.
  intros s' p' c' [He | (a & Ha & Hpre & He)]%bfs_expand_elem; [by apply Hent'|].
  injection He as -> -> ->. by apply waiting_succ.
Qed.

(** **** Depth-first search *)

Lemma dfs_expand_elem (todo : list action) stack s path c d
    (e : state * list string * Z * Z) :
  e ∈ dfs_expand todo stack s path c d ->
  e ∈ stack \/
  exists a, a ∈ todo /\ preconditions a s = true /\
    e = (effects a s, path ++ [name a], c + cost a, d + 1).
Proof.
  revert stack. induction todo as [|a todo IH]; intros stack; cbn [dfs_expand].
  - by left.
  - destruct (preconditions a s) eqn:Hpre.
    + intros [[He | ->%list_elem_of_singleton]%elem_of_app | (b & Hb & Hpb & ->)]%IH.
      * by left.
      * right. exists a. split; [by left | done].
      * right. exists b. split; [by right | done].
    + intros [He | (b & Hb & Hpb & ->)]%IH; [by left|].
      right. exists b. split; [by right | done].
Qed.

Lemma dfs_loop_ok (md : Z) (budget : nat) stack visited nodes trace :
  (forall s path c d, (s, path, c, d) ∈ stack -> waiting nodes s path c) ->
  run_ok budget nodes (dfs_loop acts goal md budget stack visited nodes trace).
Proof.
  revert stack visited nodes trace.
  induction budget as [|budget IH]; intros stack visited nodes trace Hent.
  { simpl. destruct (last stack); apply run_ok_noplan. }
  cbn [dfs_loop].
  destruct (last stack) as [[[[s p] c] d]|] eqn:Hlast; [|apply run_ok_noplan].
  apply last_Some in Hlast as [stack' ->]. rewrite removelast_last.
  assert (Hs : waiting nodes s p c).
  { apply (Hent s p c d). apply elem_of_app. right. by apply list_elem_of_singleton. }
  assert (Hent' : forall s' p' c' d', (s', p', c', d') ∈ stack' ->
            waiting (nodes + 1) s' p' c').
  { intros s' p' c' d' He. apply waiting_next, (Hent s' p' c' d').
    apply elem_of_app. by left. }
  destruct (md <? d).
  { apply run_ok_step. by apply IH. }
  case_bool_decide as Hvis.
  { apply run_ok_step. by apply IH. }
  destruct (is_goal s goal) eqn:Hgoal.
  { by apply (run_ok_found _ _ _ s). }
  apply run_ok_step. apply IH.
  intros s' p' c' d' [He | (a & Ha & Hpre & He)]%dfs_expand_elem; [by apply (Hent' _ _ _ d')|].
  injection He as -> -> -> ->. by apply waiting_succ.
Qed.

Lemma waiting_initial : waiting n0 initial_state [] 0.
Proof.
  split; [|simpl; lia]. exists []. split; [done | apply reaches_nil].
Qed.

End Runs.

Lemma heap_ok_singleton (e : entry) : HeapqSpec.heap_ok f_of [e].
Proof. intros i Hi u v Hu Hv. simpl in *. destruct i as [|[|i]]; simpl in *; done || lia. Qed.

(** Every search that [create_plan] can select, started by it. *)
Lemma run_search_ok (p : planner) (initial_state goal : state) (r : search) :
  nodes_explored p = 0 ->
  run_search p initial_state goal = Some r ->
  run_ok (actions p) goal initial_state 0 (Z.to_nat (max_depth p)) 0 r.
Proof.
  intros H0. unfold run_search, strips_planning, a_star_search, breadth_first_search,
    depth_first_search. rewrite H0, Z.sub_0_r.
  assert (Ha : run_ok (actions p) goal initial_state 0 (Z.to_nat (max_depth p)) 0
    (a_star_loop (actions p) (heuristic p) goal (Z.to_nat (max_depth p))
       [(0, initial_state, [], 0)] ∅ 0 [])).
  { apply a_star_loop_ok; [apply heap_ok_singleton|].
    intros f s path g [= _ -> -> ->]%list_elem_of_singleton. apply waiting_initial. }
  destruct (String.eqb (algorithm p) "a_star"); [by intros [= <-]|].
  destruct (String.eqb (algorithm p) "bfs").
  { intros [= <-]. apply bfs_loop_ok.
    intros s path c [= -> -> ->]%list_elem_of_singleton. apply waiting_initial. }
  destruct (String.eqb (algorithm p) "dfs").
  { intros [= <-]. apply dfs_loop_ok.
    intros s path c d [= -> -> -> _]%list_elem_of_singleton. apply waiting_initial. }
  destruct (String.eqb (algorithm p) "strips"); [by intros [= <-] | done].
Qed.

(** The actions a call of [create_plan] searches with. *)
Definition chosen (p : planner) (new_actions : option (list action)) : list action :=
  match new_actions with Some l => l | None => actions p end.

Lemma create_plan_cases (p p' : planner) (initial_state goal : state)
    (new_actions : option (list action)) (path : list string) :
  create_plan p initial_state goal new_actions = Ok (p', path) ->
  algorithm p' = algorithm p /\ max_depth p' = max_depth p /\
  heuristic p' = heuristic p /\ actions p' = chosen p new_actions /\
  ((path = [] /\ plan_length p' = 0 /\ plan_cost p' = 0 /\
    0 <= nodes_explored p' <= Z.max 0 (max_depth p)) \/
   (is_plan (actions p') goal initial_state path (plan_cost p') /\
    plan_length p' = Z.of_nat (length path) /\
    Z.of_nat (length path) < nodes_explored p' <= Z.max 0 (max_depth p))).
Proof.
  unfold create_plan. fold (chosen p new_actions).
  set (p0 := Planner (algorithm p) (max_depth p) (chosen p new_actions) (heuristic p) 0 0 0).
  destruct (run_search p0 initial_state goal) as [r|] eqn:Hrun.
  2:{ intros [= <- <-]. simpl. repeat split; try done. left. repeat split; lia. }
  apply run_search_ok in Hrun as [Hn Hfound]; [|done]. simpl in Hn, Hfound.
  destruct (result_of r) as [plan c| |e] eqn:Hres; [| |done].
  - intros [= <- <-]. simpl. repeat split; try done.
    destruct (Hfound plan c eq_refl) as [Hplan Hlen].
    right. repeat split; [done | by destruct plan | lia | lia].
  - intros [= <- <-]. simpl. repeat split; try done. left. repeat split; lia.
Qed.

(** X10.  Whatever the strategy and the heuristic, a non-empty plan
    returned by [create_plan] is a sequence of names of actions — the
    registered ones, or the ones passed to the call — that can be executed
    from the initial state and ends in a state satisfying the goal; the
    sum of their costs is the [plan_cost] and their number the
    [plan_length] left by the call. *)
Theorem create_plan_sound (p p' : planner) (initial_state goal : state)
    (new_actions : option (list action)) (path : list string) :
  create_plan p initial_state goal new_actions = Ok (p', path) ->
  path <> [] ->
  actions p' = chosen p new_actions /\
  is_plan (actions p') goal initial_state path (plan_cost p') /\
  plan_length p' = Z.of_nat (length path).
Proof.
  intros Hc Hne.
  destruct (create_plan_cases _ _ _ _ _ _ Hc)
    as (_ & _ & _ & Hacts & [(-> & _) | (Hplan & Hlen & _)]); done.
Qed.

(** X11.  [max_depth] bounds the number of nodes a call of [create_plan]
    explores, under every strategy, and a non-empty plan has fewer
    actions than nodes were explored: no plan has [max_depth] actions or
    more. *)
Theorem create_plan_bounds (p p' : planner) (initial_state goal : state)
    (new_actions : option (list action)) (path : list string) :
  create_plan p initial_state goal new_actions = Ok (p', path) ->
  0 <= nodes_explored p' <= Z.max 0 (max_depth p) /\
  Z.of_nat (length path) <= nodes_explored p' /\
  (path <> [] -> Z.of_nat (length path) < nodes_explored p') /\
  (path <> [] -> Z.of_nat (length path) < max_depth p).
Proof.
  intros Hc.
  destruct (create_plan_cases _ _ _ _ _ _ Hc)
    as (_ & _ & _ & _ & [(-> & _ & _ & Hn) | (_ & _ & Hn)]); simpl; repeat split;
    done || lia.
Qed.

(** The one-action scenario of the specification, under any strategy. *)
Definition move : action :=
  Action "move" (fun s => bool_decide (dict_get s "at_goal" = VBool false))
    (fun s => <["at_goal" := VBool true]> s) 1.

Definition move_planner (algorithm : string) : planner :=
  Planner algorithm 100 [move] None 0 0 0.

Definition away : state := {["at_goal" := VBool false]}.
Definition arrived : state := {["at_goal" := VBool true]}.

Lemma move_plan :
  create_plan (move_planner "dfs") away arrived None =
    Ok (Planner "dfs" 100 [move] None 2 1 1, ["move"]).
Proof. vm_compute. reflexivity. Qed.

Lemma create_plan_sound_witness :
  is_plan [move] arrived away ["move"] 1.
Proof.
  assert (Hne : ["move"] <> @nil string) by discriminate.
  exact (proj1 (proj2 (create_plan_sound _ _ _ _ _ _ move_plan Hne))).
Defined.

Lemma create_plan_bounds_witness :
  0 <= nodes_explored (Planner "dfs" 100 [move] None 2 1 1)
    <= Z.max 0 (max_depth (move_planner "dfs")).
Proof. exact (proj1 (create_plan_bounds _ _ _ _ _ _ move_plan)). Defined.

(** *** The default estimate *)

Lemma mismatches_spec (s : state) (l : list (string * value)) :
  (length (filter (fun kv : string * value => dict_get s kv.1 <> kv.2) l) <= length l)%nat /\
  (length (filter (fun kv : string * value => dict_get s kv.1 <> kv.2) l) = 0%nat <->
   forallb (fun kv => bool_decide (dict_get s kv.1 = kv.2)) l = true).
Proof.
  induction l as [|kv l [IH1 IH2]]; [done|].
  destruct (decide (dict_get s kv.1 = kv.2)) as [Heq | Hne].
  - rewrite filter_cons_False by (by intros ?). simpl.
    rewrite bool_decide_eq_true_2 by done. simpl. split; [lia | done].
  - rewrite filter_cons_True by done. simpl.
    rewrite bool_decide_eq_false_2 by done. simpl. split; [lia | done].
Qed.

(** X12.  Without a heuristic, [estimate_plan_cost] counts the goal
    variables the state misses: it lies between 0 and the number of goal
    variables, and it is 0 exactly when [_is_goal] accepts the state. *)
Theorem estimate_plan_cost_goal (p : planner) (s goal : state) :
  heuristic p = None ->
  0 <= estimate_plan_cost p s goal <= Z.of_nat (size goal) /\
  (estimate_plan_cost p s goal = 0 <-> is_goal s goal = true).
Proof.
  intros Hh. unfold estimate_plan_cost, is_goal. rewrite Hh.
  destruct (mismatches_spec s (map_to_list goal)) as [H1 H2].
  rewrite length_map_to_list in H1. split; [lia|].
  rewrite <- H2. lia.
Qed.

Lemma estimate_plan_cost_goal_witness :
  0 <= estimate_plan_cost (move_planner "bfs") away arrived <= Z.of_nat (size arrived) /\
  (estimate_plan_cost (move_planner "bfs") away arrived = 0 <->
   is_goal away arrived = true).
Proof. apply (estimate_plan_cost_goal (move_planner "bfs") away arrived). reflexivity. Defined.

(** *** A goal that already holds *)

Definition known (algorithm : string) : Prop :=
  algorithm = "a_star" \/ algorithm = "bfs" \/ algorithm = "dfs" \/ algorithm = "strips".

(** X13.  When the initial state satisfies the goal and [max_depth] is at
    least 1, [create_plan] returns the empty plan under every strategy,
    after exploring one node, with cost and length 0. *)
Theorem create_plan_at_goal (p : planner) (initial_state goal : state)
    (new_actions : option (list action)) :
  known (algorithm p) ->
  1 <= max_depth p ->
  is_goal initial_state goal = true ->
  create_plan p initial_state goal new_actions =
    Ok (Planner (algorithm p) (max_depth p) (chosen p new_actions) (heuristic p) 1 0 0, []).
Proof.
  intros Halg Hd Hg. unfold create_plan. fold (chosen p new_actions).
  unfold run_search, strips_planning, a_star_search, breadth_first_search,
    depth_first_search. cbn [algorithm max_depth nodes_explored actions heuristic].
  rewrite Z.sub_0_r.
  destruct (Z.to_nat (max_depth p)) as [|budget] eqn:Hb; [lia|].
  assert (Hv : state_to_key initial_state ∉ (∅ : gset (list (string * value))))
    by apply not_elem_of_empty.
  assert (Hmd : (max_depth p <? 0) = false) by lia.
  destruct Halg as [-> | [-> | [-> | ->]]];
    cbn [String.eqb Ascii.eqb Bool.eqb andb a_star_loop bfs_loop dfs_loop last removelast];
    unfold Heapq.heappop; cbn [last removelast];
    rewrite ?Hmd, (bool_decide_eq_false_2 _ Hv), Hg; reflexivity.
Qed.

Lemma create_plan_at_goal_witness :
  create_plan (move_planner "a_star") arrived arrived None =
    Ok (Planner "a_star" 100 [move] None 1 0 0, []).
Proof.
  apply (create_plan_at_goal (move_planner "a_star") arrived arrived None).
  - by left.
  - vm_compute. discriminate.
  - vm_compute. reflexivity.
Defined.

(** *** Exceptions *)

(** The heap operations raise only what the comparison raises. *)
Section HeapRaises.
Context {A : Type} (lt : A -> A -> result bool) (bad : exn).
Hypothesis lt_raise : forall a b x, lt a b = Raise x -> x = bad.

Lemma siftdown_raise (fuel : nat) (heap : list A) (startpos pos : nat) (x : exn) :
  Heapq.siftdown lt fuel heap startpos pos = Raise x -> x = bad.
Proof.
  revert heap pos. induction fuel as [|fuel IH]; intros heap pos; cbn [Heapq.siftdown]; [done|].
  destruct (pos <=? startpos)%nat; [done|].
  destruct (heap !! pos) as [a|]; [|done].
  destruct (heap !! ((pos - 1) / 2)%nat) as [b|]; [|done].
  destruct (lt a b) as [[|]|y] eqn:Hlt; [apply IH | done |].
  intros [= <-]. by apply (lt_raise a b).
Qed.

Lemma siftup_loop_raise (fuel : nat) (heap : list A) (pos : nat) (x : exn) :
  Heapq.siftup_loop lt fuel heap pos = Raise x -> x = bad.
Proof.
  revert heap pos. induction fuel as [|fuel IH]; intros heap pos; cbn [Heapq.siftup_loop];
    [done|].
  destruct (length heap / 2 <=? pos)%nat; [done|].
  destruct (2 * pos + 1 + 1 <? length heap)%nat; [|apply IH].
  destruct (heap !! (2 * pos + 1)%nat) as [a|]; [|apply IH].
  destruct (heap !! (2 * pos + 1 + 1)%nat) as [b|]; [|apply IH].
  destruct (lt a b) as [[|]|y] eqn:Hlt; [apply IH | apply IH |].
  intros [= <-]. by apply (lt_raise a b).
Qed.

Lemma heappush_raise (heap : list A) (item : A) (x : exn) :
  Heapq.heappush lt heap item = Raise x -> x = bad.
Proof. apply siftdown_raise. Qed.

Lemma heappop_raise (heap : list A) (x : exn) :
  heap <> [] -> Heapq.heappop lt heap = Raise x -> x = bad.
Proof.
  intros Hne. unfold Heapq.heappop.
  destruct (last heap) as [lastelt|] eqn:Hlast.
  2:{ by apply last_None in Hlast. }
  destruct (removelast heap) as [|r rest]; [done|]. unfold Heapq.siftup.
  destruct (Heapq.siftup_loop _ _ _ _) as [[heap1 pos1]|y] eqn:Hl.
  - destruct (Heapq.siftdown _ _ _ _ _) as [heap2|y] eqn:Hs; [done|].
    intros [= <-]. by apply siftdown_raise in Hs.
  - intros [= <-]. by apply siftup_loop_raise in Hl.
Qed.

End HeapRaises.

Lemma entry_lt_raise (a b : entry) (x : exn) : entry_lt a b = Raise x -> x = TypeError.
Proof.
  destruct a as [[[f1 s1] p1] g1], b as [[[f2 s2] p2] g2]. unfold entry_lt.
  destruct (negb (f1 =? f2)); [done|].
  destruct (negb (bool_decide (s1 = s2))); [by intros [= <-]|].
  by destruct (negb (bool_decide (p1 = p2))).
Qed.

Lemma a_star_expand_raise h goal todo frontier s path g (x : exn) :
  a_star_expand h goal todo frontier s path g = Raise x -> x = TypeError.
Proof.
  revert frontier. induction todo as [|a todo IH]; intros frontier; cbn [a_star_expand];
    [done|].
  destruct (preconditions a s); [|apply IH].
  destruct (Heapq.heappush _ _ _) as [frontier'|y] eqn:Hpush; [apply IH|].
  intros [= <-]. by apply (heappush_raise entry_lt TypeError entry_lt_raise) in Hpush.
Qed.

Lemma a_star_loop_raise acts h goal budget frontier visited nodes trace (x : exn) :
  result_of (a_star_loop acts h goal budget frontier visited nodes trace) = Raised x ->
  x = TypeError.
Proof.
  revert frontier visited nodes trace.
  induction budget as [|budget IH]; intros frontier visited nodes trace.
  { by destruct frontier. }
  destruct (decide (frontier = [])) as [-> | Hne]; [done|].
  rewrite (a_star_loop_step _ _ _ _ _ _ _ _ Hne).
  destruct (Heapq.heappop entry_lt frontier) as [[[[[f s] p] g] frontier']|y] eqn:Hpop.
  2:{ intros [= <-].
      by apply (heappop_raise entry_lt TypeError entry_lt_raise) in Hpop. }
  case_bool_decide; [apply IH|].
  destruct (is_goal s goal); [done|].
  destruct (a_star_expand h goal acts frontier' s p g) as [frontier''|y] eqn:Hexp; [apply IH|].
  intros [= <-]. by apply a_star_expand_raise in Hexp.
Qed.

(** X14.  The only exception [create_plan] raises is [TypeError] (two
    frontier tuples compared down to their state dictionaries), and only
    under 'a_star' and 'strips'; every other setting returns a list. *)
Theorem create_plan_raises_only (p : planner) (initial_state goal : state)
    (new_actions : option (list action)) (x : exn) :
  create_plan p initial_state goal new_actions = Raise x ->
  x = TypeError /\ (algorithm p = "a_star" \/ algorithm p = "strips").
Proof.
  unfold create_plan, run_search, strips_planning, a_star_search, breadth_first_search,
    depth_first_search. cbn [algorithm max_depth nodes_explored actions heuristic].
  destruct (String.eqb_spec (algorithm p) "a_star") as [Ha | _].
  { destruct (result_of _) as [plan c| |e] eqn:Hres; [done | done |].
    intros [= <-]. apply a_star_loop_raise in Hres. split; [done | by left]. }
  destruct (String.eqb_spec (algorithm p) "bfs") as [_ | _].
  { destruct (result_of _) as [plan c| |e] eqn:Hres; [done | done |].
    by apply bfs_loop_no_raise in Hres. }
  destruct (String.eqb_spec (algorithm p) "dfs") as [_ | _].
  { destruct (result_of _) as [plan c| |e] eqn:Hres; [done | done |].
    by apply dfs_loop_no_raise in Hres. }
  destruct (String.eqb_spec (algorithm p) "strips") as [Hs | _]; [|done].
  destruct (result_of _) as [plan c| |e] eqn:Hres; [done | done |].
  intros [= <-]. apply a_star_loop_raise in Hres. split; [done | by right].
Qed.

Lemma create_plan_raises_only_witness :
  TypeError = TypeError /\ (algorithm tie_planner = "a_star" \/ algorithm tie_planner = "strips").
Proof.
  apply (create_plan_raises_only tie_planner ∅ {["x" := VInt 5]} None TypeError).
  vm_compute. reflexivity.
Defined.

(** *** The depth limit of the depth-first search *)

Lemma dfs_loop_limit acts goal (md md' : Z) (budget : nat) stack visited nodes trace :
  (forall s path c d, (s, path, c, d) ∈ stack -> d <= nodes) ->
  nodes + Z.of_nat budget <= md -> md <= md' ->
  dfs_loop acts goal md budget stack visited nodes trace =
  dfs_loop acts goal md' budget stack visited nodes trace.
Proof.
  intros Hent Hb Hmd. revert stack visited nodes trace Hent Hb.
  induction budget as [|budget IH]; intros stack visited nodes trace Hent Hb; [done|].
  cbn [dfs_loop].
  destruct (last stack) as [[[[s p] c] d]|] eqn:Hlast; [|done].
  apply last_Some in Hlast as [stack' ->]. rewrite removelast_last.
  assert (Hd : d <= nodes).
  { apply (Hent s p c d). apply elem_of_app. right. by apply list_elem_of_singleton. }
  assert (Hent' : forall s' p' c' d', (s', p', c', d') ∈ stack' -> d' <= nodes + 1).
  { intros s' p' c' d' He. assert (d' <= nodes); [|lia].
    apply (Hent s' p' c' d'). apply elem_of_app. by left. }
  replace (md <? d) with false by lia. replace (md' <? d) with false by lia.
  case_bool_decide; [apply IH; [done | lia]|].
  destruct (is_goal s goal); [done|].
  apply IH; [|lia].
  intros s' p' c' d' [He | (a & Ha & Hpre & He)]%dfs_expand_elem; [by apply (Hent' s' p' c')|].
  injection He as -> -> -> ->. lia.
Qed.

(** X15.  The test [depth > self.max_depth] of the depth-first search
    never succeeds in a run started by [create_plan]: the bound on the
    number of explored nodes stops the loop first, so the search runs
    exactly as it would with any larger depth limit. *)
Theorem dfs_depth_limit_idle (p : planner) (initial_state goal : state) (md' : Z) :
  nodes_explored p = 0 ->
  max_depth p <= md' ->
  depth_first_search p initial_state goal =
    dfs_loop (actions p) goal md' (Z.to_nat (max_depth p))
      [(initial_state, [], 0, 0)] ∅ 0 [].
Proof.
  intros H0 Hmd. unfold depth_first_search. rewrite H0, Z.sub_0_r.
  destruct (Z_lt_le_dec (max_depth p) 0) as [Hneg | Hpos].
  { by replace (Z.to_nat (max_depth p)) with O by lia. }
  apply dfs_loop_limit; [|lia | done].
  intros s path c d [= _ _ _ ->]%list_elem_of_singleton. lia.
Qed.

Lemma dfs_depth_limit_idle_witness :
  depth_first_search (move_planner "dfs") away arrived =
    dfs_loop [move] arrived 1000 100 [(away, [], 0, 0)] ∅ 0 [].
Proof.
  apply (dfs_depth_limit_idle (move_planner "dfs") away arrived 1000).
  - reflexivity.
  - vm_compute. discriminate.
Defined.

(** *** Least cost without a heuristic *)

(** X16.  Without a heuristic and with no negative cost, a plan returned
    by [create_plan] under 'a_star' or 'strips' costs no more than any
    sequence of the actions that leads from the initial state to a state
    satisfying the goal. *)
Theorem uniform_cost_optimal (p p' : planner) (initial_state goal : state)
    (new_actions : option (list action)) (path : list string) :
  algorithm p = "a_star" \/ algorithm p = "strips" ->
  heuristic p = None ->
  Forall (fun a => 0 <= cost a) (chosen p new_actions) ->
  create_plan p initial_state goal new_actions = Ok (p', path) ->
  path <> [] ->
  is_least (chosen p new_actions) goal initial_state (plan_cost p').
Proof.
  intros Halg Hh Hcost. unfold create_plan. fold (chosen p new_actions).
  assert (Hcons : consistent (chosen p new_actions) None goal).
  { split; [done|]. intros s a Ha _. simpl.
    rewrite Forall_forall in Hcost. specialize (Hcost a Ha). lia. }
  assert (Hrun : run_search
      (Planner (algorithm p) (max_depth p) (chosen p new_actions) (heuristic p) 0 0 0)
      initial_state goal =
    Some (a_star_loop (chosen p new_actions) None goal (Z.to_nat (max_depth p))
            [(0, initial_state, [], 0)] ∅ 0 [])).
  { unfold run_search, strips_planning, a_star_search.
    cbn [algorithm max_depth nodes_explored actions heuristic].
    rewrite Hh, Z.sub_0_r. by destruct Halg as [-> | ->]. }
  rewrite Hrun.
  destruct (result_of _) as [plan c| |e] eqn:Hres; [| |done].
  - intros [= <- <-] _. cbn [plan_cost].
    by apply (a_star_optimal _ _ _ _ _ _ _ _ Hcons Hres).
  - by intros [= <- <-].
Qed.

Lemma move_plan_a_star :
  create_plan (move_planner "a_star") away arrived None =
    Ok (Planner "a_star" 100 [move] None 2 1 1, ["move"]).
Proof. vm_compute. reflexivity. Qed.

Lemma uniform_cost_optimal_witness : is_least [move] arrived away 1.
Proof.
  assert (Hne : ["move"] <> @nil string) by discriminate.
  assert (Hcost : Forall (fun a => 0 <= cost a) (chosen (move_planner "a_star") None)).
  { repeat constructor. simpl. lia. }
  exact (uniform_cost_optimal (move_planner "a_star") _ away arrived None ["move"]
           (or_introl eq_refl) eq_refl Hcost move_plan_a_star Hne).
Defined.

(** *** Breadth-first search returns a shortest plan *)

Section Shortest.
Context (acts : list action) (goal : state) (initial_state : state).

Abbreviation item := (state * list string * Z)%type.

(** Number of actions on the path of a queue item. *)
Definition steps (e : item) : nat := length e.1.2.

(** The queue holds paths of two successive lengths at most, the shorter
    ones first. *)
Definition layered (queue : list item) : Prop :=
  StronglySorted (fun a b => (steps a <= steps b)%nat) queue /\
  forall e e', head queue = Some e -> e' ∈ queue -> (steps e' <= steps e + 1)%nat.

Lemma bfs_expand_app (todo : list action) (queue : list item) s path c :
  bfs_expand todo queue s path c = queue ++ bfs_expand todo [] s path c.
Proof.
  revert queue. induction todo as [|a todo IH]; intros queue; cbn [bfs_expand].
  - by rewrite app_nil_r.
  - destruct (preconditions a s); [|apply IH].
    rewrite IH. rewrite (IH ([] ++ _)). by rewrite app_assoc.
Qed.

Lemma bfs_expand_steps (todo : list action) s path c (e : item) :
  e ∈ bfs_expand todo [] s path c -> steps e = S (length path).
Proof.
  intros [He | (a & _ & _ & ->)]%bfs_expand_elem.
  - by apply elem_of_nil in He.
  - unfold steps. simpl. rewrite length_app. simpl. lia.
Qed.

Lemma layered_tail (e : item) (queue : list item) :
  layered (e :: queue) ->
  layered queue /\ forall e', e' ∈ queue -> (steps e <= steps e' <= steps e + 1)%nat.
Proof.
  intros [Hs Hb]. apply StronglySorted_inv in Hs as [Hs Hmin].
  rewrite Forall_forall in Hmin.
  assert (Hrange : forall e', e' ∈ queue -> (steps e <= steps e' <= steps e + 1)%nat).
  { intros e' He'. split; [by apply Hmin|]. apply (Hb e e'); [done | by right]. }
  split; [|done]. split; [done|].
  intros e1 e' Hhd He'. destruct queue as [|e2 queue]; [done|].
  injection Hhd as ->.
  pose proof (Hrange e1 (list_elem_of_here _ _)). pose proof (Hrange e' He'). lia.
Qed.

Lemma layered_expand (e : item) (queue : list item) (todo : list action) s path c :
  layered (e :: queue) -> steps e = length path ->
  layered (bfs_expand todo queue s path c).
Proof.
  intros Hl Hlen. destruct (layered_tail _ _ Hl) as [[Hs Hb] Hrange].
  rewrite bfs_expand_app.
  pose proof (bfs_expand_steps todo s path c) as Hnew.
  split.
  - apply StronglySorted_app_2; [| done |].
    + intros x y Hx Hy. rewrite (Hnew y Hy). specialize (Hrange x Hx). lia.
    + generalize (bfs_expand todo [] s path c) Hnew. intros l Hl'.
      induction l as [|x l IH]; constructor.
      * apply IH. intros e' He'. apply Hl'. by right.
      * apply Forall_forall. intros y Hy.
        rewrite (Hl' x (list_elem_of_here _ _)), (Hl' y); [lia | by right].
  - intros e1 e' Hhd He'.
    assert (Hlo : (steps e <= steps e1)%nat).
    { destruct queue as [|e2 queue].
      - simpl in Hhd. apply head_Some_elem_of in Hhd. rewrite (Hnew e1 Hhd). lia.
      - injection Hhd as ->. apply Hrange. by left. }
    apply elem_of_app in He' as [He' | He'].
    + specialize (Hrange e' He'). lia.
    + rewrite (Hnew e' He'). lia.
Qed.

(** Invariant of the loop once the initial state has been closed. *)
Record bfs_inv (queue : list item) (visited : gset (list (string * value))) : Prop := BfsInv {
  bfs_layered : layered queue;
  bfs_entries : forall s path c, (s, path, c) ∈ queue ->
    exists plan, name <$> plan = path /\ reaches acts initial_state plan s c;
  bfs_nongoal : forall s, state_to_key s ∈ visited -> is_goal s goal = false;
  bfs_init : state_to_key initial_state ∈ visited;
  bfs_succ : forall plan u cu a,
    reaches acts initial_state plan u cu -> state_to_key u ∈ visited ->
    a ∈ acts -> preconditions a u = true ->
    state_to_key (effects a u) ∈ visited \/
    exists path c, (effects a u, path, c) ∈ queue /\ (length path <= length plan + 1)%nat
}.

(** Under the invariant every reachable state is closed, or some queue
    item has a path no longer than the plan that reaches it. *)
Lemma bfs_cover queue visited plan t c :
  bfs_inv queue visited -> reaches acts initial_state plan t c ->
  state_to_key t ∈ visited \/ exists e, e ∈ queue /\ (steps e <= length plan)%nat.
Proof.
  intros Hinv. revert t c.
  induction plan as [|a plan IH] using rev_ind; intros t c Hr.
  - destruct Hr as [_ [= <- <-]]. left. apply Hinv.
  - apply reaches_snoc_inv in Hr as (u & cu & Hu & Ha & Hpre & -> & ->).
    rewrite length_app. simpl.
    destruct (IH u cu Hu) as [Hvis | (e & He & Hle)].
    + destruct (bfs_succ _ _ Hinv plan u cu a Hu Hvis Ha Hpre)
        as [Hv | (path & c & He & Hle)]; [by left|].
      right. exists (effects a u, path, c). split; [done|]. unfold steps. simpl. lia.
    + right. exists e. split; [done | lia].
Qed.

(** Closing a state reached by a shortest path and queueing its successors
    establishes the invariant. *)
Lemma bfs_close (e0 : item) (queue : list item) visited (s : state) plan_s path c :
  layered (e0 :: queue) -> steps e0 = length path ->
  (forall s' path' c', (s', path', c') ∈ queue ->
     exists plan, name <$> plan = path' /\ reaches acts initial_state plan s' c') ->
  (forall s', state_to_key s' ∈ visited -> is_goal s' goal = false) ->
  (forall plan u cu a,
     reaches acts initial_state plan u cu -> state_to_key u ∈ visited ->
     a ∈ acts -> preconditions a u = true ->
     state_to_key (effects a u) ∈ visited \/ effects a u = s \/
     exists path' c', (effects a u, path', c') ∈ queue /\
       (length path' <= length plan + 1)%nat) ->
  name <$> plan_s = path -> reaches acts initial_state plan_s s c ->
  (forall plan c', reaches acts initial_state plan s c' -> (length path <= length plan)%nat) ->
  is_goal s goal = false ->
  state_to_key initial_state ∈ ({[state_to_key s]} ∪ visited : gset _) ->
  bfs_inv (bfs_expand acts queue s path c) ({[state_to_key s]} ∪ visited).
Proof.
  intros Hlay Hlen Hent Hng Hsucc Hpath Hreach Hopt Hgoal Hinit.
  assert (Hmem : forall e, e ∈ bfs_expand acts queue s path c <->
    e ∈ queue \/ exists a, a ∈ acts /\ preconditions a s = true /\
      e = (effects a s, path ++ [name a], c + cost a)).
  { intros e. split; [apply bfs_expand_elem|].
    rewrite bfs_expand_app, elem_of_app. intros [He | (a & Ha & Hpre & ->)]; [by left|].
    right. clear -Ha Hpre. generalize (@nil item).
    induction acts as [|b l IH]; intros q; [by apply elem_of_nil in Ha|].
    cbn [bfs_expand]. apply elem_of_cons in Ha as [<- | Ha].
    - rewrite Hpre. rewrite bfs_expand_app. apply elem_of_app. left.
      apply elem_of_app. right. by apply list_elem_of_singleton.
    - destruct (preconditions b s); by apply IH. }
  split.
  - by apply (layered_expand e0).
  - intros s' path' c' [He | (a & Ha & Hpre & He)]%Hmem; [by apply Hent|].
    injection He as -> -> ->.
    exists (plan_s ++ [a]). split.
    + rewrite fmap_app. by rewrite Hpath.
    + by apply reaches_snoc.
  - intros s' [->%elem_of_singleton%state_to_key_inj | Hv]%elem_of_union; [done|].
    by apply Hng.
  - done.
  - intros plan u cu a Hu Hvis Ha Hpre.
    apply elem_of_union in Hvis as [->%elem_of_singleton%state_to_key_inj | Hvis].
    + right. exists (path ++ [name a]), (c + cost a). split.
      * apply Hmem. right. by exists a.
      * rewrite length_app. simpl. specialize (Hopt plan cu Hu). lia.
    + destruct (Hsucc plan u cu a Hu Hvis Ha Hpre)
        as [Hv | [Hs | (path' & c' & He & Hle)]].
      * left. by apply elem_of_union_r.
      * left. rewrite Hs. apply elem_of_union_l. by apply elem_of_singleton.
      * right. exists path', c'. split; [|done]. apply Hmem. by left.
Qed.

(** No sequence of actions reaching the goal is shorter than [n]. *)
Definition is_shortest (n : nat) : Prop :=
  forall plan t c, reaches acts initial_state plan t c -> is_goal t goal = true ->
    (n <= length plan)%nat.

Lemma bfs_loop_shortest budget queue visited nodes trace path c :
  bfs_inv queue visited ->
  result_of (bfs_loop acts goal budget queue visited nodes trace) = Found path c ->
  is_shortest (length path).
Proof.
  revert queue visited nodes trace.
  induction budget as [|budget IH]; intros queue visited nodes trace Hinv.
  { by destruct queue. }
  destruct queue as [|[[s p] g] queue']; [done|]. cbn [bfs_loop].
  destruct (bfs_entries _ _ Hinv s p g (list_elem_of_here _ _)) as (plan_s & Hnames & Hreach).
  destruct (layered_tail _ _ (bfs_layered _ _ Hinv)) as [Hlay' Hrange].
  assert (Hmin : forall e, e ∈ (s, p, g) :: queue' -> (length p <= steps e)%nat).
  { intros e [-> | He]%elem_of_cons; [done|]. by apply Hrange. }
  case_bool_decide as Hvis.
  - (* stale item *)
    apply IH. split.
    + done.
    + intros s' p' g' He. apply (bfs_entries _ _ Hinv). by right.
    + apply Hinv.
    + apply Hinv.
    + intros plan u cu a Hu Hv Ha Hpre.
      destruct (bfs_succ _ _ Hinv plan u cu a Hu Hv Ha Hpre)
        as [Hv' | (p' & g' & He & Hle)]; [by left|].
      apply elem_of_cons in He as [[= Hs _ _] | He].
      * left. by rewrite Hs.
      * right. by exists p', g'.
  - assert (Hopt : forall plan c', reaches acts initial_state plan s c' ->
              (length p <= length plan)%nat).
    { intros plan c' Hr.
      destruct (bfs_cover _ _ _ _ _ Hinv Hr) as [Hv | (e & He & Hle)]; [done|].
      specialize (Hmin e He). lia. }
    destruct (is_goal s goal) eqn:Hgoal.
    + intros [= <- <-]. intros plan t c' Hr Hg.
      destruct (bfs_cover _ _ _ _ _ Hinv Hr) as [Hv | (e & He & Hle)].
      { apply (bfs_nongoal _ _ Hinv) in Hv. congruence. }
      specialize (Hmin e He). lia.
    + apply IH.
      apply (bfs_close (s, p, g) queue' visited s plan_s p g); try done.
      * apply Hinv.
      * intros s' p' g' He. apply (bfs_entries _ _ Hinv). by right.
      * apply Hinv.
      * intros plan u cu a Hu Hv Ha Hpre.
        destruct (bfs_succ _ _ Hinv plan u cu a Hu Hv Ha Hpre)
          as [Hv' | (p' & g' & He & Hle)]; [by left|].
        apply elem_of_cons in He as [[= Hs _ _] | He].
        -- right. by left.
        -- right. right. by exists p', g'.
      * apply elem_of_union_r. apply Hinv.
Qed.

(** The whole search: the first turn closes the initial state. *)
Lemma bfs_shortest budget nodes path c :
  result_of (bfs_loop acts goal budget [(initial_state, [], 0)] ∅ nodes []) = Found path c ->
  is_shortest (length path).
Proof.
  destruct budget as [|budget]; [done|]. cbn [bfs_loop].
  rewrite bool_decide_eq_false_2 by apply not_elem_of_empty.
  destruct (is_goal initial_state goal) eqn:Hgoal.
  - intros [= <- <-] plan t c' _ _. simpl. lia.
  - apply bfs_loop_shortest.
    apply (bfs_close (initial_state, [], 0) [] ∅ initial_state [] [] 0); try done.
    + split; [repeat constructor|].
      intros e e' [= <-] ->%list_elem_of_singleton. lia.
    + intros s' p' c' He. by apply elem_of_nil in He.
    + intros plan c' _. simpl. lia.
    + apply elem_of_union_l. by apply elem_of_singleton.
Qed.

End Shortest.

(** X17.  A plan returned by [create_plan] under 'bfs' has the fewest
    actions: no sequence of the actions that leads from the initial state
    to a state satisfying the goal is shorter. *)
Theorem bfs_fewest_actions (p p' : planner) (initial_state goal : state)
    (new_actions : option (list action)) (path : list string) :
  algorithm p = "bfs" ->
  create_plan p initial_state goal new_actions = Ok (p', path) ->
  is_shortest (chosen p new_actions) goal initial_state (length path).
Proof.
  intros Halg. unfold create_plan. fold (chosen p new_actions).
  unfold run_search, breadth_first_search.
  cbn [algorithm max_depth nodes_explored actions heuristic].
  rewrite Halg. cbn [String.eqb Ascii.eqb Bool.eqb andb].
  destruct (result_of _) as [plan c| |e] eqn:Hres; [| |done].
  - intros [= <- <-]. by apply (bfs_shortest _ _ _ _ _ _ _ Hres).
  - intros [= <- <-] plan t c' _ _. simpl. lia.
Qed.

Lemma move_plan_bfs :
  create_plan (move_planner "bfs") away arrived None =
    Ok (Planner "bfs" 100 [move] None 2 1 1, ["move"]).
Proof. vm_compute. reflexivity. Qed.

Lemma bfs_fewest_actions_witness : is_shortest [move] arrived away 1.
Proof.
  exact (bfs_fewest_actions (move_planner "bfs") _ away arrived None ["move"]
           eq_refl move_plan_bfs).
Defined.

End PlannerExtra.

(** * Further properties of the memory *)

Module MemoryExtra.
Import Memory MemorySpec.

(** *** Working memory keeps the last hundred items *)

(** The last [n] items of a list. *)
Definition last_n (n : nat) (l : list nat) : list nat := drop (length l - n) l.

Lemma deque_append_last_n (n : nat) (w : list nat) (x : nat) :
  deque_append n (last_n n w) x = last_n n (w ++ [x]).
Proof.
  unfold deque_append, last_n. rewrite !length_app, length_drop. simpl.
  destruct (decide (length w <= n)%nat) as [Hle | Hgt].
  - replace (length w - n)%nat with 0%nat by lia. rewrite drop_0, Nat.sub_0_r. reflexivity.
  - destruct (decide (n = 0)%nat) as [-> | Hn].
    { rewrite !drop_ge; [done | rewrite length_app; simpl; lia |].
      rewrite length_app, length_drop. simpl. lia. }
    rewrite (drop_app_le w [x] (length w + 1 - n)%nat) by lia.
    rewrite drop_app_le by (rewrite length_drop; lia).
    rewrite drop_drop. do 2 f_equal. lia.
Qed.

(** The items passed to a sequence of [store] calls, in order. *)
Definition stored (calls : list ((nat -> Z) * nat * Q)) : list nat :=
  (fun call => call.1.2) <$> calls.

Section Working.
Context (hash_str : dict -> Z).

Lemma stores_working (calls : list ((nat -> Z) * nat * Q)) (objects : gmap nat dict)
    (m : memory) (w : list nat) :
  memory_type m = "working" -> working_memory m = last_n 100 w ->
  exists objects' m',
    stores hash_str calls objects m = Ok (objects', m') /\
    memory_type m' = "working" /\
    working_memory m' = last_n 100 (w ++ stored calls) /\
    episodic_memory m' = episodic_memory m /\
    semantic_memory m' = semantic_memory m /\
    capacity m' = capacity m.
Proof.
  revert objects m w. induction calls as [|[[clock item] priority] calls IH];
    intros objects m w Hty Hw; cbn [stores].
  - exists objects, m. rewrite app_nil_r. by repeat split.
  - unfold store. cbv zeta. rewrite generate_id_stamped. rewrite Hty.
    cbn [String.eqb Ascii.eqb Bool.eqb andb].
    set (objects1 := <[item := _]> objects).
    set (m1 := Memory _ _ _ _ _ _ _ _).
    destruct (IH objects1 m1 (w ++ [item])) as (objects' & m' & Hs & Hty' & Hw' & He & Hsem & Hc).
    + done.
    + unfold m1. simpl. rewrite Hw. apply deque_append_last_n.
    + exists objects', m'. rewrite <- app_assoc in Hw'. by repeat split.
Qed.

(** X18.  In a memory of type 'working', every sequence of [store] calls
    returns, and the working store then holds the last hundred items
    passed, in the order of the calls, whatever the capacity given to the
    constructor; the other stores stay empty. *)
Theorem working_memory_last_hundred (C : nat) (calls : list ((nat -> Z) * nat * Q))
    (objects : gmap nat dict) :
  exists objects' m',
    stores hash_str calls objects (init C "working") = Ok (objects', m') /\
    working_memory m' = last_n 100 (stored calls) /\
    len m' = (length calls `min` 100)%nat /\
    episodic_memory m' = [] /\ semantic_memory m' = [].
Proof.
  destruct (stores_working calls objects (init C "working") [])
    as (objects' & m' & Hs & Hty & Hw & He & Hsem & _); [done | done |].
  exists objects', m'. simpl in Hw. repeat split; try done.
  unfold len. rewrite Hty. cbn [String.eqb Ascii.eqb Bool.eqb andb].
  rewrite Hw. unfold last_n, stored. rewrite length_drop, length_fmap. lia.
Qed.

End Working.

(** *** Semantic memory is a dictionary *)

(** [d.get(key)] on a dictionary kept in insertion order. *)
Fixpoint dict_lookup (d : list (value * nat)) (key : value) : option nat :=
  match d with
  | [] => None
  | (k, y) :: d' => if decide (k = key) then Some y else dict_lookup d' key
  end.

Lemma dict_lookup_set (d : list (value * nat)) (key : value) (x : nat) :
  dict_lookup (dict_set d key x) key = Some x.
Proof.
  induction d as [|[k y] d IH]; simpl.
  - by rewrite decide_True.
  - destruct (decide (k = key)) as [-> | Hne]; simpl.
    + by rewrite decide_True.
    + by rewrite decide_False.
Qed.

Lemma dict_lookup_set_ne (d : list (value * nat)) (key k' : value) (x : nat) :
  k' <> key -> dict_lookup (dict_set d key x) k' = dict_lookup d k'.
Proof.
  intros Hne. induction d as [|[k y] d IH]; simpl.
  - rewrite decide_False; [done | congruence].
  - destruct (decide (k = key)) as [-> | Hk]; simpl.
    + destruct (decide (key = k')); congruence.
    + destruct (decide (k = k')); [done | apply IH].
Qed.

Lemma dict_set_keys (d : list (value * nat)) (key : value) (x : nat) :
  (dict_set d key x).*1 = if decide (key ∈ d.*1) then d.*1 else d.*1 ++ [key].
Proof.
  induction d as [|[k y] d IH]; cbn [dict_set].
  - rewrite decide_False; [done | apply not_elem_of_nil].
  - destruct (decide (k = key)) as [-> | Hk]; rewrite !fmap_cons; cbn [fst].
    + rewrite decide_True; [done | by left].
    + rewrite IH. destruct (decide (key ∈ d.*1)) as [Hin | Hnin].
      * rewrite decide_True; [done | by right].
      * rewrite decide_False; [done|].
        intros [? | ?]%elem_of_cons; congruence.
Qed.

Section Semantic.
Context (hash_str : dict -> Z).

(** The key under which [store] files an item in semantic memory: the
    value of its entry 'key' when that is truthy, else the identifier
    generated for it. *)
Definition semantic_key (clock : nat -> Z) (priority : Q) (d : dict) : value :=
  if truthy (dict_get d "key") then dict_get d "key"
  else VStr (mem_id (clock 0%nat) (hash_str (stamped (clock 0%nat) priority d) `mod` 10000)).

(** X19.  In a memory of type 'semantic', [store] returns and files the
    item under its entry 'key', or under the generated identifier when
    that entry is missing or falsy: the key then leads to the item, an
    item held under that key before is replaced, every other key leads to
    what it led to before, and the keys stay pairwise different. *)
Theorem semantic_store (clock : nat -> Z) (item : nat) (priority : Q)
    (objects : gmap nat dict) (m : memory) :
  memory_type m = "semantic" ->
  exists objects' m',
    store hash_str clock item priority objects m = Ok (objects', m') /\
    let key := semantic_key clock priority (deref objects item) in
    dict_lookup (semantic_memory m') key = Some item /\
    (forall k, k <> key ->
       dict_lookup (semantic_memory m') k = dict_lookup (semantic_memory m) k) /\
    (semantic_memory m').*1 =
      (if decide (key ∈ (semantic_memory m).*1) then (semantic_memory m).*1
       else (semantic_memory m).*1 ++ [key]) /\
    (NoDup (semantic_memory m).*1 -> NoDup (semantic_memory m').*1).
Proof.
  intros Hty. unfold store. cbv zeta. rewrite generate_id_stamped. rewrite Hty.
  cbn [String.eqb Ascii.eqb Bool.eqb andb].
  set (d := deref objects item).
  set (item_id := VStr _).
  set (objects1 := <[item := _]> objects).
  assert (Hkey : dict_get (deref objects1 item) "key" = dict_get d "key").
  { unfold deref, objects1, dict_get. rewrite lookup_insert_eq. simpl.
    unfold stamped. by do 4 (rewrite lookup_insert_ne by done). }
  rewrite Hkey.
  assert (Hk : (if truthy (dict_get d "key") then dict_get d "key" else item_id) =
               semantic_key clock priority d) by done.
  rewrite Hk. eexists _, _. split; [reflexivity|]. cbn [semantic_memory].
  set (key := semantic_key clock priority d).
  repeat split.
  - apply dict_lookup_set.
  - intros k Hne. by apply dict_lookup_set_ne.
  - apply dict_set_keys.
  - intros Hnd. rewrite dict_set_keys. destruct (decide _) as [Hin | Hnin]; [done|].
    apply NoDup_app. repeat split; [done | | apply NoDup_singleton].
    intros k Hkin ->%list_elem_of_singleton. done.
Qed.

End Semantic.

(** A dictionary of the caller with a key, stored in a semantic memory. *)
Definition fact_objects : gmap nat dict :=
  {[ 1%nat := {["key" := VStr "capital"; "value" := VStr "Paris"]} ]}.

Lemma semantic_store_witness :
  exists objects' m',
    store demo_hash demo_clock 1%nat 1%Q fact_objects (init 10 "semantic")
      = Ok (objects', m') /\
    dict_lookup (semantic_memory m') (VStr "capital") = Some 1%nat.
Proof.
  destruct (semantic_store demo_hash demo_clock 1%nat 1%Q fact_objects
              (init 10 "semantic") eq_refl) as (objects' & m' & Hs & Hl & _).
  exists objects', m'. split; [exact Hs | exact Hl].
Defined.

(** *** Sequences of [store] calls return *)

Section Timely.
Context (hash_str : dict -> Z).

(** The clocks of a sequence of calls run forward: in each call the time
    read by the eviction is not before the time stamp written by that call,
    nor before [bound] and the time stamps written by the calls before. *)
Fixpoint timely (bound : Z) (calls : list ((nat -> Z) * nat * Q)) : Prop :=
  match calls with
  | [] => True
  | (clock, _, _) :: calls' =>
      bound <= clock 2%nat /\ clock 0%nat <= clock 2%nat /\
      timely (Z.max bound (clock 0%nat)) calls'
  end.

(** The items held in the episodic store carry time stamps up to [bound]. *)
Definition held (objects : gmap nat dict) (m : memory) (bound : Z) : Prop :=
  forall l, l ∈ episodic_memory m ->
    exists t, deref objects l !! "_timestamp" = Some (VTime t) /\ t <= bound.

Lemma forget_subseteq objects m now kept :
  forget_least_important objects m now = Ok kept -> kept ⊆ episodic_memory m.
Proof.
  destruct (decide (episodic_memory m = [])) as [Hnil | Hne].
  - unfold forget_least_important. rewrite Hnil. by intros [= <-].
  - intros (i & _ & _ & _ & -> & _)%forget_spec; [|done].
    apply list_subseteq_delete.
Qed.

Lemma store_held clock item priority objects m bound :
  held objects m bound -> bound <= clock 2%nat -> clock 0%nat <= clock 2%nat ->
  exists objects' m',
    store hash_str clock item priority objects m = Ok (objects', m') /\
    held objects' m' (Z.max bound (clock 0%nat)).
Proof.
  intros Hheld Hb Hc.
  assert (Hok : is_ok (store hash_str clock item priority objects m)).
  { apply store_ok; [done|]. intros l Hl _.
    destruct (Hheld l Hl) as (t & Ht & Hle). exists t. split; [done | lia]. }
  destruct (store hash_str clock item priority objects m) as [[objects' m']|] eqn:Hst; [|done].
  exists objects', m'. split; [done|].
  apply store_cases in Hst as (item_id & _ & -> & _ & Hcases).
  assert (Hsub : episodic_memory m' ⊆ item :: episodic_memory m).
  { destruct Hcases
      as [(_ & _ & ->) | [(_ & kept & Hk & ->) | [(_ & _ & ->) | (_ & _ & _ & ->)]]];
      try (intros l Hl; by right).
    assert (Hkept : kept ⊆ episodic_memory m).
    { destruct (capacity m <=? length (episodic_memory m))%nat.
      - by apply forget_subseteq in Hk.
      - by injection Hk as <-. }
    intros l Hl. unfold deque_append in Hl. apply subseteq_drop in Hl.
    apply elem_of_app in Hl as [Hl | ->%list_elem_of_singleton]; [|by left].
    right. by apply Hkept. }
  intros l Hl. apply Hsub in Hl.
  destruct (decide (l = item)) as [-> | Hne].
  - exists (clock 0%nat). split; [|lia].
    unfold deref. rewrite lookup_insert_eq. simpl.
    rewrite lookup_insert_ne by done. unfold stamped.
    do 2 (rewrite lookup_insert_ne by done). by rewrite lookup_insert_eq.
  - apply elem_of_cons in Hl as [? | Hl]; [done|].
    destruct (Hheld l Hl) as (t & Ht & Hle). exists t. split; [|lia].
    unfold deref. by rewrite lookup_insert_ne.
Qed.

Lemma stores_held calls objects m bound :
  held objects m bound -> timely bound calls -> is_ok (stores hash_str calls objects m).
Proof.
  revert objects m bound. induction calls as [|[[clock item] priority] calls IH];
    intros objects m bound Hheld Ht; cbn [stores]; [done|].
  destruct Ht as (Hb & Hc & Ht).
  destruct (store_held clock item priority objects m bound Hheld Hb Hc)
    as (objects' & m' & -> & Hheld').
  by apply (IH objects' m' (Z.max bound (clock 0%nat))).
Qed.

(** X20.  A sequence of [store] calls on a fresh memory of any type and
    capacity returns — no eviction divides by zero — as long as the clock
    is never set back between the time stamp of a call and the evictions
    of that call and of the later calls. *)
Theorem stores_return (C : nat) (memory_type : string)
    (calls : list ((nat -> Z) * nat * Q)) (objects : gmap nat dict) (bound : Z) :
  timely bound calls ->
  is_ok (stores hash_str calls objects (init C memory_type)).
Proof.
  intros Ht. apply (stores_held calls objects _ bound); [|done].
  intros l Hl. by apply elem_of_nil in Hl.
Qed.

End Timely.

Lemma stores_return_witness :
  is_ok (stores demo_hash
           [(demo_clock, 1%nat, 1%Q); (fun n => demo_clock n + 10, 2%nat, (1 # 10)%Q)]
           demo_objects (init 2 "episodic")).
Proof.
  apply (stores_return demo_hash 2 "episodic" _ demo_objects 0).
  unfold timely, demo_clock. simpl. lia.
Defined.

(** *** [recall] returns the best items *)

Lemma len_memories (m : memory) : len m = length (memories m).
Proof.
  unfold len, memories.
  destruct (String.eqb_spec (memory_type m) "working") as [-> | Hw]; [done|].
  destruct (String.eqb (memory_type m) "episodic"); [done|].
  by rewrite length_fmap.
Qed.

Section Best.
Context (similarity : query -> dict -> Q).
Context (clock : nat -> Z) (objects : gmap nat dict) (q : query) (threshold : Q).

(** The stored items that meet the threshold, in the order of the store. *)
Definition passing (m : memory) : list nat :=
  filter (fun l => passes similarity objects q threshold l = true) (memories m).

(** Number of items kept by the slice [[:k]] of a list of [n] items. *)
Definition slice_length (n : nat) (k : Z) : nat :=
  if 0 <=? k then (Z.to_nat k `min` n)%nat else Z.to_nat (Z.of_nat n + k).

Lemma recall_split (k : Z) (m : memory) :
  exists rest,
    (recall similarity clock q k threshold objects m).2 ++ rest ≡ₚ passing m /\
    (forall a b, a ∈ (recall similarity clock q k threshold objects m).2 -> b ∈ rest ->
       (similarity q (deref objects b) <= similarity q (deref objects a))%Q) /\
    length (recall similarity clock q k threshold objects m).2 =
      slice_length (length (passing m)) k.
Proof.
  destruct (recall_spec similarity clock objects q threshold k m) as [-> _].
  fold (passing m).
  set (scored := (fun l => (similarity q (deref objects l), l)) <$> passing m).
  assert (Hsnd : scored.*2 = passing m).
  { unfold scored. rewrite <- list_fmap_compose. apply list_fmap_id. }
  assert (Hlen : length (sort_desc scored) = length (passing m)).
  { rewrite sort_desc_perm. unfold scored. by rewrite length_fmap. }
  assert (Hall : Forall (fun sl : Q * nat => sl.1 = similarity q (deref objects sl.2))
                   (sort_desc scored)).
  { rewrite sort_desc_perm. unfold scored. rewrite Forall_fmap. by apply Forall_forall. }
  pose proof (sort_desc_descending scored) as Hd.
  assert (Hslice : exists n, slice_to (sort_desc scored) k = take n (sort_desc scored) /\
            length (take n (sort_desc scored)) = slice_length (length (passing m)) k).
  { unfold slice_to, slice_length. destruct (Z.leb_spec 0 k).
    - eexists. split; [done|]. rewrite length_take, Hlen. done.
    - eexists. split; [done|]. rewrite length_take, Hlen. lia. }
  destruct Hslice as (n & -> & Hn).
  exists ((drop n (sort_desc scored)).*2). split; [|split].
  - rewrite <- fmap_app, take_drop, sort_desc_perm. by rewrite Hsnd.
  - intros a b Ha Hb.
    apply list_elem_of_fmap in Ha as ([sa la] & -> & Ha).
    apply list_elem_of_fmap in Hb as ([sb lb] & -> & Hb).
    unfold descending in Hd. rewrite <- (take_drop n (sort_desc scored)) in Hd.
    pose proof (StronglySorted_app_1_elem_of _ _ _ _ _ Hd Ha Hb) as Hle.
    rewrite Forall_forall in Hall.
    pose proof (Hall _ (subseteq_take _ _ _ Ha)) as Ea.
    pose proof (Hall _ (subseteq_drop _ _ _ Hb)) as Eb.
    simpl in *. by rewrite <- Ea, <- Eb.
  - by rewrite length_fmap.
Qed.

(** X21.  [recall] returns the best of the stored items that meet the
    threshold: together with the items it leaves out they are exactly the
    items meeting the threshold, no item left out scores more than an item
    returned, and the number returned is that of the slice [[:k]] — the
    least of [k] and the number of items meeting the threshold when [k] is
    not negative, all but the last [-k] of them otherwise. *)
Theorem recall_best (k : Z) (m : memory) :
  exists rest,
    (recall similarity clock q k threshold objects m).2 ++ rest ≡ₚ passing m /\
    (forall a b, a ∈ (recall similarity clock q k threshold objects m).2 -> b ∈ rest ->
       (similarity q (deref objects b) <= similarity q (deref objects a))%Q) /\
    length (recall similarity clock q k threshold objects m).2 =
      slice_length (length (passing m)) k.
Proof. apply recall_split. Qed.

(** *** The total of the access counts *)

(** [sum(counts.values())] *)
Definition total (counts : gmap value Z) : Z :=
  map_fold (fun (_ : value) (n acc : Z) => n + acc) 0 counts.

Lemma total_increment (counts : gmap value Z) (id : value) :
  total (<[id := default 0 (counts !! id) + 1]> counts) = total counts + 1.
Proof.
  unfold total. rewrite <- insert_delete_eq.
  rewrite map_fold_insert_L; [| intros; lia | apply lookup_delete_eq].
  destruct (counts !! id) as [n|] eqn:Hid; simpl.
  - rewrite (map_fold_delete_L _ _ id n counts); [lia | intros; lia | done].
  - rewrite delete_id by done. lia.
Qed.

(** The stored items that [recall] counts: they meet the threshold and
    carry a usable identifier. *)
Definition counted (items : list nat) : list nat :=
  filter (fun l => passes similarity objects q threshold l = true /\
                   truthy (dict_get (deref objects l) "_id") = true) items.

Lemma score_loop_total (items : list nat) scored counts last reads :
  total (score_loop similarity clock objects q threshold items scored counts last reads).1.1.2 =
  total counts + Z.of_nat (length (counted items)).
Proof.
  revert scored counts last reads.
  induction items as [|l items IH]; intros scored counts last reads; cbn [score_loop].
  - simpl. lia.
  - cbv zeta. unfold counted.
    change (Qle_bool threshold (similarity q (deref objects l)))
      with (passes similarity objects q threshold l).
    destruct (passes similarity objects q threshold l) eqn:Hp.
    + destruct (truthy (dict_get (deref objects l) "_id")) eqn:Ht.
      * rewrite filter_cons_True by done. rewrite IH, total_increment.
        unfold counted. simpl. lia.
      * rewrite filter_cons_False by (intros [_ ?]; congruence). apply IH.
    + rewrite filter_cons_False by (intros [? _]; congruence). apply IH.
Qed.

(** X22.  A call of [recall] raises 'total_accesses' of [get_stats] by the
    number of stored items that meet the threshold and carry a usable
    identifier, whatever [k] is. *)
Theorem recall_total_accesses (k : Z) (m : memory) :
  stats_total_accesses (get_stats (recall similarity clock q k threshold objects m).1) =
  stats_total_accesses (get_stats m) + Z.of_nat (length (counted (memories m))).
Proof.
  unfold get_stats, total_accesses. cbn [stats_total_accesses]. fold (total (access_counts m)).
  unfold recall. destruct (memories m) as [|l0 items0] eqn:Hmem.
  { simpl. unfold total. lia. }
  rewrite <- Hmem.
  pose proof (score_loop_total (memories m) [] (access_counts m) (last_access m) 0) as Hs.
  destruct (score_loop similarity clock objects q threshold (memories m) []
              (access_counts m) (last_access m) 0) as [[[scored counts] last] reads].
  simpl in *. exact Hs.
Qed.

End Best.

(** *** The similarity the class defines *)

Lemma calculate_similarity_cases (q : query) (d : dict) :
  calculate_similarity q d = (7 # 10)%Q \/ calculate_similarity q d = (1 # 2)%Q.
Proof.
  unfold calculate_similarity. destruct q; [|by right].
  destruct (d !! "state"); [by left | by right].
Qed.

Lemma filter_all {A : Type} (P : A -> Prop) `{!forall x, Decision (P x)} (l : list A) :
  (forall x, x ∈ l -> P x) -> filter P l = l.
Proof.
  induction l as [|x l IH]; intros Hall; [done|].
  rewrite filter_cons_True by (apply Hall; by left).
  f_equal. apply IH. intros y Hy. apply Hall. by right.
Qed.

Lemma filter_none {A : Type} (P : A -> Prop) `{!forall x, Decision (P x)} (l : list A) :
  (forall x, x ∈ l -> ~ P x) -> filter P l = [].
Proof.
  induction l as [|x l IH]; intros Hall; [done|].
  rewrite filter_cons_False by (apply Hall; by left).
  apply IH. intros y Hy. apply Hall. by right.
Qed.

(** X23.  With the similarity of the class itself — 0.7 for a dictionary
    query against an item with a 'state' entry, 0.5 otherwise — a
    threshold of at most 0.5 lets every stored item through, so that
    [recall] returns [min(k, len(memory))] items for [k] not negative; a
    threshold above 0.7 lets none through: the result is empty and no
    access count moves. *)
Theorem default_similarity_recall (clock : nat -> Z) (objects : gmap nat dict)
    (q : query) (threshold : Q) (k : Z) (m : memory) :
  ((threshold <= 1 # 2)%Q -> 0 <= k ->
   length (recall calculate_similarity clock q k threshold objects m).2 =
     (Z.to_nat k `min` len m)%nat) /\
  ((7 # 10 < threshold)%Q ->
   (recall calculate_similarity clock q k threshold objects m).2 = [] /\
   forall id,
     default 0 (access_counts (recall calculate_similarity clock q k threshold objects m).1
                  !! id) =
     default 0 (access_counts m !! id)).
Proof.
  split.
  - intros Hthr Hk.
    destruct (recall_split calculate_similarity clock objects q threshold k m)
      as (rest & _ & _ & ->).
    unfold slice_length. replace (0 <=? k) with true by lia.
    rewrite len_memories. unfold passing. rewrite filter_all; [done|].
    intros l _. unfold passes. apply Qle_bool_iff.
    destruct (calculate_similarity_cases q (deref objects l)) as [-> | ->]; lra.
  - intros Hthr.
    assert (Hnone : forall l, passes calculate_similarity objects q threshold l = false).
    { intros l. unfold passes. apply not_true_is_false. intros H%Qle_bool_iff.
      destruct (calculate_similarity_cases q (deref objects l)) as [E | E];
        rewrite E in H; lra. }
    split.
    + destruct (recall_split calculate_similarity clock objects q threshold k m)
        as (rest & _ & _ & Hlen).
      unfold passing in Hlen. rewrite filter_none in Hlen.
      2:{ intros l _. by rewrite Hnone. }
      unfold slice_length in Hlen. simpl in Hlen.
      apply length_zero_iff_nil. rewrite Hlen. destruct (0 <=? k) eqn:E; lia.
    + intros id.
      rewrite (proj2 (recall_spec calculate_similarity clock objects q threshold k m)).
      unfold touched. rewrite filter_none.
      2:{ intros l _ [H _]. by rewrite Hnone in H. }
      simpl. destruct (truthy id); lia.
Qed.

Lemma default_similarity_recall_witness :
  length (recall calculate_similarity demo_clock (QDict ∅) 1 (1 # 2)
            demo_after.1 demo_after.2).2 = (Z.to_nat 1 `min` len demo_after.2)%nat.
Proof.
  apply (proj1 (default_similarity_recall demo_clock demo_after.1 (QDict ∅) (1 # 2) 1
                  demo_after.2)).
  - vm_compute. discriminate.
  - lia.
Defined.

(** *** Eviction *)

(** The factor [priority * (1 + access_count)] of the importance of an
    item, and the hours factor [1 + age / 3600]. *)
Definition weight (m : memory) (d : dict) : Q :=
  (default 1%Q (priorities m !! dict_get d "_id") *
   inject_Z (1 + default 0%Z (access_counts m !! dict_get d "_id")))%Q.

Definition hours (now t : Z) : Q := (1 + ((now - t) # 1000000) / 3600)%Q.

Lemma importance_stamped (m : memory) (now t : Z) (d : dict) :
  d !! "_timestamp" = Some (VTime t) ->
  importance m now d =
    if Qeq_bool (hours now t) 0 then Raise ZeroDivisionError
    else Ok (weight m d * (1 / hours now t))%Q.
Proof. intros Ht. unfold importance. by rewrite Ht. Qed.

Lemma hours_age (now t : Z) : (hours now t == 1 + inject_Z (now - t) / 3600000000)%Q.
Proof.
  unfold hours. rewrite (Qmake_Qdiv (now - t) 1000000).
  unfold Qdiv. rewrite <- Qmult_assoc.
  apply Qplus_comp; [reflexivity|]. apply Qmult_comp; [reflexivity|]. reflexivity.
Qed.

Lemma hours_zero (now : Z) : Qeq_bool (hours now (now + 3600000000)) 0 = true.
Proof.
  apply Qeq_bool_iff. rewrite hours_age.
  replace (now - (now + 3600000000)) with (-3600000000) by lia. reflexivity.
Qed.

Lemma hours_positive (now t : Z) : t <= now -> (1 <= hours now t)%Q.
Proof.
  intros Hle. rewrite hours_age.
  assert (0 <= inject_Z (now - t) / 3600000000)%Q; [|lra].
  apply Qle_shift_div_l; [reflexivity|]. rewrite Qmult_0_l.
  change 0%Q with (inject_Z 0). rewrite <- Zle_Qle. lia.
Qed.

Lemma hours_le (now t1 t2 : Z) : (hours now t1 <= hours now t2)%Q -> t2 <= t1.
Proof.
  rewrite !hours_age. intros Hle.
  assert (H : (inject_Z (now - t1) <= inject_Z (now - t2))%Q).
  { assert (Hd : (inject_Z (now - t1) / 3600000000 <= inject_Z (now - t2) / 3600000000)%Q)
      by lra.
    unfold Qdiv in Hd. apply Qmult_le_r in Hd; [done | reflexivity]. }
  rewrite <- Zle_Qle in H. lia.
Qed.

Lemma importance_scores_raises objects m now (items : list nat) (l : nat) :
  (forall l', l' ∈ items -> exists t, deref objects l' !! "_timestamp" = Some (VTime t)) ->
  l ∈ items ->
  deref objects l !! "_timestamp" = Some (VTime (now + 3600000000)) ->
  importance_scores objects m now items = Raise ZeroDivisionError.
Proof.
  intros Hts Hl Hbad. induction items as [|l' items IH]; [by apply elem_of_nil in Hl|].
  cbn [importance_scores].
  destruct (Hts l' (list_elem_of_here _ _)) as (t & Ht).
  rewrite (importance_stamped m now t _ Ht).
  destruct (Qeq_bool (hours now t) 0) eqn:Hz; [done|].
  rewrite IH; [done | |].
  - intros l'' Hl''. apply Hts. by right.
  - apply elem_of_cons in Hl as [-> | Hl]; [|done].
    rewrite Ht in Hbad. injection Hbad as ->. by rewrite hours_zero in Hz.
Qed.

Section Eviction.
Context (hash_str : dict -> Z).

(** X24.  A [store] that has to evict raises [ZeroDivisionError] when an
    item held — another one than the item being stored — carries a time
    stamp exactly one hour ahead of the time read by the eviction, as
    happens when the clock has been set back by an hour. *)
Theorem eviction_divides_by_zero (clock : nat -> Z) (item : nat) (priority : Q)
    (objects : gmap nat dict) (m : memory) (l : nat) :
  memory_type m = "episodic" ->
  (capacity m <= length (episodic_memory m))%nat ->
  (forall l', l' ∈ episodic_memory m -> l' <> item ->
     exists t, deref objects l' !! "_timestamp" = Some (VTime t)) ->
  l ∈ episodic_memory m -> l <> item ->
  deref objects l !! "_timestamp" = Some (VTime (clock 2%nat + 3600000000)) ->
  store hash_str clock item priority objects m = Raise ZeroDivisionError.
Proof.
  intros Hty Hfull Hts Hl Hne Hbad.
  unfold store. cbv zeta. rewrite generate_id_stamped. rewrite Hty.
  cbn [String.eqb Ascii.eqb Bool.eqb andb].
  apply Nat.leb_le in Hfull. rewrite Hfull.
  set (objects' := <[item := _]> objects).
  unfold forget_least_important.
  destruct (episodic_memory m) as [|l0 ep0] eqn:Hep; [by apply elem_of_nil in Hl|].
  rewrite <- Hep in *.
  rewrite (importance_scores_raises objects' m (clock 2%nat) (episodic_memory m) l); try done.
  - intros l' Hl'. destruct (decide (l' = item)) as [-> | Hne'].
    + exists (clock 0%nat). unfold deref, objects'. rewrite lookup_insert_eq. simpl.
      rewrite lookup_insert_ne by done. unfold stamped.
      do 2 (rewrite lookup_insert_ne by done). by rewrite lookup_insert_eq.
    + destruct (Hts l' Hl' Hne') as (t & Ht). exists t.
      unfold deref, objects'. by rewrite lookup_insert_ne.
  - unfold deref, objects'. by rewrite lookup_insert_ne.
Qed.

(** X25.  When the items held all have the same positive product
    [priority * (1 + access_count)] and time stamps that are not in the
    future, the item evicted by [store] is an oldest one: no item held
    carries an earlier time stamp. *)
Theorem eviction_oldest (clock : nat -> Z) (item : nat) (priority w : Q)
    (objects objects' : gmap nat dict) (m m' : memory) :
  memory_type m = "episodic" ->
  episodic_memory m <> [] ->
  (capacity m <= length (episodic_memory m))%nat ->
  (0 < w)%Q ->
  (forall l, l ∈ episodic_memory m -> (weight m (deref objects' l) == w)%Q) ->
  (forall l, l ∈ episodic_memory m ->
     exists t, deref objects' l !! "_timestamp" = Some (VTime t) /\ t <= clock 2%nat) ->
  store hash_str clock item priority objects m = Ok (objects', m') ->
  exists i victim tv,
    episodic_memory m !! i = Some victim /\
    episodic_memory m' = deque_append (capacity m) (delete i (episodic_memory m)) item /\
    deref objects' victim !! "_timestamp" = Some (VTime tv) /\
    (forall l t, l ∈ episodic_memory m ->
       deref objects' l !! "_timestamp" = Some (VTime t) -> tv <= t).
Proof.
  intros Hty Hne Hfull Hw Hweight Hts Hst.
  apply store_cases in Hst as (item_id & _ & Hobj & Hcap & Hcases).
  destruct Hcases as [(Hty' & _) | [(_ & kept & Hk & Hep) | [(Hty' & _) | (_ & Hty' & _)]]];
    [congruence | | congruence..].
  apply Nat.leb_le in Hfull. rewrite Hfull in Hk.
  apply forget_spec in Hk as (i & victim & score & Hi & -> & Himp & Hleast); [|done].
  assert (Hv : victim ∈ episodic_memory m) by (by apply list_elem_of_lookup_2 in Hi).
  destruct (Hts victim Hv) as (tv & Htv & Hletv).
  exists i, victim, tv. repeat split; [done.. |].
  intros l t Hl Ht.
  destruct (Hts l Hl) as (t' & Ht' & Hlet). rewrite Ht in Ht'. injection Ht' as <-.
  destruct (Hleast l Hl) as (s & Hs & Hle).
  rewrite (importance_stamped m _ tv _ Htv) in Himp.
  rewrite (importance_stamped m _ t _ Ht) in Hs.
  pose proof (hours_positive _ _ Hletv) as Hhv.
  pose proof (hours_positive _ _ Hlet) as Hhl.
  destruct (Qeq_bool (hours (clock 2%nat) tv) 0); [done|].
  destruct (Qeq_bool (hours (clock 2%nat) t) 0); [done|].
  injection Himp as <-. injection Hs as <-.
  rewrite (Hweight victim Hv), (Hweight l Hl) in Hle.
  apply (hours_le (clock 2%nat)).
  revert Hle Hhv Hhl.
  generalize (hours (clock 2%nat) tv) (hours (clock 2%nat) t). intros hv hl Hle Hhv Hhl.
  apply Qmult_le_l in Hle; [|done].
  unfold Qdiv in Hle. rewrite !Qmult_1_l in Hle.
  destruct (Qlt_le_dec hv hl) as [Hlt | Hge]; [|done].
  exfalso. assert (Hinv : (/ hl < / hv)%Q).
  { apply (proj1 (Qinv_lt_contravar hv hl ltac:(lra) ltac:(lra))). exact Hlt. }
  lra.
Qed.

End Eviction.

(** An episodic memory of capacity 1 that holds item 1, and a clock that
    has been set back by one hour since. *)
Definition single_full : gmap nat dict * memory :=
  match stores demo_hash [(demo_clock, 1%nat, 1%Q)] demo_objects (init 1 "episodic") with
  | Ok r => r
  | Raise _ => (demo_objects, init 1 "episodic")
  end.

Definition set_back (n : nat) : Z := demo_clock 0%nat - 3600000000.

Lemma single_held : episodic_memory single_full.2 = [1%nat].
Proof. vm_compute. reflexivity. Qed.

Lemma single_stamp :
  deref single_full.1 1%nat !! "_timestamp" = Some (VTime (set_back 2%nat + 3600000000)).
Proof. vm_compute. reflexivity. Qed.

Lemma eviction_divides_by_zero_witness :
  store demo_hash set_back 2%nat 1%Q single_full.1 single_full.2 = Raise ZeroDivisionError.
Proof.
  apply (eviction_divides_by_zero demo_hash set_back 2%nat 1%Q single_full.1 single_full.2
           1%nat).
  - reflexivity.
  - rewrite single_held. vm_compute. lia.
  - rewrite single_held. intros l' Hl' _. apply list_elem_of_singleton in Hl' as ->.
    eexists. exact single_stamp.
  - rewrite single_held. apply list_elem_of_here.
  - discriminate.
  - exact single_stamp.
Defined.

(** An episodic memory of capacity 2 that holds items 1 and 2, stored with
    the same priority, and a third item stored one hour later. *)
Definition pair_full : gmap nat dict * memory :=
  match stores demo_hash
          [(demo_clock, 1%nat, 1%Q); (fun n => demo_clock n + 10, 2%nat, 1%Q)]
          demo_objects (init 2 "episodic") with
  | Ok r => r
  | Raise _ => (demo_objects, init 2 "episodic")
  end.

Definition pair_after : gmap nat dict * memory :=
  match store demo_hash demo_late 3%nat 1%Q pair_full.1 pair_full.2 with
  | Ok r => r
  | Raise _ => pair_full
  end.

Lemma pair_store :
  store demo_hash demo_late 3%nat 1%Q pair_full.1 pair_full.2
    = Ok (pair_after.1, pair_after.2).
Proof. vm_cast_no_check (eq_refl (Ok (pair_after.1, pair_after.2))). Qed.

Lemma pair_held : episodic_memory pair_full.2 = [1%nat; 2%nat].
Proof. vm_compute. reflexivity. Qed.

Lemma eviction_oldest_witness :
  exists i victim tv,
    episodic_memory pair_full.2 !! i = Some victim /\
    episodic_memory pair_after.2 =
      deque_append (capacity pair_full.2) (delete i (episodic_memory pair_full.2)) 3%nat /\
    deref pair_after.1 victim !! "_timestamp" = Some (VTime tv) /\
    (forall l t, l ∈ episodic_memory pair_full.2 ->
       deref pair_after.1 l !! "_timestamp" = Some (VTime t) -> tv <= t).
Proof.
  apply (eviction_oldest demo_hash demo_late 3%nat 1%Q 1%Q pair_full.1 pair_after.1
           pair_full.2 pair_after.2).
  - reflexivity.
  - rewrite pair_held. discriminate.
  - rewrite pair_held. vm_compute. lia.
  - reflexivity.
  - rewrite pair_held. intros l Hl.
    apply elem_of_cons in Hl as [-> | Hl]; [vm_compute; reflexivity|].
    apply list_elem_of_singleton in Hl as ->. vm_compute. reflexivity.
  - rewrite pair_held. intros l Hl.
    apply elem_of_cons in Hl as [-> | Hl].
    + eexists. split; [vm_compute; reflexivity | vm_compute; discriminate].
    + apply list_elem_of_singleton in Hl as ->.
      eexists. split; [vm_compute; reflexivity | vm_compute; discriminate].
  - exact pair_store.
Defined.

(** What the scenario computes: item 1, the older one, is evicted. *)
Example pair_eviction : episodic_memory pair_after.2 = [2%nat; 3%nat].
Proof. vm_compute. reflexivity. Qed.

End MemoryExtra.
